(** * Reseau: a directed, weighted network and its three shortest-path
      operations (src/reseau.cpp)

    The development embeds the class [Reseau] of src/reseau.cpp: the
    container operations (lines 10-174) and the three path operations
    [dijkstra] (184-238), [meilleurPlusCourtChemin] (248-315) and
    [bellmanFord] (325-370).

    Conventions of the embedding.
    - [unsigned int] values are integers of [0, 2^32); [int] values are
      integers of [-2^31, 2^31).  Every conversion the C++ code performs
      implicitly in the path operations is written out with [vers_int] and
      [vers_unsigned].  The counters [nbSommets] and [nbArcs] are plain
      integers.
    - reseau.h is not among the sources.  [m_arcs] maps a vertex to its
      adjacency table, which maps a destination to (cout, type); both are
      iterated over by the code, and the path operations use
      [std::unordered_map] and [std::unordered_set], whose enumeration
      order is not specified.  They are association lists here, and the
      order of the list is the order in which the container is enumerated;
      a key enters a table at its end.  Statements about a given network
      are made for every enumeration order ([reordonne]).
    - The local tables [distances], [predecesseurs] and [sommets] are only
      read and written by key: they are finite maps.
    - PairingH.h is not among the sources either; the heap is the module
      [PairingH] below.
    - A call either returns, throws, runs into undefined behaviour, or is
      still looping when the fuel given to its [while] loops is spent.  A
      path operation gives its outcome together with the network as the
      call leaves it. *)

From Stdlib Require Import ZArith List Lia.
From stdpp Require Import base option list gmap strings.

Local Open Scope Z_scope.

(** ** Machine integers *)

Definition INT_MAX : Z := 2147483647.

(** Conversion to [int] (two's complement, 32 bits). *)
Definition vers_int (z : Z) : Z := (z + 2147483648) mod 4294967296 - 2147483648.

(** Conversion to [unsigned int]. *)
Definition vers_unsigned (z : Z) : Z := z mod 4294967296.

(** ** Outcomes of a call *)

(** [std::logic_error] is what reseau.cpp throws; EmptyHeap and
    InvalidHandle are the failures section 7 of the specification gives to
    the heap. *)
Inductive exception : Type :=
  | logic_error (what : string)
  | EmptyHeap
  | InvalidHandle.

Inductive issue (A : Type) : Type :=
  | Retour (a : A)          (* normal return *)
  | Leve (e : exception)    (* an exception leaves the call *)
  | Indefini                (* undefined behaviour *)
  | Epuise.                 (* a while loop has not finished within the fuel *)

Arguments Retour {A} a.
Arguments Leve {A} e.
Arguments Indefini {A}.
Arguments Epuise {A}.

Definition issue_lier {A B} (f : A -> issue B) (m : issue A) : issue B :=
  match m with
  | Retour a => f a
  | Leve e => Leve e
  | Indefini => Indefini
  | Epuise => Epuise
  end.

#[global] Instance issue_bind : MBind issue := @issue_lier.
#[global] Instance issue_ret : MRet issue := @Retour.

(** ** Association tables in enumeration order *)

Section Table.
Context {V : Type}.

(** [find]: the entry stored under a key. *)
Fixpoint trouver (k : Z) (t : list (Z * V)) : option V :=
  match t with
  | [] => None
  | (k', v) :: t' => if Z.eqb k k' then Some v else trouver k t'
  end.

(** [count]. *)
Definition compte (k : Z) (t : list (Z * V)) : Z :=
  match trouver k t with Some _ => 1 | None => 0 end.

(** [t[k] = v]: the entry is replaced where it stands, a new key is added. *)
Fixpoint affecter (k : Z) (v : V) (t : list (Z * V)) : list (Z * V) :=
  match t with
  | [] => [(k, v)]
  | (k', v') :: t' =>
      if Z.eqb k k' then (k, v) :: t' else (k', v') :: affecter k v t'
  end.

(** [insert({k, v})]: nothing happens when the key is present. *)
Definition inserer (k : Z) (v : V) (t : list (Z * V)) : list (Z * V) :=
  match trouver k t with Some _ => t | None => t ++ [(k, v)] end.

(** [erase(k)]. *)
Fixpoint effacer (k : Z) (t : list (Z * V)) : list (Z * V) :=
  match t with
  | [] => []
  | (k', v') :: t' =>
      if Z.eqb k k' then t' else (k', v') :: effacer k t'
  end.

(** [t[k]] used as a value: a missing key is created with the default
    value [d]; the table after the access is returned with the value. *)
Definition crochet (d : V) (k : Z) (t : list (Z * V)) : V * list (Z * V) :=
  match trouver k t with
  | Some v => (v, t)
  | None => (d, t ++ [(k, d)])
  end.
End Table.

(** ** The network *)

(** The adjacency table of a vertex: destination, then (cout, type), both
    [unsigned int] as the parameters of [ajouterArc] and [majCoutArc]. *)
Abbreviation liste_arcs := (list (Z * (Z * Z))).

Record Reseau : Type := mkReseau {
  nbSommets : Z;
  nbArcs : Z;
  m_arcs : list (Z * liste_arcs)
}.

(** Reseau::Reseau() *)
Definition vide : Reseau := mkReseau 0 0 [].

Definition nombreSommets (g : Reseau) : Z := nbSommets g.
Definition nombreArcs (g : Reseau) : Z := nbArcs g.
Definition estVide (g : Reseau) : bool := Z.eqb (nbSommets g) 0.

(** Lines 43-45. *)
Definition sommetExiste (g : Reseau) (numero : Z) : bool :=
  negb (Z.eqb (compte numero (m_arcs g)) 0).

(** Lines 54-59. *)
Definition arcExiste (g : Reseau) (numOrigine numDest : Z) : issue bool :=
  if negb (sommetExiste g numOrigine && sommetExiste g numDest) then
    Leve (logic_error "arcExiste: Un des sommets n'existe pas!")
  else
    match trouver numOrigine (m_arcs g) with
    | Some l => Retour (negb (Z.eqb (compte numDest l) 0))
    | None => Indefini
    end.

(** Lines 67-73. *)
Definition ajouterSommet (g : Reseau) (p_numero : Z) : issue Reseau :=
  if sommetExiste g p_numero then
    Leve (logic_error "ajouterSommet: Un sommet avec le numero existe!")
  else
    Retour (mkReseau (nbSommets g + 1) (nbArcs g)
              (affecter p_numero [] (m_arcs g))).

(** Lines 85-91. *)
Definition ajouterArc (g : Reseau) (numOrigine numDest cout type : Z)
  : issue Reseau :=
  b ← arcExiste g numOrigine numDest;
  if (b : bool) then Leve (logic_error "ajouterArc: arc déja existant")
  else
    let '(l, m) := crochet [] numOrigine (m_arcs g) in
    Retour (mkReseau (nbSommets g) (nbArcs g + 1)
              (affecter numOrigine (inserer numDest (cout, type) l) m)).

(** Lines 122-128. *)
Definition enleverArc (g : Reseau) (numOrigine numDest : Z) : issue Reseau :=
  b ← arcExiste g numOrigine numDest;
  if negb b then Leve (logic_error "enleverArc: arc non existant")
  else
    let '(l, m) := crochet [] numOrigine (m_arcs g) in
    Retour (mkReseau (nbSommets g) (nbArcs g - 1)
              (affecter numOrigine (effacer numDest l) m)).

(** Lines 104-109: the loop of [enleverSommet] over the keys of [m_arcs];
    the adjacency tables change while the loop runs, the keys do not. *)
Fixpoint enleverSommet_boucle (origines : list Z) (numero : Z) (g : Reseau)
  : issue Reseau :=
  match origines with
  | [] => Retour g
  | origine :: reste =>
      b ← arcExiste g origine numero;
      g' ← (if (b : bool) then enleverArc g origine numero else Retour g);
      enleverSommet_boucle reste numero g'
  end.

(** Lines 99-112. *)
Definition enleverSommet (g : Reseau) (numero : Z) : issue Reseau :=
  if negb (sommetExiste g numero) then
    Leve (logic_error "enleverSommet: le sommet n'existe pas")
  else
    g' ← enleverSommet_boucle (m_arcs g).*1 numero g;
    Retour (mkReseau (nbSommets g' - 1) (nbArcs g')
              (effacer numero (m_arcs g'))).

(** Lines 139-144. *)
Definition majCoutArc (g : Reseau) (numOrigine numDest cout : Z)
  : issue Reseau :=
  b ← arcExiste g numOrigine numDest;
  if negb b then Leve (logic_error "majCoutArc: arc non existant")
  else
    let '(l, m) := crochet [] numOrigine (m_arcs g) in
    let '(a, l') := crochet (0, 0) numDest l in
    Retour (mkReseau (nbSommets g) (nbArcs g)
              (affecter numOrigine (affecter numDest (cout, a.2) l') m)).

(** Lines 154-159. *)
Definition getCoutArc (g : Reseau) (numOrigine numDest : Z) : issue Z :=
  b ← arcExiste g numOrigine numDest;
  if negb b then Leve (logic_error "getCoutArc: arc non existant")
  else
    match trouver numOrigine (m_arcs g) ≫= trouver numDest with
    | Some a => Retour (vers_int a.1)
    | None => Indefini
    end.

(** Lines 169-174. *)
Definition getTypeArc (g : Reseau) (numOrigine numDest : Z) : issue Z :=
  b ← arcExiste g numOrigine numDest;
  if negb b then Leve (logic_error "getTypeArc: arc non existant")
  else
    match trouver numOrigine (m_arcs g) ≫= trouver numDest with
    | Some a => Retour (vers_int a.2)
    | None => Indefini
    end.

(** The number of (origin, destination) entries of all adjacency tables. *)
Definition total_arcs (g : Reseau) : Z :=
  Z.of_nat (length (concat ((m_arcs g).*2))).

(** ** Local tables of the path operations *)

(** [t[k]] on a table of [int]: a missing key reads as 0 (the entry that the
    access creates holds 0, so later reads agree). *)
Definition lire (t : gmap Z Z) (k : Z) : Z := default 0 (t !! k).

(** The walk along [predecesseurs] shared by [dijkstra] (lines 229-232) and
    [bellmanFord] (lines 361-364): [courant] is an [int], the table is keyed
    by [unsigned int].  [None] when the fuel is spent before -1 is met. *)
Fixpoint remonter (fuel : nat) (predecesseurs : gmap Z Z) (courant : Z)
    (chemin_inverse : list Z) : option (list Z) :=
  if Z.eqb courant (-1) then Some chemin_inverse
  else
    match fuel with
    | O => None
    | S fuel' =>
        remonter fuel' predecesseurs
          (lire predecesseurs (vers_unsigned courant))
          (chemin_inverse ++ [vers_unsigned courant])
    end.

(** Lines 225-237 and 357-369: [chemin] is cleared, filled with the reversed
    walk when the destination has a predecessor, and the distance of the
    destination is returned. *)
Definition reconstruire (fuel : nat) (distances predecesseurs : gmap Z Z)
    (numDest : Z) : issue (Z * list Z) :=
  if negb (Z.eqb (lire predecesseurs numDest) (-1)) then
    match remonter fuel predecesseurs (vers_int numDest) [] with
    | Some chemin_inverse => Retour (lire distances numDest, rev chemin_inverse)
    | None => Epuise
    end
  else Retour (lire distances numDest, []).

(** ** dijkstra (lines 184-238) *)

Record etat_dijkstra : Type := mkDijkstra {
  dj_distances : gmap Z Z;
  dj_predecesseurs : gmap Z Z;
  dj_Q : list Z;
  dj_arcs : list (Z * liste_arcs)
}.

(** [Q.insert(k)].  [Q] is filled from [m_arcs] and is enumerated here in
    the order of [m_arcs]; [dijkstra] depends on the order of [m_arcs] only
    through [Q], so what holds for every order of [m_arcs] holds for every
    order of [Q]. *)
Definition Q_inserer (k : Z) (q : list Z) : list Z :=
  if bool_decide (k ∈ q) then q else q ++ [k].

(** [Q.erase(k)]: the other elements keep their order. *)
Definition Q_effacer (k : Z) (q : list Z) : list Z :=
  filter (λ x, x ≠ k) q.

(** Lines 195-201. *)
Definition dijkstra_init (g : Reseau) (numOrigine : Z) : etat_dijkstra :=
  let e :=
    fold_left
      (λ (e : etat_dijkstra) (kv : Z * liste_arcs),
         mkDijkstra (<[kv.1 := INT_MAX]> (dj_distances e))
                    (<[kv.1 := -1]> (dj_predecesseurs e))
                    (Q_inserer kv.1 (dj_Q e))
                    (dj_arcs e))
      (m_arcs g) (mkDijkstra ∅ ∅ [] (m_arcs g)) in
  mkDijkstra (<[numOrigine := 0]> (dj_distances e)) (dj_predecesseurs e)
             (dj_Q e) (dj_arcs e).

(** Lines 203-208: the first vertex of [Q] of least distance. *)
Definition noeud_minimal (distances : gmap Z Z) (q : list Z) : option Z :=
  match q with
  | [] => None
  | premier :: _ =>
      Some (fold_left
              (λ noeud_min noeud,
                 if Z.ltb (lire distances noeud) (lire distances noeud_min)
                 then noeud else noeud_min)
              q premier)
  end.

(** Lines 215-221, for one [voisin]. *)
Definition dijkstra_relacher (q : list Z) (noeud_min : Z)
    (dp : gmap Z Z * gmap Z Z) (voisin : Z * (Z * Z)) : gmap Z Z * gmap Z Z :=
  if bool_decide (voisin.1 ∈ q) then
    let temp := vers_int (voisin.2.1 + lire dp.1 noeud_min) in
    if Z.ltb temp (lire dp.1 voisin.1) then
      (<[voisin.1 := temp]> dp.1, <[voisin.1 := vers_int noeud_min]> dp.2)
    else dp
  else dp.

(** Lines 202-223; [n] iterations remain.  The flag is [false] when
    [*(Q.begin())] is evaluated on an empty set. *)
Fixpoint dijkstra_boucle (n : nat) (numDest : Z) (e : etat_dijkstra)
  : bool * etat_dijkstra :=
  match n with
  | O => (true, e)
  | S n' =>
      match noeud_minimal (dj_distances e) (dj_Q e) with
      | None => (false, e)
      | Some noeud_min =>
          let q := Q_effacer noeud_min (dj_Q e) in
          if Z.eqb noeud_min numDest then
            (true, mkDijkstra (dj_distances e) (dj_predecesseurs e) q
                     (dj_arcs e))
          else
            let '(voisins, arcs) := crochet [] noeud_min (dj_arcs e) in
            let dp :=
              fold_left (dijkstra_relacher q noeud_min) voisins
                (dj_distances e, dj_predecesseurs e) in
            dijkstra_boucle n' numDest (mkDijkstra dp.1 dp.2 q arcs)
      end
  end.

Definition dijkstra (fuel : nat) (g : Reseau) (numOrigine numDest : Z)
  : issue (Z * list Z) * Reseau :=
  if negb (sommetExiste g numOrigine) || negb (sommetExiste g numDest) then
    (Leve (logic_error "dijkstra: Un des sommets n'existe pas!"), g)
  else
    let '(ok, e) :=
      dijkstra_boucle (Z.to_nat (nbSommets g)) numDest
        (dijkstra_init g numOrigine) in
    let g' := mkReseau (nbSommets g) (nbArcs g) (dj_arcs e) in
    if ok then
      (reconstruire fuel (dj_distances e) (dj_predecesseurs e) numDest, g')
    else (Indefini, g').

(** ** bellmanFord (lines 325-370) *)

(** Lines 347-352, for one [voisin]; the state is
    (distances, predecesseurs, estInstable). *)
Definition bellman_relacher (noeud_courant : Z)
    (e : gmap Z Z * gmap Z Z * bool) (voisin : Z * (Z * Z))
  : gmap Z Z * gmap Z Z * bool :=
  let temp := vers_int (voisin.2.1 + lire e.1.1 noeud_courant) in
  if Z.ltb temp (lire e.1.1 voisin.1) && Z.leb 0 temp then
    (<[voisin.1 := temp]> e.1.1, <[voisin.1 := vers_int noeud_courant]> e.1.2,
     true)
  else e.

(** Lines 344-354, for one entry of [m_arcs]. *)
Definition bellman_sommet (e : gmap Z Z * gmap Z Z * bool)
    (kv : Z * liste_arcs) : gmap Z Z * gmap Z Z * bool :=
  if Z.ltb (lire e.1.1 kv.1) INT_MAX then
    fold_left (bellman_relacher kv.1) kv.2 e
  else e.

(** Lines 341-356; [n] is the number of values of [i] left below
    [nbSommets]. *)
Fixpoint bellman_boucle (n : nat) (arcs : list (Z * liste_arcs))
    (e : gmap Z Z * gmap Z Z * bool) : gmap Z Z * gmap Z Z * bool :=
  match n with
  | O => e
  | S n' =>
      if e.2 then
        bellman_boucle n' arcs (fold_left bellman_sommet arcs (e.1, false))
      else e
  end.

(** Lines 334-340. *)
Definition bellman_init (g : Reseau) (numOrigine : Z)
  : gmap Z Z * gmap Z Z * bool :=
  let dp :=
    fold_left
      (λ (dp : gmap Z Z * gmap Z Z) (kv : Z * liste_arcs),
         (<[kv.1 := INT_MAX]> dp.1, <[kv.1 := -1]> dp.2))
      (m_arcs g) (∅, ∅) in
  (<[numOrigine := 0]> dp.1, dp.2, true).

Definition bellmanFord (fuel : nat) (g : Reseau) (numOrigine numDest : Z)
  : issue (Z * list Z) * Reseau :=
  if negb (sommetExiste g numOrigine) || negb (sommetExiste g numDest) then
    (Leve (logic_error "bellmanFord: Un des sommets n'existe pas!"), g)
  else
    let e :=
      bellman_boucle (Z.to_nat (nbSommets g - 1)) (m_arcs g)
        (bellman_init g numOrigine) in
    (reconstruire fuel e.1.1 e.1.2 numDest, g).

(** ** PairingH, the priority heap of [meilleurPlusCourtChemin] *)

(** PairingH.h (the class [PairingH] and its node type [Noeud], with
    [ajouterNoeud], [getRacine], [supprimerRacine] and [diminuerDistance]) is
    not among the sources.  The heap follows section 4.2 of the
    specification: a multiway min-ordered tree, kept here in first-child /
    next-sibling form.  Where the specification leaves the choice open, two
    roots of equal key are melded under the one that was the root before.
    [reseau.cpp] creates one node per vertex, so a node pointer ([Noeud *])
    is identified by the vertex the node carries. *)
Module PairingH.

(** Modelled from the spec: the node type [Noeud] of PairingH.h, with the
    fields [distance] and [m_sommet] that reseau.cpp reads and the
    structural links of section 3 (first child, next sibling). *)
Inductive arbre : Type :=
  | Nul
  | Noeud (distance m_sommet : Z) (enfant frere : arbre).

(** The heap is its root (a node without sibling), [Nul] when empty. *)
Abbreviation t := arbre (only parsing).

Definition vide : t := Nul.

(** Modelled from the spec: the meld of section 4.2, missing with
    PairingH.h.  The root of smaller key becomes the root, the other its
    first child. *)
Definition fusionner (a b : arbre) : arbre :=
  match a, b with
  | Nul, _ => b
  | _, Nul => a
  | Noeud da sa ea _, Noeud db sb eb _ =>
      if Z.ltb db da then Noeud db sb (Noeud da sa ea eb) Nul
      else Noeud da sa (Noeud db sb eb ea) Nul
  end.

(** Modelled from the spec: [PairingH::ajouterNoeud] (insert of section
    4.2): a singleton node is melded with the root.  The handle returned
    is the vertex. *)
Definition ajouterNoeud (distance m_sommet : Z) (h : t) : t :=
  fusionner h (Noeud distance m_sommet Nul Nul).

(** Modelled from the spec: [PairingH::getRacine] (find-minimum of section
    4.2): (distance, m_sommet) of the root, EmptyHeap on an empty heap. *)
Definition getRacine (h : t) : issue (Z * Z) :=
  match h with
  | Nul => Leve EmptyHeap
  | Noeud d s _ _ => Retour (d, s)
  end.

(** Modelled from the spec: the two-pass meld of section 4.2 on the list
    of children of the removed root: pairs are melded from left to right,
    the results from right to left. *)
Fixpoint deux_passes (l : arbre) : arbre :=
  match l with
  | Nul => Nul
  | Noeud d1 s1 e1 Nul => Noeud d1 s1 e1 Nul
  | Noeud d1 s1 e1 (Noeud d2 s2 e2 reste) =>
      fusionner (fusionner (Noeud d1 s1 e1 Nul) (Noeud d2 s2 e2 Nul))
                (deux_passes reste)
  end.

(** Modelled from the spec: [PairingH::supprimerRacine] (delete-minimum of
    section 4.2), EmptyHeap on an empty heap. *)
Definition supprimerRacine (h : t) : issue t :=
  match h with
  | Nul => Leve EmptyHeap
  | Noeud _ _ e _ => Retour (deux_passes e)
  end.

(** [p->distance] for the node carrying [s]; [None] when no such node is
    in the heap any more. *)
Fixpoint cle (s : Z) (a : arbre) : option Z :=
  match a with
  | Nul => None
  | Noeud d s' e f =>
      if Z.eqb s s' then Some d
      else match cle s e with
           | Some k => Some k
           | None => cle s f
           end
  end.

(** The subtree rooted at the node carrying [s], cut from its parent, and
    what is left. *)
Fixpoint detacher (s : Z) (a : arbre) : option (arbre * arbre) :=
  match a with
  | Nul => None
  | Noeud d s' e f =>
      if Z.eqb s s' then Some (Noeud d s' e Nul, f)
      else match detacher s e with
           | Some (sous, e') => Some (sous, Noeud d s' e' f)
           | None =>
               match detacher s f with
               | Some (sous, f') => Some (sous, Noeud d s' e f')
               | None => None
               end
           end
  end.

(** Modelled from the spec: [PairingH::diminuerDistance] (decrease-key of
    section 4.2) on the node carrying [s]: the root is lowered in place;
    another node is cut with its subtree, lowered, and melded with the
    root.  InvalidHandle when the new key exceeds the current one or when
    the node is no longer in the heap. *)
Definition diminuerDistance (s : Z) (nouvelle : Z) (h : t) : issue t :=
  match h with
  | Nul => Leve InvalidHandle
  | Noeud d s' e f =>
      if Z.eqb s s' then
        if Z.ltb d nouvelle then Leve InvalidHandle
        else Retour (Noeud nouvelle s' e f)
      else
        match detacher s e with
        | None => Leve InvalidHandle
        | Some (Nul, _) => Leve InvalidHandle
        | Some (Noeud ds ss es _, e') =>
            if Z.ltb ds nouvelle then Leve InvalidHandle
            else Retour (fusionner (Noeud d s' e' f) (Noeud nouvelle ss es Nul))
        end
  end.

(** The (distance, vertex) pairs held by a tree. *)
Fixpoint contenu (a : arbre) : list (Z * Z) :=
  match a with
  | Nul => []
  | Noeud d s e f => (d, s) :: contenu e ++ contenu f
  end.

End PairingH.

(** ** meilleurPlusCourtChemin (lines 248-315) *)

(** An entry of [sommets]: the node pointer ([None] for [nullptr]) and the
    predecessor.  [sommets[k]] on a missing key reads as (nullptr, 0). *)
Definition lire_sommet (t : gmap Z (option Z * Z)) (k : Z) : option Z * Z :=
  default (None, 0) (t !! k).

Record etat_mpcc : Type := mkMpcc {
  mp_heap : PairingH.t;
  mp_sommets : gmap Z (option Z * Z);
  mp_arcs : list (Z * liste_arcs);
  mp_longueur : Z
}.

(** Lines 263-268. *)
Definition mpcc_init (g : Reseau) (numOrigine : Z) : issue etat_mpcc :=
  let hs :=
    fold_left
      (λ (hs : PairingH.t * gmap Z (option Z * Z)) (kv : Z * liste_arcs),
         (PairingH.ajouterNoeud 9999 kv.1 hs.1,
          <[kv.1 := (Some kv.1, 9999)]> hs.2))
      (m_arcs g) (PairingH.vide, ∅) in
  match (lire_sommet hs.2 numOrigine).1 with
  | None => Indefini
  | Some p =>
      h ← PairingH.diminuerDistance p 0 hs.1;
      Retour (mkMpcc h hs.2 (m_arcs g) 0)
  end.

(** Lines 279-286, for one [u] adjacent to [u_etoile].  The behaviour is
    undefined when a node pointer that is read through ([->distance],
    [->m_sommet]) is null or points to a node that has left the heap. *)
Definition mpcc_relacher (dist_u_etoile u_etoile_sommet : Z)
    (r : issue (PairingH.t * gmap Z (option Z * Z))) (u : Z * (Z * Z))
  : issue (PairingH.t * gmap Z (option Z * Z)) :=
  hs ← r;
  match (lire_sommet hs.2 u.1).1 with
  | None => Retour hs
  | Some p =>
      let dist_temp := vers_unsigned (dist_u_etoile + u.2.1) in
      match PairingH.cle p hs.1 with
      | None => Indefini
      | Some dist_u =>
          if Z.ltb dist_temp dist_u then
            h ← PairingH.diminuerDistance p dist_temp hs.1;
            match (lire_sommet hs.2 u_etoile_sommet).1 with
            | None => Indefini
            | Some p_etoile =>
                match PairingH.cle p_etoile h with
                | None => Indefini
                | Some _ =>
                    Retour (h, <[u.1 := ((lire_sommet hs.2 u.1).1, p_etoile)]> hs.2)
                end
            end
          else Retour hs
      end
  end.

(** Lines 271-294; [n] iterations remain.  [u_etoile] is the pointer to the
    root, read through at lines 275-276 and again at lines 288-292, after
    the relaxations. *)
Fixpoint mpcc_boucle (n : nat) (numDest : Z) (e : etat_mpcc)
  : issue etat_mpcc * list (Z * liste_arcs) :=
  match n with
  | O => (Retour e, mp_arcs e)
  | S n' =>
      match PairingH.getRacine (mp_heap e) with
      | Retour (dist_u_etoile, u_etoile_sommet) =>
          let '(voisins, arcs) := crochet [] u_etoile_sommet (mp_arcs e) in
          match fold_left (mpcc_relacher dist_u_etoile u_etoile_sommet)
                  voisins (Retour (mp_heap e, mp_sommets e)) with
          | Retour (h, s) =>
              match PairingH.cle u_etoile_sommet h with
              | None => (Indefini, arcs)
              | Some d =>
                  let fini := Z.eqb u_etoile_sommet numDest in
                  let longueur := if fini then d else mp_longueur e in
                  let s' :=
                    <[u_etoile_sommet :=
                        (None, (lire_sommet s u_etoile_sommet).2)]> s in
                  match PairingH.supprimerRacine h with
                  | Retour h' =>
                      if fini then (Retour (mkMpcc h' s' arcs longueur), arcs)
                      else mpcc_boucle n' numDest (mkMpcc h' s' arcs longueur)
                  | Leve x => (Leve x, arcs)
                  | Indefini => (Indefini, arcs)
                  | Epuise => (Epuise, arcs)
                  end
              end
          | Leve x => (Leve x, arcs)
          | Indefini => (Indefini, arcs)
          | Epuise => (Epuise, arcs)
          end
      | Leve x => (Leve x, mp_arcs e)
      | Indefini => (Indefini, mp_arcs e)
      | Epuise => (Epuise, mp_arcs e)
      end
  end.

(** Lines 304-307: the walk from [numDest] to [numOrigine]; [None] when the
    fuel is spent before the origin is met. *)
Fixpoint mpcc_remonter (fuel : nat) (sommets : gmap Z (option Z * Z))
    (numOrigine courant : Z) (chemin_inverse : list Z) : option (list Z) :=
  if Z.eqb courant numOrigine then Some chemin_inverse
  else
    match fuel with
    | O => None
    | S fuel' =>
        mpcc_remonter fuel' sommets numOrigine (lire_sommet sommets courant).2
          (chemin_inverse ++ [courant])
    end.

(** Lines 296-314. *)
Definition mpcc_reconstruire (fuel : nat) (e : etat_mpcc)
    (numOrigine numDest : Z) : issue (Z * list Z) :=
  if Z.eqb (lire_sommet (mp_sommets e) numDest).2 0 then
    Retour (vers_int (mp_longueur e), [])
  else
    match mpcc_remonter fuel (mp_sommets e) numOrigine numDest [] with
    | Some chemin_inverse =>
        Retour (vers_int (mp_longueur e), numOrigine :: chemin_inverse)
    | None => Epuise
    end.

(** Lines 263-294: the heap is built and the main loop is run. *)
Definition mpcc_parcours (g : Reseau) (numOrigine numDest : Z)
  : issue etat_mpcc * list (Z * liste_arcs) :=
  match mpcc_init g numOrigine with
  | Retour e0 => mpcc_boucle (length (m_arcs g)) numDest e0
  | Leve x => (Leve x, m_arcs g)
  | Indefini => (Indefini, m_arcs g)
  | Epuise => (Epuise, m_arcs g)
  end.

(** The message written on [std::cout] at line 298 is not modelled. *)
Definition meilleurPlusCourtChemin (fuel : nat) (g : Reseau)
    (numOrigine numDest : Z) : issue (Z * list Z) * Reseau :=
  if negb (sommetExiste g numOrigine) || negb (sommetExiste g numDest) then
    (Leve (logic_error "dijkstra: Un des sommets n'existe pas!"), g)
  else
    let '(r, arcs) := mpcc_parcours g numOrigine numDest in
    (e ← r; mpcc_reconstruire fuel e numOrigine numDest,
     mkReseau (nbSommets g) (nbArcs g) arcs).

(** ** Networks built through the interface *)

(** [ajouterSommet] on each vertex, then [ajouterArc] on each
    (origin, destination, cout, type). *)
Definition construire (sommets : list Z) (arcs : list (Z * Z * Z * Z))
  : issue Reseau :=
  g ← foldl (λ (r : issue Reseau) s, g ← r; ajouterSommet g s)
        (Retour vide) sommets;
  foldl (λ (r : issue Reseau) a,
           g ← r; ajouterArc g a.1.1.1 a.1.1.2 a.1.2 a.2)
    (Retour g) arcs.

(** Vertices 1..4 with arcs 1->2 (1), 2->3 (2), 1->3 (5), 3->4 (1). *)
Definition reseau_exemple : Reseau :=
  mkReseau 4 4
    [(1, [(2, (1, 0)); (3, (5, 0))]); (2, [(3, (2, 0))]);
     (3, [(4, (1, 0))]); (4, [])].

(** Vertices 1 and 5, no arc. *)
Definition reseau_isole : Reseau := mkReseau 2 0 [(1, []); (5, [])].

(** Vertices 0 and 5, no arc. *)
Definition reseau_isole_zero : Reseau := mkReseau 2 0 [(0, []); (5, [])].

(** Vertices 0 and 2 with the arc 0->2 of cost 20000. *)
Definition reseau_long : Reseau :=
  mkReseau 2 1 [(0, [(2, (20000, 0))]); (2, [])].

(** Vertices 1 and 2 with the arc 1->2. *)
Definition reseau_paire : Reseau := mkReseau 2 1 [(1, [(2, (7, 0))]); (2, [])].

(** Vertices 1, 5 and 6 with the arcs 5->6 and 6->5 of cost 1. *)
Definition reseau_cycle : Reseau :=
  mkReseau 3 2 [(1, []); (5, [(6, (1, 0))]); (6, [(5, (1, 0))])].

(** The cost -10 given to an [unsigned int] parameter. *)
Definition moins_dix : Z := vers_unsigned (-10).

(** Vertices 1..4 with arcs 1->2 (1), 1->3 (5), 3->4 (1) and the arc
    2->3 of cost -10. *)
Definition reseau_negatif : Reseau :=
  mkReseau 4 4
    [(1, [(2, (1, 0)); (3, (5, 0))]); (2, [(3, (moins_dix, 0))]);
     (3, [(4, (1, 0))]); (4, [])].

(** Vertices 1..4 with arcs 1->2 (20), 1->3 (15), 3->4 (1) and the arc
    2->3 of cost -10. *)
Definition reseau_negatif_utile : Reseau :=
  mkReseau 4 4
    [(1, [(2, (20, 0)); (3, (15, 0))]); (2, [(3, (moins_dix, 0))]);
     (3, [(4, (1, 0))]); (4, [])].

(** The cost of a sequence of vertices read as a path, costs taken as
    [int]; [None] when an arc is missing. *)
Fixpoint cout_chemin (g : Reseau) (chemin : list Z) : option Z :=
  match chemin with
  | [] => Some 0
  | a :: reste =>
      match reste with
      | [] => Some 0
      | b :: _ =>
          c ← trouver a (m_arcs g) ≫= trouver b;
          r ← cout_chemin g reste;
          Some (vers_int c.1 + r)
      end
  end.

(** ** Predicates used in the statements *)

(** The call ends with a [std::logic_error]. *)
Definition leve_logic_error {A} (r : issue A) : Prop :=
  ∃ what, r = Leve (logic_error what).

(** Every entry of a table of distances lies in [0, INT_MAX]. *)
Definition distances_bornees (distances : gmap Z Z) : Prop :=
  ∀ k, 0 <= lire distances k <= INT_MAX.

(** A heap node fit for [meilleurPlusCourtChemin]: its key lies in
    [0, 9999] and its vertex is a key of [arcs]. *)
Definition noeud_valide (arcs : list (Z * liste_arcs)) (dv : Z * Z) : Prop :=
  0 <= dv.1 <= 9999 ∧ is_Some (trouver dv.2 arcs).

Definition tas_valide (arcs : list (Z * liste_arcs)) (h : PairingH.t) : Prop :=
  Forall (noeud_valide arcs) (PairingH.contenu h).

(** A property of the value a call returns, when it returns. *)
Definition issue_tous {A} (Q : A → Prop) (r : issue A) : Prop :=
  match r with
  | Retour a => Q a
  | _ => True
  end.

(** A heap is held by its root, which has no sibling. *)
Definition est_racine (h : PairingH.t) : Prop :=
  match h with
  | PairingH.Nul => True
  | PairingH.Noeud _ _ _ f => f = PairingH.Nul
  end.

(** The state of [meilleurPlusCourtChemin] while the origin [v] is the
    root with key 0: [v] still has its node and the predecessor 9999, and
    every node pointer of [sommets] points to the node of its own key, which
    is in the heap. *)
Definition etat_origine (v : Z) (h : PairingH.t)
    (sommets : gmap Z (option Z * Z)) : Prop :=
  (∃ e, h = PairingH.Noeud 0 v e PairingH.Nul) ∧
  lire_sommet sommets v = (Some v, 9999) ∧
  (∀ k p, (lire_sommet sommets k).1 = Some p →
          p = k ∧ k ∈ (PairingH.contenu h).*2).

(** No adjacency table of [arcs] has an entry for [d]: no arc arrives
    at [d]. *)
Definition sans_arc_entrant (arcs : list (Z * liste_arcs)) (d : Z) : Prop :=
  ∀ o l, (o, l) ∈ arcs → trouver d l = None.

(** The entries of [sommets] on which the walk of lines 304-307 depends
    when the destination [d] was never given a predecessor: [d] still has
    the initial 9999, and the keys 9999 and 0 read as the default entry. *)
Definition sentinelle_gardee (d : Z) (sommets : gmap Z (option Z * Z)) : Prop :=
  (lire_sommet sommets d).2 = 9999 ∧
  lire_sommet sommets 9999 = (None, 0) ∧
  lire_sommet sommets 0 = (None, 0).

(** ** Enumeration orders *)

(** [g'] is [g] with its hash containers enumerated in another order: the
    adjacency table of every vertex holds the same entries, and [m_arcs]
    holds the same vertices. *)
Definition reordonne (g g' : Reseau) : Prop :=
  nbSommets g' = nbSommets g ∧ nbArcs g' = nbArcs g ∧
  ∃ m, Forall2 (λ kv kv' : Z * liste_arcs, kv'.1 = kv.1 ∧ kv.2 ≡ₚ kv'.2)
         (m_arcs g) m ∧
       m ≡ₚ m_arcs g'.

(** Every way of reordering the adjacency tables of [m]. *)
Fixpoint variantes (m : list (Z * liste_arcs)) : list (list (Z * liste_arcs)) :=
  match m with
  | [] => [[]]
  | kv :: m' =>
      l ← permutations kv.2; r ← variantes m'; [(kv.1, l) :: r]
  end.

(** Every reordering of [g]. *)
Definition ordres (g : Reseau) : list Reseau :=
  m ← variantes (m_arcs g);
  m' ← permutations m;
  [mkReseau (nbSommets g) (nbArcs g) m'].

(** ** Stored arcs and well-formed networks *)

(** The (cout, type) stored for the arc from [o] to [d], if any. *)
Definition arc_stocke (g : Reseau) (o d : Z) : option (Z * Z) :=
  trouver o (m_arcs g) ≫= trouver d.

(** The three queries on the pair ([o], [d]) answer the same on [g] and
    on [g']. *)
Definition memes_reponses (g g' : Reseau) (o d : Z) : Prop :=
  arcExiste g' o d = arcExiste g o d ∧
  getCoutArc g' o d = getCoutArc g o d ∧
  getTypeArc g' o d = getTypeArc g o d.

(** A value of type [unsigned int]. *)
Definition est_unsigned (z : Z) : Prop := 0 <= z < 4294967296.

(** The tables are maps: no key occurs twice in [m_arcs] nor in an
    adjacency table. *)
Definition cles_uniques (g : Reseau) : Prop :=
  NoDup (m_arcs g).*1 ∧
  Forall (λ kv : Z * liste_arcs, NoDup kv.2.*1) (m_arcs g).

(** Every arc arrives at a vertex of the network. *)
Definition arcs_fermes (g : Reseau) : Prop :=
  ∀ o l d a, (o, l) ∈ m_arcs g → (d, a) ∈ l → sommetExiste g d = true.

Definition bien_forme (g : Reseau) : Prop :=
  nbSommets g = Z.of_nat (length (m_arcs g)) ∧
  Forall est_unsigned (m_arcs g).*1 ∧
  cles_uniques g ∧ arcs_fermes g.

(** The networks that the interface builds from the empty one; the
    arguments are [unsigned int]. *)
Inductive accessible : Reseau → Prop :=
  | acc_vide : accessible vide
  | acc_ajouterSommet g v g' :
      accessible g → est_unsigned v →
      ajouterSommet g v = Retour g' → accessible g'
  | acc_ajouterArc g o d c t g' :
      accessible g → est_unsigned c → est_unsigned t →
      ajouterArc g o d c t = Retour g' → accessible g'
  | acc_enleverSommet g v g' :
      accessible g → enleverSommet g v = Retour g' → accessible g'
  | acc_enleverArc g o d g' :
      accessible g → enleverArc g o d = Retour g' → accessible g'
  | acc_majCoutArc g o d c g' :
      accessible g → est_unsigned c →
      majCoutArc g o d c = Retour g' → accessible g'.

(** [arcs_fermes], computed. *)
Definition arcs_fermes_b (g : Reseau) : bool :=
  forallb (λ kv : Z * liste_arcs,
             forallb (λ da : Z * (Z * Z), sommetExiste g da.1) kv.2)
    (m_arcs g).

(** ** Predecessor tables *)

(** Along [E], the vertices in the order in which they left [Q], the latest
    first, the predecessor of a vertex is -1 or a vertex that left [Q]
    before it. *)
Definition chaine_predecesseurs (pred : gmap Z Z) (E : list Z) : Prop :=
  ∀ l1 v l2, E = l1 ++ v :: l2 →
    lire pred v = -1 ∨ ∃ u, lire pred v = vers_int u ∧ u ∈ l2.

(** The predecessor of [v] is -1 or a vertex with a stored arc to [v]. *)
Definition predecesseur_arc (arcs : list (Z * liste_arcs)) (pred : gmap Z Z)
    (v : Z) : Prop :=
  lire pred v = -1 ∨
  ∃ u, lire pred v = vers_int u ∧ is_Some (trouver u arcs ≫= trouver v).

(** The distance and the predecessor of [v] agree on whether [v] was
    reached: no predecessor and distance INT_MAX, or a predecessor and a
    smaller distance. *)
Definition sentinelle_coherente (dist pred : gmap Z Z) (v : Z) : Prop :=
  (lire pred v = -1 ∧ lire dist v = INT_MAX) ∨
  (lire pred v ≠ -1 ∧ lire dist v < INT_MAX).

(** Every stored cost is an [unsigned int]. *)
Definition couts_unsigned (g : Reseau) : Prop :=
  Forall (λ kv : Z * liste_arcs,
            Forall (λ da : Z * (Z * Z), est_unsigned da.2.1) kv.2) (m_arcs g).

(** Every stored cost lies in [1, INT_MAX]. *)
Definition couts_positifs (g : Reseau) : Prop :=
  Forall (λ kv : Z * liste_arcs,
            Forall (λ da : Z * (Z * Z), 1 <= da.2.1 <= INT_MAX) kv.2)
    (m_arcs g).

(** In [bellmanFord], the tables at a vertex [v]: no predecessor, with [v]
    the origin or at distance INT_MAX; or a predecessor [u] with a stored
    arc to [v], both at a distance below INT_MAX, that of [v] at least that
    of [u] plus the cost of the arc read as an [int]. *)
Definition predecesseur_cout (arcs : list (Z * liste_arcs)) (o : Z)
    (dist pred : gmap Z Z) (v : Z) : Prop :=
  (lire pred v = -1 ∧ (v = o ∨ lire dist v = INT_MAX)) ∨
  (∃ u voisins a,
     lire pred v = vers_int u ∧ (u, voisins) ∈ arcs ∧ (v, a) ∈ voisins ∧
     lire dist u < INT_MAX ∧ lire dist v < INT_MAX ∧
     lire dist u + vers_int a.1 <= lire dist v).

(** Every stored cost lies in [0, INT_MAX]. *)
Definition couts_non_negatifs (g : Reseau) : Prop :=
  Forall (λ kv : Z * liste_arcs,
            Forall (λ da : Z * (Z * Z), 0 <= da.2.1 <= INT_MAX) kv.2)
    (m_arcs g).

(** No relaxation is left to apply: along every stored arc whose origin is
    below INT_MAX, the destination is at most at the distance of the origin
    plus the cost. *)
Definition relaxe (arcs : list (Z * liste_arcs)) (dist : gmap Z Z) : Prop :=
  ∀ u voisins v a,
    (u, voisins) ∈ arcs → (v, a) ∈ voisins →
    lire dist u < INT_MAX → a.1 + lire dist u <= INT_MAX →
    lire dist v <= a.1 + lire dist u.

(** The state of the loop of [dijkstra] when the vertices of [E] have left
    [Q]: every vertex is in [E] or in [Q], a vertex of [E] is at most at the
    cost of every path from the origin [o] to it, and a vertex that waits
    in [Q] is at most at the distance of each vertex of [E] with an arc to
    it, plus the cost of that arc. *)
Definition invariant_dijkstra (g : Reseau) (o : Z) (E : list Z)
    (e : etat_dijkstra) : Prop :=
  dj_arcs e = m_arcs g ∧
  (∀ x, x ∈ dj_Q e → is_Some (trouver x (m_arcs g))) ∧
  (∀ k, is_Some (trouver k (m_arcs g)) → k ∈ E ∨ k ∈ dj_Q e) ∧
  (∀ u, u ∈ E → u ∉ dj_Q e) ∧
  (∀ v, -2147483648 <= lire (dj_distances e) v <= INT_MAX) ∧
  lire (dj_distances e) o <= 0 ∧
  (∀ u q c, u ∈ E → head q = Some o → last q = Some u →
            cout_chemin g q = Some c → lire (dj_distances e) u <= c) ∧
  (∀ u voisins v a,
     u ∈ E → trouver u (m_arcs g) = Some voisins → (v, a) ∈ voisins →
     v ∈ dj_Q e →
     lire (dj_distances e) v <= lire (dj_distances e) u + a.1).

(** Adding any stored cost to [c] stays within INT_MAX. *)
Definition sans_debordement (g : Reseau) (c : Z) : Prop :=
  Forall (λ kv : Z * liste_arcs,
            Forall (λ da : Z * (Z * Z), c + da.2.1 <= INT_MAX) kv.2)
    (m_arcs g).

(** The tables of [dijkstra] while no sum of line 216 has gone over
    INT_MAX: the origin is at 0, no distance is negative, the vertices of
    [E] are at most at [B], and a vertex has no predecessor, being the
    origin or at INT_MAX, or has a predecessor in [E] with a stored arc to
    it, at a distance below INT_MAX that is at least that of the
    predecessor plus the cost of the arc. *)
Definition predecesseurs_dijkstra (g : Reseau) (o B : Z) (E : list Z)
    (e : etat_dijkstra) : Prop :=
  lire (dj_distances e) o = 0 ∧
  (∀ v, 0 <= lire (dj_distances e) v) ∧
  (∀ u, u ∈ E → lire (dj_distances e) u <= B) ∧
  ∀ v, is_Some (trouver v (m_arcs g)) →
    (lire (dj_predecesseurs e) v = -1 ∧
     (v = o ∨ lire (dj_distances e) v = INT_MAX)) ∨
    (∃ u voisins a,
       lire (dj_predecesseurs e) v = vers_int u ∧ u ∈ E ∧
       (u, voisins) ∈ m_arcs g ∧ (v, a) ∈ voisins ∧
       lire (dj_distances e) u + a.1 <= lire (dj_distances e) v ∧
       lire (dj_distances e) v < INT_MAX).

(** ** The examples are states of the interface *)

Lemma reseau_exemple_construit :
  construire [1; 2; 3; 4] [(1, 2, 1, 0); (2, 3, 2, 0); (1, 3, 5, 0); (3, 4, 1, 0)]
  = Retour reseau_exemple.
Proof. reflexivity. Qed.

Lemma reseau_isole_construit : construire [1; 5] [] = Retour reseau_isole.
Proof. reflexivity. Qed.

Lemma reseau_isole_zero_construit :
  construire [0; 5] [] = Retour reseau_isole_zero.
Proof. reflexivity. Qed.

Lemma reseau_long_construit :
  construire [0; 2] [(0, 2, 20000, 0)] = Retour reseau_long.
Proof. reflexivity. Qed.

Lemma reseau_cycle_construit :
  construire [1; 5; 6] [(5, 6, 1, 0); (6, 5, 1, 0)] = Retour reseau_cycle.
Proof. reflexivity. Qed.

(** ** Keys of a table *)

Lemma trouver_present {V} (k : Z) (v : V) (t : list (Z * V)) :
  (k, v) ∈ t → is_Some (trouver k t).
Proof.
  induction t as [|[k' v'] t IH]; [by intros ?%elem_of_nil |].
  intros [[= <- <-] | H]%elem_of_cons; cbn [trouver].
  - by rewrite Z.eqb_refl.
  - destruct (Z.eqb k k'); [done | by apply IH].
Qed.

Lemma crochet_present {V} (d : V) (k : Z) (t : list (Z * V)) :
  is_Some (trouver k t) → (crochet d k t).2 = t.
Proof. intros [v Hv]. unfold crochet. by rewrite Hv. Qed.

Lemma trouver_cles {V} (k : Z) (t : list (Z * V)) :
  is_Some (trouver k t) ↔ k ∈ t.*1.
Proof.
  induction t as [|[k' v'] t IH]; cbn [trouver fmap list_fmap fst].
  - split; [by intros [? ?] | by intros ?%elem_of_nil].
  - rewrite elem_of_cons. destruct (Z.eqb_spec k k') as [-> |].
    + split; [by left | by eexists].
    + rewrite IH. split; [by right | by intros [? | ?]].
Qed.

Lemma sommetExiste_cles g numero :
  sommetExiste g numero = true ↔ numero ∈ (m_arcs g).*1.
Proof.
  rewrite <- trouver_cles. unfold sommetExiste, compte.
  destruct (trouver numero (m_arcs g)); split; try done.
Qed.

Lemma sommetExiste_trouver g k :
  sommetExiste g k = true ↔ is_Some (trouver k (m_arcs g)).
Proof.
  unfold sommetExiste, compte.
  destruct (trouver k (m_arcs g)); split; try done.
Qed.

(** ** Every reordering is enumerated *)

Lemma variantes_complet m m' :
  Forall2 (λ kv kv' : Z * liste_arcs, kv'.1 = kv.1 ∧ kv.2 ≡ₚ kv'.2) m m' →
  m' ∈ variantes m.
Proof.
  induction 1 as [|kv kv' m m' [Hk Hp] _ IH]; cbn [variantes].
  - apply list_elem_of_here.
  - apply list_elem_of_bind. exists kv'.2. split.
    + apply list_elem_of_bind. exists m'. split; [| done].
      apply list_elem_of_ret. destruct kv'. cbn in *. by subst.
    + by apply permutations_Permutation.
Qed.

Lemma ordres_complet g g' : reordonne g g' → g' ∈ ordres g.
Proof.
  intros (Hn & Ha & m & Hm & Hp). unfold ordres.
  apply list_elem_of_bind. exists m. split; [| by apply variantes_complet].
  apply list_elem_of_bind. exists (m_arcs g'). split.
  - apply list_elem_of_ret. destruct g'. cbn in *. by subst.
  - by apply permutations_Permutation.
Qed.

Lemma reordonne_refl g : reordonne g g.
Proof.
  split_and!; try done. exists (m_arcs g). split; [| done].
  apply Forall2_same_length_lookup. split; [done |].
  intros i kv kv' H1 H2. rewrite H1 in H2. by injection H2 as <-.
Qed.

(** What holds of every enumerated reordering holds of every reordering. *)
Lemma par_ordres (P : Reseau → Prop) g :
  Forall P (ordres g) → ∀ g', reordonne g g' → P g'.
Proof.
  intros H g' Hg. eapply Forall_forall; [exact H |]. by apply ordres_complet.
Qed.

(** The enumeration is computed, then each network is examined. *)
Ltac pour_chaque_ordre tac :=
  lazymatch goal with
  | |- ∀ g', reordonne ?g g' → @?P g' => apply (par_ordres P g)
  end;
  lazymatch goal with
  | |- Forall _ ?l =>
      let l' := eval vm_compute in l in
      assert (l = l') as -> by (vm_compute; reflexivity);
      repeat (apply Forall_cons; split; [tac |]);
      constructor
  end.

Lemma reseau_paire_construit :
  construire [1; 2] [(1, 2, 7, 0)] = Retour reseau_paire.
Proof. reflexivity. Qed.

Lemma reseau_negatif_construit :
  construire [1; 2; 3; 4]
    [(1, 2, 1, 0); (2, 3, moins_dix, 0); (1, 3, 5, 0); (3, 4, 1, 0)]
  = Retour reseau_negatif.
Proof. reflexivity. Qed.

Lemma reseau_negatif_utile_construit :
  construire [1; 2; 3; 4]
    [(1, 2, 20, 0); (2, 3, moins_dix, 0); (1, 3, 15, 0); (3, 4, 1, 0)]
  = Retour reseau_negatif_utile.
Proof. reflexivity. Qed.

(** ** The walk of [meilleurPlusCourtChemin] that never ends *)

Lemma mpcc_remonter_eq fuel sommets numOrigine courant chemin_inverse :
  mpcc_remonter fuel sommets numOrigine courant chemin_inverse =
  if Z.eqb courant numOrigine then Some chemin_inverse
  else
    match fuel with
    | O => None
    | S fuel' =>
        mpcc_remonter fuel' sommets numOrigine (lire_sommet sommets courant).2
          (chemin_inverse ++ [courant])
    end.
Proof. destruct fuel; reflexivity. Qed.

(** Once the walk stands on vertex 0, and 0 has predecessor 0 (the default
    entry), it stays there: it cannot reach another origin. *)
Lemma mpcc_remonter_zero fuel sommets numOrigine chemin_inverse :
  numOrigine ≠ 0 →
  (lire_sommet sommets 0).2 = 0 →
  mpcc_remonter fuel sommets numOrigine 0 chemin_inverse = None.
Proof.
  intros Ho H0. revert chemin_inverse.
  induction fuel as [|fuel IH]; intros l; rewrite mpcc_remonter_eq;
    destruct (Z.eqb_spec 0 numOrigine); congruence.
Qed.

(** A destination whose predecessor is still the initial 9999, in a table
    where the keys 9999 and 0 read as the default entry: the walk goes to
    9999, then to 0, and stays there. *)
Lemma mpcc_remonter_sentinelle fuel sommets numOrigine numDest :
  numOrigine ≠ 0 → numOrigine ≠ 9999 → numOrigine ≠ numDest →
  (lire_sommet sommets numDest).2 = 9999 →
  (lire_sommet sommets 9999).2 = 0 →
  (lire_sommet sommets 0).2 = 0 →
  mpcc_remonter fuel sommets numOrigine numDest [] = None.
Proof.
  intros H0 H9 Hd Hp Hs9 Hs0.
  rewrite mpcc_remonter_eq.
  destruct (Z.eqb_spec numDest numOrigine); [congruence |].
  destruct fuel as [|fuel]; [done |].
  rewrite Hp, mpcc_remonter_eq.
  destruct (Z.eqb_spec 9999 numOrigine); [congruence |].
  destruct fuel as [|fuel]; [done |].
  rewrite Hs9. by apply mpcc_remonter_zero.
Qed.

Lemma mpcc_reconstruire_sentinelle fuel e numOrigine numDest :
  numOrigine ≠ 0 → numOrigine ≠ 9999 → numOrigine ≠ numDest →
  (lire_sommet (mp_sommets e) numDest).2 = 9999 →
  (lire_sommet (mp_sommets e) 9999).2 = 0 →
  (lire_sommet (mp_sommets e) 0).2 = 0 →
  mpcc_reconstruire fuel e numOrigine numDest = Epuise.
Proof.
  intros H0 H9 Hd Hs Hs9 Hs0. unfold mpcc_reconstruire.
  rewrite Hs. change (Z.eqb 9999 0) with false. cbv iota.
  by rewrite mpcc_remonter_sentinelle.
Qed.

(** The call does not return when the main loop leaves the destination with
    the predecessor 9999 and neither 9999 nor 0 has an entry in
    [sommets]. *)
Lemma mpcc_epuise_si g numOrigine numDest e arcs :
  negb (sommetExiste g numOrigine) || negb (sommetExiste g numDest) = false →
  mpcc_parcours g numOrigine numDest = (Retour e, arcs) →
  numOrigine ≠ 0 → numOrigine ≠ 9999 → numOrigine ≠ numDest →
  (lire_sommet (mp_sommets e) numDest).2 = 9999 →
  (lire_sommet (mp_sommets e) 9999).2 = 0 →
  (lire_sommet (mp_sommets e) 0).2 = 0 →
  ∀ fuel, (meilleurPlusCourtChemin fuel g numOrigine numDest).1 = Epuise.
Proof.
  intros Hex Hp H0 H9 Hd Hs Hs9 Hs0 fuel.
  unfold meilleurPlusCourtChemin. rewrite Hex, Hp.
  cbn [fst mbind issue_bind issue_lier].
  by apply mpcc_reconstruire_sentinelle.
Qed.

Lemma mpcc_isole_epuise g :
  reordonne reseau_isole g →
  ∀ fuel, (meilleurPlusCourtChemin fuel g 1 5).1 = Epuise.
Proof.
  revert g.
  pour_chaque_ordre
    ltac:(eapply mpcc_epuise_si;
          [vm_compute; reflexivity | vm_compute; reflexivity | done ..]).
Qed.

(** ** Fuel: a result obtained with some fuel is obtained with more *)

Lemma remonter_eq fuel predecesseurs courant chemin_inverse :
  remonter fuel predecesseurs courant chemin_inverse =
  if Z.eqb courant (-1) then Some chemin_inverse
  else
    match fuel with
    | O => None
    | S fuel' =>
        remonter fuel' predecesseurs
          (lire predecesseurs (vers_unsigned courant))
          (chemin_inverse ++ [vers_unsigned courant])
    end.
Proof. destruct fuel; reflexivity. Qed.

Lemma remonter_mono fuel fuel' predecesseurs courant chemin_inverse r :
  (fuel ≤ fuel')%nat →
  remonter fuel predecesseurs courant chemin_inverse = Some r →
  remonter fuel' predecesseurs courant chemin_inverse = Some r.
Proof.
  revert fuel' courant chemin_inverse.
  induction fuel as [|fuel IH]; intros fuel' c l Hle;
    rewrite (remonter_eq _ _ c), (remonter_eq fuel' _ c);
    destruct (Z.eqb c (-1)); try done.
  destruct fuel' as [|fuel']; [lia |].
  apply IH. lia.
Qed.

Lemma mpcc_remonter_mono fuel fuel' sommets numOrigine courant chemin_inverse r :
  (fuel ≤ fuel')%nat →
  mpcc_remonter fuel sommets numOrigine courant chemin_inverse = Some r →
  mpcc_remonter fuel' sommets numOrigine courant chemin_inverse = Some r.
Proof.
  revert fuel' courant chemin_inverse.
  induction fuel as [|fuel IH]; intros fuel' c l Hle;
    rewrite (mpcc_remonter_eq _ _ _ c), (mpcc_remonter_eq fuel' _ _ c);
    destruct (Z.eqb c numOrigine); try done.
  destruct fuel' as [|fuel']; [lia |].
  apply IH. lia.
Qed.

Lemma reconstruire_mono fuel fuel' distances predecesseurs numDest r :
  (fuel ≤ fuel')%nat →
  reconstruire fuel distances predecesseurs numDest = Retour r →
  reconstruire fuel' distances predecesseurs numDest = Retour r.
Proof.
  intros Hle. unfold reconstruire.
  destruct (negb _); [| done].
  destruct (remonter fuel _ _ _) as [l|] eqn:E; [| done].
  by rewrite (remonter_mono _ _ _ _ _ _ Hle E).
Qed.

Lemma mpcc_reconstruire_mono fuel fuel' e numOrigine numDest r :
  (fuel ≤ fuel')%nat →
  mpcc_reconstruire fuel e numOrigine numDest = Retour r →
  mpcc_reconstruire fuel' e numOrigine numDest = Retour r.
Proof.
  intros Hle. unfold mpcc_reconstruire.
  destruct (Z.eqb _ 0); [done |].
  destruct (mpcc_remonter fuel _ _ _ _) as [l|] eqn:E; [| done].
  by rewrite (mpcc_remonter_mono _ _ _ _ _ _ _ Hle E).
Qed.

Lemma dijkstra_mono fuel fuel' g numOrigine numDest r :
  (fuel ≤ fuel')%nat →
  (dijkstra fuel g numOrigine numDest).1 = Retour r →
  (dijkstra fuel' g numOrigine numDest).1 = Retour r.
Proof.
  intros Hle. unfold dijkstra.
  destruct (_ || _); [done |].
  destruct (dijkstra_boucle _ _ _) as [[] e]; [| done].
  cbn [fst]. by apply reconstruire_mono.
Qed.

Lemma bellmanFord_mono fuel fuel' g numOrigine numDest r :
  (fuel ≤ fuel')%nat →
  (bellmanFord fuel g numOrigine numDest).1 = Retour r →
  (bellmanFord fuel' g numOrigine numDest).1 = Retour r.
Proof.
  intros Hle. unfold bellmanFord.
  destruct (_ || _); [done |].
  cbn [fst]. by apply reconstruire_mono.
Qed.

Lemma meilleurPlusCourtChemin_mono fuel fuel' g numOrigine numDest r :
  (fuel ≤ fuel')%nat →
  (meilleurPlusCourtChemin fuel g numOrigine numDest).1 = Retour r →
  (meilleurPlusCourtChemin fuel' g numOrigine numDest).1 = Retour r.
Proof.
  intros Hle. unfold meilleurPlusCourtChemin.
  destruct (_ || _); [done |].
  destruct (mpcc_parcours _ _ _) as [[e| | |] arcs]; try done.
  cbn [fst mbind issue_bind issue_lier]. by apply mpcc_reconstruire_mono.
Qed.

(** ** The documented scenarios *)

(** C5.  On the network with vertices 1..4 and arcs 1->2 (1), 2->3 (2),
    1->3 (5), 3->4 (1), in whatever order its containers are enumerated,
    [dijkstra] and [bellmanFord] return distance 4 and the path 1,2,3,4 for
    (1, 4); [meilleurPlusCourtChemin] returns distance 4 with the path
    1,4,3,2: after the origin its vertices come in the order of the walk
    from the destination, which lines 309-312 do not reverse. *)
Theorem scenario_chemin_1_4 (fuel : nat) (g : Reseau) :
  reordonne reseau_exemple g →
  (dijkstra (4 + fuel) g 1 4).1 = Retour (4, [1; 2; 3; 4]) ∧
  (bellmanFord (4 + fuel) g 1 4).1 = Retour (4, [1; 2; 3; 4]) ∧
  (meilleurPlusCourtChemin (4 + fuel) g 1 4).1 = Retour (4, [1; 4; 3; 2]).
Proof.
  revert g.
  pour_chaque_ordre
    ltac:(split_and!;
          [apply (dijkstra_mono 4) | apply (bellmanFord_mono 4)
          | apply (meilleurPlusCourtChemin_mono 4)];
          first [lia | vm_compute; reflexivity]).
Qed.

Lemma scenario_chemin_1_4_temoin :
  (dijkstra (4 + 0) reseau_exemple 1 4).1 = Retour (4, [1; 2; 3; 4]) ∧
  (bellmanFord (4 + 0) reseau_exemple 1 4).1 = Retour (4, [1; 2; 3; 4]) ∧
  (meilleurPlusCourtChemin (4 + 0) reseau_exemple 1 4).1
    = Retour (4, [1; 4; 3; 2]).
Proof. apply (scenario_chemin_1_4 0 reseau_exemple), reordonne_refl. Defined.

(** C1.  On the network with vertices 0 and 2 and the single arc 0->2 of
    cost 20000, in whatever order its containers are enumerated, [dijkstra]
    and [bellmanFord] return the distance 20000 for (0, 2) and
    [meilleurPlusCourtChemin] returns 9999: the three distances are not the
    same although every cost is non-negative. *)
Theorem distances_differentes_reseau_long (fuel : nat) (g : Reseau) :
  reordonne reseau_long g →
  (dijkstra (3 + fuel) g 0 2).1 = Retour (20000, [0; 2]) ∧
  (bellmanFord (3 + fuel) g 0 2).1 = Retour (20000, [0; 2]) ∧
  (meilleurPlusCourtChemin (3 + fuel) g 0 2).1 = Retour (9999, [0; 2; 9999]).
Proof.
  revert g.
  pour_chaque_ordre
    ltac:(split_and!;
          [apply (dijkstra_mono 3) | apply (bellmanFord_mono 3)
          | apply (meilleurPlusCourtChemin_mono 3)];
          first [lia | vm_compute; reflexivity]).
Qed.

Lemma distances_differentes_reseau_long_temoin :
  (dijkstra (3 + 0) reseau_long 0 2).1 = Retour (20000, [0; 2]) ∧
  (bellmanFord (3 + 0) reseau_long 0 2).1 = Retour (20000, [0; 2]) ∧
  (meilleurPlusCourtChemin (3 + 0) reseau_long 0 2).1
    = Retour (9999, [0; 2; 9999]).
Proof.
  apply (distances_differentes_reseau_long 0 reseau_long), reordonne_refl.
Defined.

(** On the network {1, 5} without arcs, [dijkstra] and [bellmanFord]
    return INT_MAX and the empty path for (1, 5). *)
Lemma isole_sentinelle fuel g :
  reordonne reseau_isole g →
  (dijkstra fuel g 1 5).1 = Retour (INT_MAX, []) ∧
  (bellmanFord fuel g 1 5).1 = Retour (INT_MAX, []).
Proof.
  revert g.
  pour_chaque_ordre
    ltac:(split; [apply (dijkstra_mono 0) | apply (bellmanFord_mono 0)];
          first [lia | vm_compute; reflexivity]).
Qed.

(** The relaxation of [dijkstra] has no guard against a source at distance
    INT_MAX (lines 216-217; [bellmanFord] has one at line 345).  On the
    network with vertices 1, 5, 6 and the arcs 5->6 and 6->5, whatever the
    enumeration order, one of the vertices 5 and 6, none of which can be
    reached from 1, gets the distance INT_MAX + 1 wrapped to -2147483648 and
    a non-empty path. *)
Lemma dijkstra_inatteignable_deborde fuel g :
  reordonne reseau_cycle g →
  ∃ d chemin, d ∈ [5; 6] ∧ chemin ≠ [] ∧
    (dijkstra (2 + fuel) g 1 d).1 = Retour (-2147483648, chemin) ∧
    (bellmanFord (2 + fuel) g 1 d).1 = Retour (INT_MAX, []).
Proof.
  revert g.
  pour_chaque_ordre
    ltac:(let fin :=
            (split_and!;
             [ set_solver | done
             | apply (dijkstra_mono 2); [lia | vm_compute; reflexivity]
             | apply (bellmanFord_mono 2); [lia | vm_compute; reflexivity] ])
          in first [ exists 5, [6; 5]; fin | exists 6, [5; 6]; fin ]).
Qed.

(** C6.  On the network {1, 5} without arcs, in whatever order its
    containers are enumerated, the call [meilleurPlusCourtChemin] (1, 5)
    neither returns nor throws: its walk from the destination is still
    running when any amount of fuel is spent.  [dijkstra] and [bellmanFord]
    return on the same input. *)
Theorem mpcc_ne_termine_pas (g : Reseau) :
  reordonne reseau_isole g →
  (∀ fuel, (meilleurPlusCourtChemin fuel g 1 5).1 = Epuise) ∧
  (∃ r, ∀ fuel, (dijkstra fuel g 1 5).1 = Retour r) ∧
  (∃ r, ∀ fuel, (bellmanFord fuel g 1 5).1 = Retour r).
Proof.
  intros Hg. split_and!.
  - by apply mpcc_isole_epuise.
  - exists (INT_MAX, []). intros fuel. by apply isole_sentinelle.
  - exists (INT_MAX, []). intros fuel. by apply isole_sentinelle.
Qed.

Lemma mpcc_ne_termine_pas_temoin :
  (∀ fuel, (meilleurPlusCourtChemin fuel reseau_isole 1 5).1 = Epuise) ∧
  (∃ r, ∀ fuel, (dijkstra fuel reseau_isole 1 5).1 = Retour r) ∧
  (∃ r, ∀ fuel, (bellmanFord fuel reseau_isole 1 5).1 = Retour r).
Proof. apply (mpcc_ne_termine_pas reseau_isole), reordonne_refl. Defined.

(** On the network with vertices 1 and 2 and the arc 1->2, where
    [nombreArcs] is the number of stored arcs, [enleverSommet] (1) leaves a
    network that stores no arc and whose [nombreArcs] is still 1.  This
    holds in whatever order the containers are enumerated. *)
Lemma enleverSommet_paire (g : Reseau) :
  reordonne reseau_paire g →
  nombreArcs g = total_arcs g ∧
  ∃ g', enleverSommet g 1 = Retour g' ∧
        m_arcs g' = [(2, [])] ∧ total_arcs g' = 0 ∧ nombreArcs g' = 1.
Proof.
  revert g.
  pour_chaque_ordre
    ltac:(split; [reflexivity |];
          eexists; split; [reflexivity |]; by vm_compute).
Qed.

(** ** enleverSommet and the arcs that leave the vertex *)

Lemma trouver_affecter {V} (k k' : Z) (v : V) (t : list (Z * V)) :
  trouver k' (affecter k v t) = if Z.eqb k' k then Some v else trouver k' t.
Proof.
  induction t as [|[k0 v0] t IH]; cbn [affecter trouver].
  - by destruct (Z.eqb k' k).
  - destruct (Z.eqb_spec k k0) as [-> | Hne]; cbn [trouver].
    + by destruct (Z.eqb k' k0).
    + rewrite IH. destruct (Z.eqb_spec k' k0) as [-> | ?]; [| done].
      by destruct (Z.eqb_spec k0 k).
Qed.

Lemma trouver_effacer_autre {V} (k k' : Z) (t : list (Z * V)) :
  k' ≠ k → trouver k' (effacer k t) = trouver k' t.
Proof.
  intros Hne. induction t as [|[k0 v0] t IH]; [done |].
  cbn [effacer trouver]. destruct (Z.eqb_spec k k0) as [-> | ?].
  - by destruct (Z.eqb_spec k' k0).
  - cbn [trouver]. by rewrite IH.
Qed.

Lemma longueur_effacer {V} (k : Z) (t : list (Z * V)) :
  is_Some (trouver k t) → S (length (effacer k t)) = length t.
Proof.
  induction t as [|[k0 v0] t IH]; [by intros [? ?] |].
  cbn [effacer trouver]. destruct (Z.eqb k k0); [done |].
  intros H. cbn [length]. by rewrite IH.
Qed.

Lemma longueur_concat_affecter (k : Z) (l l' : liste_arcs)
    (t : list (Z * liste_arcs)) :
  trouver k t = Some l →
  (length (concat (affecter k l' t).*2) + length l
   = length (concat t.*2) + length l')%nat.
Proof.
  induction t as [|[k0 v0] t IH]; [done |].
  cbn [trouver affecter]. destruct (Z.eqb k k0).
  - intros [= ->]. cbn [fmap list_fmap snd concat]. rewrite !length_app. lia.
  - intros H. cbn [fmap list_fmap snd concat]. rewrite !length_app.
    specialize (IH H). lia.
Qed.

Lemma longueur_concat_effacer (k : Z) (l : liste_arcs)
    (t : list (Z * liste_arcs)) :
  trouver k t = Some l →
  (length (concat (effacer k t).*2) + length l = length (concat t.*2))%nat.
Proof.
  induction t as [|[k0 v0] t IH]; [done |].
  cbn [trouver effacer]. destruct (Z.eqb k k0).
  - intros [= ->]. cbn [fmap list_fmap snd concat]. rewrite length_app. lia.
  - intros H. cbn [fmap list_fmap snd concat]. rewrite !length_app.
    specialize (IH H). lia.
Qed.

(** [enleverArc] on an arc that exists. *)
Lemma enleverArc_present g numOrigine numDest :
  arcExiste g numOrigine numDest = Retour true →
  ∃ l, trouver numOrigine (m_arcs g) = Some l ∧
       is_Some (trouver numDest l) ∧
       enleverArc g numOrigine numDest
       = Retour (mkReseau (nbSommets g) (nbArcs g - 1)
                   (affecter numOrigine (effacer numDest l) (m_arcs g))).
Proof.
  intros Ha. unfold enleverArc. rewrite Ha.
  cbn [mbind issue_bind issue_lier negb].
  unfold arcExiste in Ha. destruct (negb _); [done |].
  unfold crochet.
  destruct (trouver numOrigine (m_arcs g)) as [l|]; [| done].
  exists l. split_and!; try done.
  injection Ha as Ha. unfold compte in Ha.
  destruct (trouver numDest l); [by eexists | done].
Qed.

(** The loop of lines 104-109 keeps the difference between [nbArcs] and the
    number of stored arcs, the vertices, and every arc that leaves [numero]
    for another vertex. *)
Lemma enleverSommet_boucle_garde origines numero d g l :
  (∀ o, o ∈ origines → sommetExiste g o = true) →
  sommetExiste g numero = true →
  d ≠ numero →
  trouver numero (m_arcs g) = Some l → is_Some (trouver d l) →
  ∃ g' l',
    enleverSommet_boucle origines numero g = Retour g' ∧
    nbArcs g' - total_arcs g' = nbArcs g - total_arcs g ∧
    trouver numero (m_arcs g') = Some l' ∧ is_Some (trouver d l').
Proof.
  revert g l. induction origines as [|o origines IH]; intros g l Ho Hn Hd Hl Hdl.
  - by exists g, l.
  - cbn [enleverSommet_boucle].
    assert (sommetExiste g o = true) as Hso by apply Ho, list_elem_of_here.
    unfold arcExiste at 1. rewrite Hso, Hn. cbn [andb negb].
    apply sommetExiste_trouver in Hso as [lo Hlo]. rewrite Hlo.
    cbn [mbind issue_bind issue_lier].
    destruct (negb (Z.eqb (compte numero lo) 0)) eqn:Hb.
    2:{ cbn [issue_lier]. apply (IH g l); try done.
        intros o' Ho'. apply Ho. by apply list_elem_of_further. }
    destruct (enleverArc_present g o numero) as (lo' & Hlo' & Hin & ->).
    { unfold arcExiste. rewrite (proj2 (sommetExiste_trouver g o)), Hn
        by (by eexists). cbn [andb negb]. by rewrite Hlo, Hb. }
    rewrite Hlo in Hlo'. injection Hlo' as <-.
    cbn [issue_lier].
    set (g1 := mkReseau _ _ _).
    assert (∀ k, sommetExiste g1 k = sommetExiste g k) as Hex.
    { intros k. unfold sommetExiste, compte, g1. cbn [m_arcs].
      rewrite trouver_affecter. destruct (Z.eqb_spec k o) as [-> | ?]; [| done].
      by rewrite Hlo. }
    destruct (IH g1 (if Z.eqb numero o then effacer numero lo else l))
      as (g' & l' & Hb' & Hdiff & Hl' & Hdl').
    + intros o' Ho'. rewrite Hex. apply Ho. by apply list_elem_of_further.
    + by rewrite Hex.
    + done.
    + unfold g1. cbn [m_arcs]. rewrite trouver_affecter.
      by destruct (Z.eqb numero o).
    + destruct (Z.eqb_spec numero o) as [<- | ?]; [| done].
      rewrite trouver_effacer_autre by done. rewrite Hl in Hlo. by injection Hlo as <-.
    + exists g', l'. split_and!; try done.
      rewrite Hdiff. unfold total_arcs, g1. cbn [nbArcs m_arcs].
      pose proof (longueur_concat_affecter o lo (effacer numero lo) (m_arcs g) Hlo).
      pose proof (longueur_effacer numero lo Hin). lia.
Qed.

(** C3.  [enleverSommet] does not count off the arcs that leave the removed
    vertex: when [numero] has an arc to another vertex [d], the call returns
    a network in which [nombreArcs] exceeds the number of stored arcs by
    more than before.  A network whose [nombreArcs] was exact has, after
    the call, a [nombreArcs] larger than the number of arcs it stores. *)
Theorem enleverSommet_compte_arcs (g : Reseau) (numero d : Z) :
  d ≠ numero →
  arcExiste g numero d = Retour true →
  ∃ g', enleverSommet g numero = Retour g' ∧
        nombreArcs g' - total_arcs g' > nombreArcs g - total_arcs g.
Proof.
  intros Hd Ha.
  assert (sommetExiste g numero = true) as Hn.
  { unfold arcExiste in Ha. destruct (sommetExiste g numero); [done |].
    by cbn in Ha. }
  unfold enleverSommet. rewrite Hn. cbn [negb].
  destruct (enleverArc_present g numero d Ha) as (l & Hl & Hdl & _).
  destruct (enleverSommet_boucle_garde (m_arcs g).*1 numero d g l)
    as (g1 & l1 & -> & Hdiff & Hl1 & Hdl1); try done.
  { intros o Ho. apply sommetExiste_trouver. by apply trouver_cles. }
  cbn [mbind issue_bind issue_lier]. eexists. split; [done |].
  unfold nombreArcs, total_arcs in *. cbn [nbArcs m_arcs].
  pose proof (longueur_concat_effacer numero l1 (m_arcs g1) Hl1).
  assert (length l1 ≠ 0%nat).
  { destruct l1; [by destruct Hdl1 | done]. }
  lia.
Qed.

Lemma enleverSommet_compte_arcs_temoin :
  ∃ g', enleverSommet reseau_paire 1 = Retour g' ∧
        nombreArcs g' - total_arcs g' >
        nombreArcs reseau_paire - total_arcs reseau_paire.
Proof.
  apply (enleverSommet_compte_arcs reseau_paire 1 2); [done | reflexivity].
Defined.

(** ** Queries on what does not exist *)

Lemma arcExiste_sommet_absent g numOrigine numDest :
  sommetExiste g numOrigine = false ∨ sommetExiste g numDest = false →
  arcExiste g numOrigine numDest
  = Leve (logic_error "arcExiste: Un des sommets n'existe pas!").
Proof.
  intros H. unfold arcExiste.
  destruct H as [-> | ->]; [done |].
  by rewrite andb_false_r.
Qed.

Lemma chemin_sommet_absent (a b : bool) :
  a = false ∨ b = false → negb a || negb b = true.
Proof. intros [-> | ->]; [done | by destruct a]. Qed.

(** C8.  A query that names a vertex or an arc that does not exist ends
    with a [std::logic_error] and returns no value.  When one of the two
    vertices is missing this holds of [arcExiste], [getCoutArc],
    [getTypeArc], [dijkstra], [meilleurPlusCourtChemin] and [bellmanFord];
    when both vertices exist and the arc is missing ([arcExiste] answers
    false) it holds of [getCoutArc] and [getTypeArc]. *)
Theorem requete_inexistante (fuel : nat) (g : Reseau) (numOrigine numDest : Z) :
  (sommetExiste g numOrigine = false ∨ sommetExiste g numDest = false →
     leve_logic_error (arcExiste g numOrigine numDest) ∧
     leve_logic_error (getCoutArc g numOrigine numDest) ∧
     leve_logic_error (getTypeArc g numOrigine numDest) ∧
     leve_logic_error (dijkstra fuel g numOrigine numDest).1 ∧
     leve_logic_error (meilleurPlusCourtChemin fuel g numOrigine numDest).1 ∧
     leve_logic_error (bellmanFord fuel g numOrigine numDest).1) ∧
  (arcExiste g numOrigine numDest = Retour false →
     leve_logic_error (getCoutArc g numOrigine numDest) ∧
     leve_logic_error (getTypeArc g numOrigine numDest)).
Proof.
  split.
  - intros H. pose proof (arcExiste_sommet_absent _ _ _ H) as Ha.
    pose proof (chemin_sommet_absent _ _ H) as Hc.
    unfold getCoutArc, getTypeArc, dijkstra, meilleurPlusCourtChemin,
      bellmanFord.
    rewrite Ha, Hc. split_and!; eexists; reflexivity.
  - intros Ha. unfold getCoutArc, getTypeArc. rewrite Ha.
    split; eexists; reflexivity.
Qed.

Lemma requete_inexistante_temoin :
  (leve_logic_error (arcExiste reseau_exemple 1 9) ∧
   leve_logic_error (getCoutArc reseau_exemple 1 9) ∧
   leve_logic_error (getTypeArc reseau_exemple 1 9) ∧
   leve_logic_error (dijkstra 0 reseau_exemple 1 9).1 ∧
   leve_logic_error (meilleurPlusCourtChemin 0 reseau_exemple 1 9).1 ∧
   leve_logic_error (bellmanFord 0 reseau_exemple 1 9).1) ∧
  (leve_logic_error (getCoutArc reseau_exemple 2 1) ∧
   leve_logic_error (getTypeArc reseau_exemple 2 1)).
Proof.
  split.
  - apply (requete_inexistante 0 reseau_exemple 1 9). right. reflexivity.
  - apply (requete_inexistante 0 reseau_exemple 2 1). reflexivity.
Defined.

(** ** bellmanFord keeps its distances in [0, INT_MAX] *)

Lemma vers_int_borne z : -2147483648 <= vers_int z <= INT_MAX.
Proof.
  unfold vers_int, INT_MAX.
  pose proof (Z.mod_pos_bound (z + 2147483648) 4294967296). lia.
Qed.

Lemma vers_int_id z : -2147483648 <= z <= INT_MAX → vers_int z = z.
Proof.
  unfold vers_int, INT_MAX. intros H.
  rewrite Z.mod_small; lia.
Qed.

Lemma lire_insert (t : gmap Z Z) k v k' :
  lire (<[k := v]> t) k' = if decide (k = k') then v else lire t k'.
Proof.
  unfold lire. rewrite lookup_insert. by destruct (decide (k = k')).
Qed.

Lemma distances_bornees_insert distances k v :
  distances_bornees distances → 0 <= v <= INT_MAX →
  distances_bornees (<[k := v]> distances).
Proof.
  intros H Hv k'. rewrite lire_insert. destruct (decide (k = k')); [done | apply H].
Qed.

Lemma bellman_relacher_bornees noeud_courant e voisin :
  distances_bornees e.1.1 →
  distances_bornees (bellman_relacher noeud_courant e voisin).1.1.
Proof.
  intros H. unfold bellman_relacher.
  destruct (_ && _) eqn:E; [| done].
  apply andb_true_iff in E as [_ E%Z.leb_le]. cbn [fst].
  apply distances_bornees_insert; [done |].
  split; [done | apply vers_int_borne].
Qed.

Lemma bellman_sommet_bornees e kv :
  distances_bornees e.1.1 → distances_bornees (bellman_sommet e kv).1.1.
Proof.
  intros H. unfold bellman_sommet. destruct (Z.ltb _ _); [| done].
  revert e H. induction (kv.2) as [|v l IH]; intros e H; [done |].
  cbn [fold_left]. apply IH. by apply bellman_relacher_bornees.
Qed.

Lemma bellman_passe_bornees arcs e :
  distances_bornees e.1.1 →
  distances_bornees (fold_left bellman_sommet arcs e).1.1.
Proof.
  revert e. induction arcs as [|kv arcs IH]; intros e H; [done |].
  cbn [fold_left]. apply IH. by apply bellman_sommet_bornees.
Qed.

Lemma bellman_boucle_bornees n arcs e :
  distances_bornees e.1.1 →
  distances_bornees (bellman_boucle n arcs e).1.1.
Proof.
  revert e. induction n as [|n IH]; intros e H; [done |].
  cbn [bellman_boucle]. destruct (e.2); [| done].
  apply IH. by apply bellman_passe_bornees.
Qed.

Lemma bellman_init_bornees g numOrigine :
  distances_bornees (bellman_init g numOrigine).1.1.
Proof.
  unfold bellman_init. cbn [fst].
  apply distances_bornees_insert; [| unfold INT_MAX; lia].
  assert (∀ l (dp : gmap Z Z * gmap Z Z),
    distances_bornees dp.1 →
    distances_bornees
      (fold_left
         (λ (dp : gmap Z Z * gmap Z Z) (kv : Z * liste_arcs),
            (<[kv.1 := INT_MAX]> dp.1, <[kv.1 := -1]> dp.2)) l dp).1) as Hl.
  { induction l as [|kv l IH]; intros dp H; [done |].
    cbn [fold_left]. apply IH. cbn [fst].
    apply distances_bornees_insert; [done | unfold INT_MAX; lia]. }
  apply Hl. intros k. cbn [fst]. unfold lire. rewrite lookup_empty.
  cbn [default]. unfold INT_MAX. lia.
Qed.

Lemma reconstruire_distance fuel distances predecesseurs numDest dist chemin :
  reconstruire fuel distances predecesseurs numDest = Retour (dist, chemin) →
  dist = lire distances numDest.
Proof.
  unfold reconstruire. destruct (negb _).
  - destruct (remonter _ _ _ _); [| done]. by intros [= <- _].
  - by intros [= <- _].
Qed.





(** ** What the heap operations keep *)

Section Contenu.
Import PairingH.
Variable P : Z * Z → Prop.

Lemma contenu_noeud d s e f :
  Forall P (contenu (Noeud d s e f)) ↔
  P (d, s) ∧ Forall P (contenu e) ∧ Forall P (contenu f).
Proof. cbn [contenu]. by rewrite Forall_cons, Forall_app. Qed.

Lemma fusionner_tous a b :
  Forall P (contenu a) → Forall P (contenu b) →
  Forall P (contenu (fusionner a b)).
Proof.
  destruct a as [|da sa ea fa], b as [|db sb eb fb]; try done.
  rewrite !contenu_noeud. intros (?&?&?) (?&?&?).
  cbn [fusionner]. destruct (Z.ltb db da);
    rewrite !contenu_noeud; split_and!; done || constructor.
Qed.

Lemma ajouterNoeud_tous d s h :
  P (d, s) → Forall P (contenu h) → Forall P (contenu (ajouterNoeud d s h)).
Proof.
  intros Hp Hh. apply fusionner_tous; [done |].
  rewrite contenu_noeud. split_and!; done || constructor.
Qed.

Lemma deux_passes_tous_freres l :
  (Forall P (contenu l) → Forall P (contenu (deux_passes l))) ∧
  match l with
  | Nul => True
  | Noeud _ _ _ f => Forall P (contenu f) → Forall P (contenu (deux_passes f))
  end.
Proof.
  induction l as [|d1 s1 e1 _ f1 [IH1 IH2]]; [done |].
  split; [| done].
  destruct f1 as [|d2 s2 e2 reste]; [done |].
  rewrite !contenu_noeud. intros (?&?&?&?&?).
  cbn [deux_passes].
  apply fusionner_tous; [| by apply IH2].
  apply fusionner_tous; rewrite contenu_noeud; split_and!; done || constructor.
Qed.

Lemma deux_passes_tous l :
  Forall P (contenu l) → Forall P (contenu (deux_passes l)).
Proof. apply deux_passes_tous_freres. Qed.

Lemma supprimerRacine_tous h h' :
  Forall P (contenu h) → supprimerRacine h = Retour h' →
  Forall P (contenu h').
Proof.
  destruct h as [|d s e f]; [done |].
  rewrite contenu_noeud. intros (?&?&?) [= <-]. by apply deux_passes_tous.
Qed.

Lemma getRacine_contenu h d s :
  getRacine h = Retour (d, s) → (d, s) ∈ contenu h.
Proof.
  destruct h as [|d' s' e f]; [done |].
  intros [= -> ->]. cbn [contenu]. apply list_elem_of_here.
Qed.

Lemma cle_contenu s a d : cle s a = Some d → (d, s) ∈ contenu a.
Proof.
  induction a as [|d' s' e IHe f IHf]; [done |].
  cbn [cle contenu]. destruct (Z.eqb_spec s s') as [-> |].
  - intros [= ->]. apply list_elem_of_here.
  - destruct (cle s e) as [k|].
    + intros [= ->]. apply list_elem_of_further, elem_of_app. left. by apply IHe.
    + intros H. apply list_elem_of_further, elem_of_app. right. by apply IHf.
Qed.

Lemma detacher_tous s a sous reste :
  detacher s a = Some (sous, reste) → Forall P (contenu a) →
  Forall P (contenu sous) ∧ Forall P (contenu reste).
Proof.
  revert sous reste.
  induction a as [|d' s' e IHe f IHf]; intros sous reste; [done |].
  cbn [detacher]. rewrite contenu_noeud. destruct (Z.eqb s s').
  - intros [= <- <-] (?&?&?). rewrite contenu_noeud.
    split_and!; done || constructor.
  - destruct (detacher s e) as [[sous' e']|].
    + intros [= <- <-] (?&?&?). destruct (IHe _ _ eq_refl) as [? ?]; [done |].
      rewrite contenu_noeud. by split_and!.
    + destruct (detacher s f) as [[sous' f']|]; [| done].
      intros [= <- <-] (?&?&?). destruct (IHf _ _ eq_refl) as [? ?]; [done |].
      rewrite contenu_noeud. by split_and!.
Qed.

Lemma diminuerDistance_tous s nouvelle h h' :
  (∀ d v, P (d, v) → nouvelle <= d → P (nouvelle, v)) →
  Forall P (contenu h) → diminuerDistance s nouvelle h = Retour h' →
  Forall P (contenu h').
Proof.
  intros HP. destruct h as [|d s' e f]; [done |].
  rewrite contenu_noeud. intros (?&?&?). cbn [diminuerDistance].
  destruct (Z.eqb s s').
  - destruct (Z.ltb_spec d nouvelle); [done |]. intros [= <-].
    rewrite contenu_noeud. split_and!; [| done..]. by apply (HP d).
  - destruct (detacher s e) as [[[|ds ss es fs] e']|] eqn:E; try done.
    destruct (Z.ltb_spec ds nouvelle); [done |]. intros Heq.
    assert (h' = fusionner (Noeud d s' e' f) (Noeud nouvelle ss es Nul))
      as -> by congruence.
    destruct (detacher_tous _ _ _ _ E) as [Hs ?]; [done |].
    apply contenu_noeud in Hs as (?&?&?).
    apply fusionner_tous; rewrite contenu_noeud; split_and!;
      try done; try constructor.
    by apply (HP ds).
Qed.

End Contenu.

(** ** The main loop of meilleurPlusCourtChemin keeps its heap valid *)

Lemma vers_unsigned_borne z : 0 <= vers_unsigned z < 4294967296.
Proof. unfold vers_unsigned. apply Z.mod_pos_bound. lia. Qed.

Lemma mpcc_relacher_valide arcs dist_u_etoile u_etoile_sommet r u :
  issue_tous (λ hs, tas_valide arcs hs.1) r →
  issue_tous (λ hs, tas_valide arcs hs.1)
    (mpcc_relacher dist_u_etoile u_etoile_sommet r u).
Proof.
  destruct r as [hs| | |]; try done. cbn [issue_tous]. intros Hv.
  unfold mpcc_relacher. cbn [mbind issue_bind issue_lier].
  destruct (lire_sommet hs.2 u.1).1 as [p|]; [| done].
  destruct (PairingH.cle p hs.1) as [dist_u|] eqn:Hc; [| done].
  destruct (Z.ltb_spec (vers_unsigned (dist_u_etoile + u.2.1)) dist_u);
    [| done].
  destruct (PairingH.diminuerDistance _ _ _) as [h| | |] eqn:Hd; try done.
  cbn [mbind issue_bind issue_lier].
  destruct (lire_sommet hs.2 u_etoile_sommet).1 as [p'|]; [| done].
  destruct (PairingH.cle p' h); [| done].
  cbn [issue_tous fst].
  eapply diminuerDistance_tous; [| exact Hv | exact Hd].
  intros d v [Hk Hs] Hle. split; [| done]. cbn [fst] in *.
  pose proof (vers_unsigned_borne (dist_u_etoile + u.2.1)). lia.
Qed.

Lemma mpcc_relacher_tous_valide arcs dist_u_etoile u_etoile_sommet voisins r :
  issue_tous (λ hs, tas_valide arcs hs.1) r →
  issue_tous (λ hs, tas_valide arcs hs.1)
    (fold_left (mpcc_relacher dist_u_etoile u_etoile_sommet) voisins r).
Proof.
  revert r. induction voisins as [|u l IH]; intros r H; [done |].
  cbn [fold_left]. by apply IH, mpcc_relacher_valide.
Qed.

Lemma mpcc_boucle_valide n numDest e arcs :
  mp_arcs e = arcs → tas_valide arcs (mp_heap e) →
  0 <= mp_longueur e <= 9999 →
  (mpcc_boucle n numDest e).2 = arcs ∧
  issue_tous (λ e', 0 <= mp_longueur e' <= 9999) (mpcc_boucle n numDest e).1.
Proof.
  revert e. induction n as [|n IH]; intros e Ha Hv Hl; [done |].
  cbn [mpcc_boucle].
  destruct (PairingH.getRacine (mp_heap e)) as [[d s]| | |] eqn:Hr; try done.
  assert (noeud_valide arcs (d, s)) as [_ Hs].
  { eapply Forall_forall; [exact Hv |]. by apply getRacine_contenu. }
  cbn [snd] in Hs.
  pose proof (crochet_present [] s (mp_arcs e)) as Hcr.
  rewrite Ha in Hcr. specialize (Hcr Hs).
  rewrite Ha. destruct (crochet [] s arcs) as [voisins arcs'].
  cbn [snd] in Hcr. subst arcs'.
  pose proof (mpcc_relacher_tous_valide arcs d s voisins
                (Retour (mp_heap e, mp_sommets e)) Hv) as Hf.
  destruct (fold_left _ _ _) as [[h sm]| | |]; try done.
  cbn [issue_tous fst] in Hf.
  destruct (PairingH.cle s h) as [d'|] eqn:Hc; [| done].
  assert (noeud_valide arcs (d', s)) as [Hd' _].
  { eapply Forall_forall; [exact Hf |]. by apply cle_contenu. }
  cbn [fst] in Hd'.
  destruct (PairingH.supprimerRacine h) as [h'| | |] eqn:Hsup; try done.
  pose proof (supprimerRacine_tous _ _ _ Hf Hsup) as Hv'.
  destruct (Z.eqb s numDest).
  - done.
  - by apply IH.
Qed.

Lemma mpcc_init_valide g numOrigine e :
  mpcc_init g numOrigine = Retour e →
  mp_arcs e = m_arcs g ∧ tas_valide (m_arcs g) (mp_heap e) ∧
  mp_longueur e = 0.
Proof.
  unfold mpcc_init.
  assert (∀ l (hs : PairingH.t * gmap Z (option Z * Z)),
    (∀ kv, kv ∈ l → is_Some (trouver kv.1 (m_arcs g))) →
    tas_valide (m_arcs g) hs.1 →
    tas_valide (m_arcs g)
      (fold_left
         (λ (hs : PairingH.t * gmap Z (option Z * Z)) (kv : Z * liste_arcs),
            (PairingH.ajouterNoeud 9999 kv.1 hs.1,
             <[kv.1 := (Some kv.1, 9999)]> hs.2)) l hs).1) as Hl.
  { induction l as [|kv l IH]; intros hs Hk Hv; [done |].
    cbn [fold_left]. apply IH.
    - intros kv' H. apply Hk. by apply list_elem_of_further.
    - cbn [fst]. apply ajouterNoeud_tous; [| done].
      split; [done |]. apply Hk, list_elem_of_here. }
  specialize (Hl (m_arcs g) (PairingH.vide, ∅)).
  destruct (fold_left _ _ _) as [h0 sm0]. cbn [fst snd] in *.
  destruct (lire_sommet sm0 numOrigine).1 as [p|]; [| done].
  destruct (PairingH.diminuerDistance p 0 h0) as [h| | |] eqn:Hd; try done.
  cbn [mbind issue_bind issue_lier]. intros [= <-]. cbn.
  split_and!; try done.
  eapply diminuerDistance_tous; [| | exact Hd].
  - intros d v [Hk Hs] Hle. split; [cbn [fst] in *; lia | done].
  - apply Hl; [| constructor].
    intros [k v] H. by apply (trouver_present k v).
Qed.

Lemma mpcc_parcours_valide g numOrigine numDest :
  (mpcc_parcours g numOrigine numDest).2 = m_arcs g ∧
  issue_tous (λ e, 0 <= mp_longueur e <= 9999)
    (mpcc_parcours g numOrigine numDest).1.
Proof.
  unfold mpcc_parcours.
  destruct (mpcc_init g numOrigine) as [e0| | |] eqn:Hi; try done.
  apply mpcc_init_valide in Hi as (Ha & Hv & Hl).
  apply mpcc_boucle_valide; [done | done | lia].
Qed.

(** C9.  Whenever [meilleurPlusCourtChemin] returns, the distance it
    returns is at most 9999, the key every vertex is given when the heap is
    built (and it is not negative). *)
Theorem meilleurPlusCourtChemin_au_plus_9999
    (fuel : nat) (g : Reseau) (numOrigine numDest dist : Z) (chemin : list Z) :
  (meilleurPlusCourtChemin fuel g numOrigine numDest).1 = Retour (dist, chemin) →
  0 <= dist <= 9999.
Proof.
  unfold meilleurPlusCourtChemin. destruct (_ || _); [done |].
  pose proof (mpcc_parcours_valide g numOrigine numDest) as [_ Hl].
  destruct (mpcc_parcours _ _ _) as [[e| | |] arcs]; try done.
  cbn [fst mbind issue_bind issue_lier issue_tous] in *.
  unfold mpcc_reconstruire.
  assert (vers_int (mp_longueur e) = mp_longueur e) as ->.
  { apply vers_int_id. unfold INT_MAX. lia. }
  destruct (Z.eqb _ 0).
  - by intros [= <- _].
  - destruct (mpcc_remonter _ _ _ _ _); [| done]. by intros [= <- _].
Qed.

Lemma meilleurPlusCourtChemin_au_plus_9999_temoin : 0 <= 9999 <= 9999.
Proof.
  apply (meilleurPlusCourtChemin_au_plus_9999 3 reseau_long 0 2 9999
           [0; 2; 9999]).
  vm_compute. reflexivity.
Defined.

(** ** The path operations leave the network as it is *)

Lemma noeud_minimal_dans_Q distances q x :
  noeud_minimal distances q = Some x → x ∈ q.
Proof.
  destruct q as [|premier q]; [done |]. cbn [noeud_minimal]. intros [= <-].
  assert (∀ l acc, acc ∈ premier :: q → l ⊆ premier :: q →
    fold_left
      (λ noeud_min noeud,
         if Z.ltb (lire distances noeud) (lire distances noeud_min)
         then noeud else noeud_min) l acc ∈ premier :: q) as H.
  { induction l as [|n l IH]; intros acc Hacc Hl; [done |].
    cbn [fold_left]. apply IH.
    - destruct (Z.ltb _ _); [| done]. apply Hl, list_elem_of_here.
    - intros y Hy. apply Hl. by apply list_elem_of_further. }
  apply (H (premier :: q) premier); [apply list_elem_of_here | done].
Qed.

Lemma Q_effacer_inclus k q x : x ∈ Q_effacer k q → x ∈ q.
Proof. unfold Q_effacer. by intros [_ ?]%list_elem_of_filter. Qed.

Lemma dijkstra_boucle_arcs n numDest e :
  (∀ x, x ∈ dj_Q e → is_Some (trouver x (dj_arcs e))) →
  dj_arcs (dijkstra_boucle n numDest e).2 = dj_arcs e.
Proof.
  revert e. induction n as [|n IH]; intros e HQ; [done |].
  cbn [dijkstra_boucle].
  destruct (noeud_minimal _ _) as [noeud_min|] eqn:Hm; [| done].
  destruct (Z.eqb noeud_min numDest); [done |].
  pose proof (crochet_present [] noeud_min (dj_arcs e)
                (HQ _ (noeud_minimal_dans_Q _ _ _ Hm))) as Hc.
  destruct (crochet [] noeud_min (dj_arcs e)) as [voisins arcs].
  cbn [snd] in Hc. subst arcs.
  rewrite IH; [done |]. cbn [dj_Q dj_arcs].
  intros x Hx. by apply HQ, (Q_effacer_inclus noeud_min).
Qed.

Lemma dijkstra_init_arcs g numOrigine :
  dj_arcs (dijkstra_init g numOrigine) = m_arcs g ∧
  ∀ x, x ∈ dj_Q (dijkstra_init g numOrigine) → is_Some (trouver x (m_arcs g)).
Proof.
  unfold dijkstra_init. cbn [dj_arcs dj_Q].
  assert (∀ l (e : etat_dijkstra),
    (∀ kv, kv ∈ l → is_Some (trouver kv.1 (m_arcs g))) →
    dj_arcs e = m_arcs g →
    (∀ x, x ∈ dj_Q e → is_Some (trouver x (m_arcs g))) →
    let e' :=
      fold_left
        (λ (e : etat_dijkstra) (kv : Z * liste_arcs),
           mkDijkstra (<[kv.1 := INT_MAX]> (dj_distances e))
                      (<[kv.1 := -1]> (dj_predecesseurs e))
                      (Q_inserer kv.1 (dj_Q e))
                      (dj_arcs e)) l e in
    dj_arcs e' = m_arcs g ∧
    ∀ x, x ∈ dj_Q e' → is_Some (trouver x (m_arcs g))) as H.
  { induction l as [|kv l IH]; intros e Hl Ha HQ; [done |].
    cbn [fold_left]. apply IH.
    - intros kv' H. apply Hl. by apply list_elem_of_further.
    - done.
    - cbn [dj_Q]. intros x. unfold Q_inserer. case_bool_decide; [apply HQ |].
      intros [Hx | ->%list_elem_of_singleton]%elem_of_app; [by apply HQ |].
      apply Hl, list_elem_of_here. }
  apply H; [| done |].
  - intros [k v] Hkv. by apply (trouver_present k v).
  - by intros x ?%elem_of_nil.
Qed.

Lemma reseau_eta g : mkReseau (nbSommets g) (nbArcs g) (m_arcs g) = g.
Proof. by destruct g. Qed.

Lemma dijkstra_reseau_inchange fuel g numOrigine numDest :
  (dijkstra fuel g numOrigine numDest).2 = g.
Proof.
  unfold dijkstra. destruct (_ || _); [done |].
  destruct (dijkstra_init_arcs g numOrigine) as [Ha HQ].
  pose proof (dijkstra_boucle_arcs (Z.to_nat (nbSommets g)) numDest
                (dijkstra_init g numOrigine)) as Hb.
  rewrite Ha in Hb. specialize (Hb HQ).
  destruct (dijkstra_boucle _ _ _) as [ok e]. cbn [snd] in Hb.
  destruct ok; cbn [snd]; rewrite Hb; apply reseau_eta.
Qed.

Lemma meilleurPlusCourtChemin_reseau_inchange fuel g numOrigine numDest :
  (meilleurPlusCourtChemin fuel g numOrigine numDest).2 = g.
Proof.
  unfold meilleurPlusCourtChemin. destruct (_ || _); [done |].
  pose proof (mpcc_parcours_valide g numOrigine numDest) as [Ha _].
  destruct (mpcc_parcours _ _ _) as [r arcs]. cbn [snd] in *.
  rewrite Ha. apply reseau_eta.
Qed.

Lemma bellmanFord_reseau_inchange fuel g numOrigine numDest :
  (bellmanFord fuel g numOrigine numDest).2 = g.
Proof. unfold bellmanFord. by destruct (_ || _). Qed.

(** C10.  Whatever the arguments, and however the call ends, the network
    after [dijkstra], [meilleurPlusCourtChemin] or [bellmanFord] is the
    network before the call: same [nbSommets], same [nbArcs], same
    [m_arcs], hence the same vertices, arcs, costs and types. *)
Theorem chemins_reseau_inchange
    (fuel : nat) (g : Reseau) (numOrigine numDest : Z) :
  (dijkstra fuel g numOrigine numDest).2 = g ∧
  (meilleurPlusCourtChemin fuel g numOrigine numDest).2 = g ∧
  (bellmanFord fuel g numOrigine numDest).2 = g.
Proof.
  split_and!.
  - apply dijkstra_reseau_inchange.
  - apply meilleurPlusCourtChemin_reseau_inchange.
  - apply bellmanFord_reseau_inchange.
Qed.

(** ** Origin and destination equal *)

(** The tables after lines 195-199. *)
Lemma dijkstra_init_tables l e :
  let e' :=
    fold_left
      (λ (e : etat_dijkstra) (kv : Z * liste_arcs),
         mkDijkstra (<[kv.1 := INT_MAX]> (dj_distances e))
                    (<[kv.1 := -1]> (dj_predecesseurs e))
                    (Q_inserer kv.1 (dj_Q e))
                    (dj_arcs e)) l e in
  (∀ k, k ∈ l.*1 →
        lire (dj_distances e') k = INT_MAX ∧
        lire (dj_predecesseurs e') k = -1 ∧ k ∈ dj_Q e') ∧
  (∀ k, k ∉ l.*1 →
        lire (dj_distances e') k = lire (dj_distances e) k ∧
        lire (dj_predecesseurs e') k = lire (dj_predecesseurs e) k ∧
        (k ∈ dj_Q e' ↔ k ∈ dj_Q e)).
Proof.
  revert e. induction l as [|kv l IH]; intros e; cbn zeta.
  - split; [by intros k ?%elem_of_nil | done].
  - cbn [fold_left]. specialize (IH (mkDijkstra
      (<[kv.1 := INT_MAX]> (dj_distances e))
      (<[kv.1 := -1]> (dj_predecesseurs e))
      (Q_inserer kv.1 (dj_Q e)) (dj_arcs e))).
    cbn zeta in IH. destruct IH as [IH1 IH2].
    cbn [dj_distances dj_predecesseurs dj_Q] in IH2.
    assert (∀ k, k ∈ Q_inserer kv.1 (dj_Q e) ↔ k ∈ dj_Q e ∨ k = kv.1) as HQ.
    { intros k. unfold Q_inserer. case_bool_decide.
      - split; [by left | by intros [? | ->]].
      - rewrite elem_of_app, list_elem_of_singleton. done. }
    split; intros k Hk; cbn [fmap list_fmap] in Hk.
    + destruct (decide (k ∈ l.*1)) as [Hl | Hl]; [by apply IH1 |].
      apply elem_of_cons in Hk as [-> | ?]; [| done].
      destruct (IH2 _ Hl) as (-> & -> & ->).
      rewrite !lire_insert, !decide_True by done.
      split_and!; try done. apply HQ. by right.
    + apply not_elem_of_cons in Hk as [Hne Hl].
      destruct (IH2 _ Hl) as (-> & -> & ->).
      rewrite !lire_insert, !decide_False by done.
      split_and!; try done. rewrite HQ. split; [by intros [? | ?] | by left].
Qed.

Lemma dijkstra_init_etat g numOrigine :
  let e := dijkstra_init g numOrigine in
  lire (dj_distances e) numOrigine = 0 ∧
  (∀ k, k ∈ (m_arcs g).*1 → lire (dj_predecesseurs e) k = -1) ∧
  (∀ k, k ∈ (m_arcs g).*1 → k ∈ dj_Q e) ∧
  (∀ k, k ∈ dj_Q e → k ≠ numOrigine → lire (dj_distances e) k = INT_MAX).
Proof.
  cbn zeta. unfold dijkstra_init.
  destruct (dijkstra_init_tables (m_arcs g) (mkDijkstra ∅ ∅ [] (m_arcs g)))
    as [H1 H2]. cbn zeta in H1, H2.
  cbn [dj_distances dj_predecesseurs dj_Q] in *.
  split_and!.
  - by rewrite lire_insert, decide_True.
  - intros k Hk. by apply H1.
  - intros k Hk. by apply H1.
  - intros k Hk Hne. rewrite lire_insert, decide_False by done.
    destruct (decide (k ∈ (m_arcs g).*1)) as [Hl | Hl]; [by apply H1 |].
    apply H2 in Hl as (_ & _ & HQ). apply HQ in Hk. by apply elem_of_nil in Hk.
Qed.

(** A vertex of [Q] strictly nearer than every other is the one chosen. *)
Lemma noeud_minimal_unique distances q v :
  v ∈ q →
  (∀ y, y ∈ q → y ≠ v → lire distances v < lire distances y) →
  noeud_minimal distances q = Some v.
Proof.
  intros Hv Hmin.
  assert (∀ l acc, acc ∈ q → l ⊆ q → acc = v ∨ v ∈ l →
    fold_left
      (λ noeud_min noeud,
         if Z.ltb (lire distances noeud) (lire distances noeud_min)
         then noeud else noeud_min) l acc = v) as H.
  { induction l as [|n l IH]; intros acc Hacc Hl Hcas.
    - destruct Hcas as [Heq | ?%elem_of_nil]; done.
    - cbn [fold_left].
      assert (n ∈ q) as Hn by apply Hl, list_elem_of_here.
      assert (l ⊆ q) as Hl'.
      { intros y Hy. apply Hl. by apply list_elem_of_further. }
      destruct (Z.ltb_spec (lire distances n) (lire distances acc)) as [Hlt | Hge];
        apply IH; try done.
      + destruct (decide (n = v)) as [Hnv | Hnv]; [by left |].
        destruct Hcas as [Heq | [Heq | ?]%elem_of_cons];
          [| by left | by right].
        specialize (Hmin _ Hn Hnv). rewrite Heq in Hlt. lia.
      + destruct (decide (acc = v)) as [Hav | Hav]; [by left |].
        destruct Hcas as [Heq | [Heq | ?]%elem_of_cons];
          [done | | by right].
        specialize (Hmin _ Hacc Hav). rewrite <- Heq in Hge. lia. }
  destruct q as [|premier q]; [by apply elem_of_nil in Hv |].
  cbn [noeud_minimal]. f_equal.
  apply (H (premier :: q) premier); [apply list_elem_of_here | done | by right].
Qed.

Lemma dijkstra_meme_sommet fuel g v :
  sommetExiste g v = true →
  (dijkstra fuel g v v).1 = Retour (0, []).
Proof.
  intros Hv. unfold dijkstra. rewrite Hv. cbn [negb orb].
  apply sommetExiste_cles in Hv.
  destruct (dijkstra_init_etat g v) as (Hd & Hp & HQ & Hmax). cbn zeta in *.
  assert (∃ e, dijkstra_boucle (Z.to_nat (nbSommets g)) v (dijkstra_init g v)
               = (true, e) ∧
               dj_distances e = dj_distances (dijkstra_init g v) ∧
               dj_predecesseurs e = dj_predecesseurs (dijkstra_init g v))
    as (e & -> & Hed & Hep).
  { destruct (Z.to_nat (nbSommets g)) as [|n]; [by eexists |].
    cbn [dijkstra_boucle].
    rewrite (noeud_minimal_unique _ _ v).
    - rewrite Z.eqb_refl. by eexists.
    - by apply HQ.
    - intros y Hy Hne. rewrite Hd, (Hmax _ Hy Hne). unfold INT_MAX. lia. }
  cbn [fst]. unfold reconstruire. rewrite Hed, Hep, Hd, (Hp _ Hv). done.
Qed.

(** The tables after lines 334-337. *)
Lemma bellman_init_predecesseurs g numOrigine k :
  k ∈ (m_arcs g).*1 → lire (bellman_init g numOrigine).1.2 k = -1.
Proof.
  unfold bellman_init. cbn [fst snd].
  assert (∀ l (dp : gmap Z Z * gmap Z Z),
    k ∈ l.*1 ∨ lire dp.2 k = -1 →
    lire (fold_left
            (λ (dp : gmap Z Z * gmap Z Z) (kv : Z * liste_arcs),
               (<[kv.1 := INT_MAX]> dp.1, <[kv.1 := -1]> dp.2)) l dp).2 k
    = -1) as H.
  { induction l as [|kv l IH]; intros dp Hcas.
    - destruct Hcas as [?%elem_of_nil | ?]; done.
    - cbn [fold_left]. apply IH. cbn [snd fmap list_fmap] in *.
      rewrite lire_insert.
      destruct (decide (kv.1 = k)) as [Heq | Hne]; [by right |].
      destruct Hcas as [[? | ?]%elem_of_cons | ?]; [done | by left | by right]. }
  intros Hk. apply H. by left.
Qed.

Lemma bellman_relacher_origine v noeud_courant e voisin :
  lire e.1.1 v = 0 → lire e.1.2 v = -1 →
  lire (bellman_relacher noeud_courant e voisin).1.1 v = 0 ∧
  lire (bellman_relacher noeud_courant e voisin).1.2 v = -1.
Proof.
  intros Hd Hp. unfold bellman_relacher.
  destruct (_ && _) eqn:E; [| done].
  apply andb_true_iff in E as [E1%Z.ltb_lt E2%Z.leb_le].
  cbn [fst snd]. rewrite !lire_insert.
  destruct (decide (voisin.1 = v)) as [Heq | _]; [| done].
  rewrite Heq, Hd in E1. lia.
Qed.

Lemma bellman_sommet_origine v e kv :
  lire e.1.1 v = 0 → lire e.1.2 v = -1 →
  lire (bellman_sommet e kv).1.1 v = 0 ∧ lire (bellman_sommet e kv).1.2 v = -1.
Proof.
  unfold bellman_sommet. destruct (Z.ltb _ _); [| done].
  revert e. induction (kv.2) as [|u l IH]; intros e Hd Hp; [done |].
  cbn [fold_left]. by apply IH; apply bellman_relacher_origine.
Qed.

Lemma bellman_passe_origine v arcs e :
  lire e.1.1 v = 0 → lire e.1.2 v = -1 →
  lire (fold_left bellman_sommet arcs e).1.1 v = 0 ∧
  lire (fold_left bellman_sommet arcs e).1.2 v = -1.
Proof.
  revert e. induction arcs as [|kv arcs IH]; intros e Hd Hp; [done |].
  cbn [fold_left]. by apply IH; apply bellman_sommet_origine.
Qed.

Lemma bellman_boucle_origine v n arcs e :
  lire e.1.1 v = 0 → lire e.1.2 v = -1 →
  lire (bellman_boucle n arcs e).1.1 v = 0 ∧
  lire (bellman_boucle n arcs e).1.2 v = -1.
Proof.
  revert e. induction n as [|n IH]; intros e Hd Hp; [done |].
  cbn [bellman_boucle]. destruct (e.2); [| done].
  by apply IH; apply bellman_passe_origine.
Qed.

Lemma bellmanFord_meme_sommet fuel g v :
  sommetExiste g v = true →
  (bellmanFord fuel g v v).1 = Retour (0, []).
Proof.
  intros Hv. unfold bellmanFord. rewrite Hv. cbn [negb orb fst].
  apply sommetExiste_cles in Hv.
  destruct (bellman_boucle_origine v (Z.to_nat (nbSommets g - 1)) (m_arcs g)
              (bellman_init g v)) as [Hd Hp].
  - unfold bellman_init. cbn [fst]. by rewrite lire_insert, decide_True.
  - by apply bellman_init_predecesseurs.
  - unfold reconstruire. by rewrite Hd, Hp.
Qed.

(** ** The heap while the origin is its root *)

Section Sommets_du_tas.
Import PairingH.

Lemma sommets_noeud k d s e f :
  k ∈ (contenu (Noeud d s e f)).*2 ↔
  k = s ∨ k ∈ (contenu e).*2 ∨ k ∈ (contenu f).*2.
Proof.
  cbn [contenu]. rewrite fmap_cons, fmap_app, elem_of_cons, elem_of_app.
  done.
Qed.

Lemma sommets_nul k : k ∈ (contenu Nul).*2 ↔ False.
Proof. cbn. apply elem_of_nil. Qed.

Lemma cle_sommets s a : is_Some (cle s a) ↔ s ∈ (contenu a).*2.
Proof.
  induction a as [|d s' e IHe f IHf].
  - rewrite sommets_nul. split; [by intros [? ?] | done].
  - rewrite sommets_noeud, <- IHe, <- IHf. cbn [cle].
    destruct (Z.eqb_spec s s') as [Heq | Hne].
    + split; [by left | by eexists].
    + destruct (cle s e) as [k|].
      * split; [right; left; by eexists | by eexists].
      * split; [by right; right |].
        intros [? | [[? ?] | ?]]; done.
Qed.

Lemma detacher_sans_cle s a : cle s a = None → detacher s a = None.
Proof.
  induction a as [|d' s' e IHe f IHf]; [done |].
  cbn [cle detacher]. destruct (Z.eqb s s'); [done |].
  destruct (cle s e); [done |]. intros Hf.
  by rewrite IHe, IHf.
Qed.

Lemma detacher_cle s a d :
  cle s a = Some d →
  ∃ e a', detacher s a = Some (Noeud d s e Nul, a') ∧
          ∀ k, k ∈ (contenu a).*2 →
               k = s ∨ k ∈ (contenu e).*2 ∨ k ∈ (contenu a').*2.
Proof.
  revert d. induction a as [|d' s' e IHe f IHf]; intros d; [done |].
  cbn [cle detacher]. destruct (Z.eqb_spec s s') as [Heq | Hne].
  - intros [= ->]. subst s'. exists e, f. split; [done |].
    intros k. by rewrite sommets_noeud.
  - destruct (cle s e) as [k|] eqn:He.
    + intros [= ->]. destruct (IHe _ eq_refl) as (es & e' & -> & Hk).
      exists es, (Noeud d' s' e' f). split; [done |].
      intros k. rewrite !sommets_noeud. intros [? | [H | ?]];
        [tauto | apply Hk in H; tauto | tauto].
    + intros Hf. destruct (IHf _ Hf) as (es & f' & -> & Hk).
      rewrite (detacher_sans_cle _ _ He).
      exists es, (Noeud d' s' e f'). split; [done |].
      intros k. rewrite !sommets_noeud. intros [? | [? | H]];
        [tauto | tauto | apply Hk in H; tauto].
Qed.

(** [decrease-key] on a vertex other than the root [v] of key 0. *)
Lemma diminuerDistance_sous_origine v e p dist_u nouvelle :
  p ≠ v → cle p (Noeud 0 v e Nul) = Some dist_u →
  0 <= nouvelle <= dist_u →
  ∃ e', diminuerDistance p nouvelle (Noeud 0 v e Nul)
        = Retour (Noeud 0 v e' Nul) ∧
        p ∈ (contenu e').*2 ∧
        ∀ k, k ∈ (contenu e).*2 → k ∈ (contenu e').*2.
Proof.
  intros Hne Hc Hn. cbn [cle diminuerDistance] in *.
  destruct (Z.eqb_spec p v); [done |].
  assert (cle p e = Some dist_u) as He.
  { destruct (cle p e); [done | by cbn in Hc]. }
  destruct (detacher_cle _ _ _ He) as (es & e' & -> & Hk).
  destruct (Z.ltb_spec dist_u nouvelle); [lia |].
  cbn [fusionner]. destruct (Z.ltb_spec nouvelle 0); [lia |].
  eexists. split; [done |]. split.
  - rewrite sommets_noeud. by left.
  - intros k Hke. apply Hk in Hke. rewrite sommets_noeud. tauto.
Qed.

End Sommets_du_tas.

Section Origine_racine.
Import PairingH.

Lemma ajouterNoeud_racine d s h :
  est_racine h →
  est_racine (ajouterNoeud d s h) ∧
  ∀ k, k = s ∨ k ∈ (contenu h).*2 → k ∈ (contenu (ajouterNoeud d s h)).*2.
Proof.
  unfold ajouterNoeud. destruct h as [|d' s' e f]; cbn [est_racine].
  - intros _. split; [done |]. intros k. cbn [fusionner].
    rewrite sommets_noeud. tauto.
  - intros ->. cbn [fusionner]. destruct (Z.ltb d d'); cbn [est_racine];
      (split; [done |]); intros k; rewrite !sommets_noeud; tauto.
Qed.

(** Lines 263-266: every vertex gets a node of key 9999 and an entry
    (its node, 9999) in [sommets]. *)
Lemma mpcc_init_tables l h sm vus :
  est_racine h →
  Forall (λ dv, dv.1 = 9999) (contenu h) →
  (∀ k, k ∈ vus → k ∈ (contenu h).*2) →
  (∀ k, lire_sommet sm k
        = if decide (k ∈ vus) then (Some k, 9999) else (None, 0)) →
  let hs :=
    fold_left
      (λ (hs : PairingH.t * gmap Z (option Z * Z)) (kv : Z * liste_arcs),
         (ajouterNoeud 9999 kv.1 hs.1, <[kv.1 := (Some kv.1, 9999)]> hs.2))
      l (h, sm) in
  est_racine hs.1 ∧
  Forall (λ dv, dv.1 = 9999) (contenu hs.1) ∧
  (∀ k, k ∈ vus ++ l.*1 → k ∈ (contenu hs.1).*2) ∧
  (∀ k, lire_sommet hs.2 k
        = if decide (k ∈ vus ++ l.*1) then (Some k, 9999) else (None, 0)).
Proof.
  revert h sm vus. induction l as [|kv l IH]; intros h sm vus Hr Hc Hv Hs.
  - cbn. rewrite app_nil_r. done.
  - cbn [fold_left fst snd fmap list_fmap].
    destruct (ajouterNoeud_racine 9999 kv.1 h Hr) as [Hr' Hk'].
    specialize (IH (ajouterNoeud 9999 kv.1 h)
                   (<[kv.1 := (Some kv.1, 9999)]> sm) (vus ++ [kv.1])).
    cbn zeta in *. rewrite <- app_assoc in IH. apply IH; clear IH.
    + done.
    + by apply ajouterNoeud_tous.
    + intros k [? | ->%list_elem_of_singleton]%elem_of_app; apply Hk'.
      * right. by apply Hv.
      * by left.
    + intros k. unfold lire_sommet. rewrite lookup_insert.
      destruct (decide (kv.1 = k)) as [Heq | Hne].
      * subst k. rewrite decide_True; [done |].
        apply elem_of_app. right. apply list_elem_of_here.
      * specialize (Hs k). unfold lire_sommet in Hs. rewrite Hs.
        destruct (decide (k ∈ vus)) as [Hin | Hout].
        -- rewrite decide_True; [done |]. apply elem_of_app. by left.
        -- rewrite decide_False; [done |].
           intros [? | ?%list_elem_of_singleton]%elem_of_app; done.
Qed.

(** Line 268: the origin becomes the root with key 0. *)
Lemma diminuerDistance_origine v h :
  est_racine h → Forall (λ dv, dv.1 = 9999) (contenu h) →
  v ∈ (contenu h).*2 →
  ∃ e, diminuerDistance v 0 h = Retour (Noeud 0 v e Nul) ∧
       ∀ k, k ∈ (contenu h).*2 → k ∈ (contenu (Noeud 0 v e Nul)).*2.
Proof.
  destruct h as [|d s e f]; [by intros _ _ ?%sommets_nul |].
  cbn [est_racine]. intros -> Hc Hv.
  apply contenu_noeud in Hc as (Hd & He & _). cbn [fst] in Hd. subst d.
  cbn [diminuerDistance]. destruct (Z.eqb_spec v s) as [-> | Hne].
  - exists e. split; [done |]. intros k. by rewrite !sommets_noeud.
  - apply sommets_noeud in Hv as [? | [Hv | Hv]];
      [done | | by apply sommets_nul in Hv].
    apply cle_sommets in Hv as [dv Hdv].
    assert (dv = 9999) as ->.
    { apply cle_contenu in Hdv.
      by apply (proj1 (Forall_forall _ _) He) in Hdv. }
    destruct (detacher_cle _ _ _ Hdv) as (es & e' & -> & Hk).
    cbn [fusionner]. change (Z.ltb 9999 0) with false.
    change (Z.ltb 0 9999) with true. cbv iota.
    eexists. split; [done |].
    intros k. rewrite !sommets_noeud. rewrite sommets_nul.
    intros [? | [Hke | ?]]; [tauto | apply Hk in Hke; tauto | tauto].
Qed.

Lemma mpcc_init_origine g v :
  v ∈ (m_arcs g).*1 →
  ∃ e0, mpcc_init g v = Retour e0 ∧
        etat_origine v (mp_heap e0) (mp_sommets e0) ∧
        mp_arcs e0 = m_arcs g ∧ mp_longueur e0 = 0.
Proof.
  intros Hv. unfold mpcc_init.
  destruct (mpcc_init_tables (m_arcs g) Nul ∅ []) as (Hr & Hc & Hk & Hs);
    [done | constructor | by intros k ?%elem_of_nil | done |].
  cbn zeta in *. change PairingH.vide with Nul.
  destruct (fold_left _ (m_arcs g) (Nul, ∅)) as [h0 sm0].
  cbn [fst snd app] in *.
  rewrite (Hs v), decide_True by done. cbn [fst].
  destruct (diminuerDistance_origine v h0 Hr Hc (Hk _ Hv)) as (e & -> & Hke).
  cbn [mbind issue_bind issue_lier]. eexists. split; [done |].
  cbn [mp_heap mp_sommets mp_arcs mp_longueur]. split; [| done].
  unfold etat_origine. split_and!.
  - by eexists.
  - by rewrite (Hs v), decide_True.
  - intros k p. rewrite (Hs k). destruct (decide (k ∈ (m_arcs g).*1)); [| done].
    cbn [fst]. intros [= <-]. split; [done |]. by apply Hke, Hk.
Qed.

Lemma mpcc_relacher_origine v h sm u :
  etat_origine v h sm →
  ∃ h' sm', mpcc_relacher 0 v (Retour (h, sm)) u = Retour (h', sm') ∧
            etat_origine v h' sm'.
Proof.
  intros ([e ->] & Hsv & Hp). unfold mpcc_relacher.
  cbn [mbind issue_bind issue_lier fst snd].
  destruct (lire_sommet sm u.1).1 as [p|] eqn:Hu.
  2:{ eexists _, _. split; [done |]. unfold etat_origine.
      split_and!; [by eexists | done..]. }
  destruct (Hp _ _ Hu) as [-> Hin].
  apply cle_sommets in Hin as [dist_u Hc]. rewrite Hc.
  pose proof (vers_unsigned_borne (0 + u.2.1)) as Hb.
  destruct (Z.ltb_spec (vers_unsigned (0 + u.2.1)) dist_u) as [Hlt | Hge].
  2:{ eexists _, _. split; [done |]. unfold etat_origine.
      split_and!; [by eexists | done..]. }
  assert (u.1 ≠ v) as Hne.
  { intros Heq. rewrite Heq in Hc. cbn [cle] in Hc.
    rewrite Z.eqb_refl in Hc. injection Hc as <-. lia. }
  destruct (diminuerDistance_sous_origine v e u.1 dist_u
              (vers_unsigned (0 + u.2.1)) Hne Hc) as (e' & -> & Hpe & Hke);
    [lia |].
  cbn [mbind issue_bind issue_lier]. rewrite Hsv. cbn [fst cle].
  rewrite Z.eqb_refl. eexists _, _. split; [done |].
  unfold etat_origine. split_and!.
  - by eexists.
  - unfold lire_sommet. rewrite lookup_insert_ne by done. exact Hsv.
  - intros k p. unfold lire_sommet. rewrite lookup_insert.
    destruct (decide (u.1 = k)) as [Heq | Hnk].
    + cbn [default fst]. intros [= <-]. split; [done |].
      rewrite sommets_noeud. subst k. tauto.
    + intros Hkp. destruct (Hp k p Hkp) as [-> Hin]. split; [done |].
      rewrite sommets_noeud in *. rewrite sommets_nul in *.
      destruct Hin as [? | [Hin | ?]]; [tauto | apply Hke in Hin; tauto | tauto].
Qed.

Lemma mpcc_relacher_tous_origine v voisins h sm :
  etat_origine v h sm →
  ∃ h' sm',
    fold_left (mpcc_relacher 0 v) voisins (Retour (h, sm)) = Retour (h', sm') ∧
    etat_origine v h' sm'.
Proof.
  revert h sm. induction voisins as [|u l IH]; intros h sm He.
  - by eexists _, _.
  - cbn [fold_left].
    destruct (mpcc_relacher_origine v h sm u He) as (h' & sm' & -> & He').
    by apply IH.
Qed.

End Origine_racine.

Lemma meilleurPlusCourtChemin_meme_sommet fuel g v :
  sommetExiste g v = true →
  (meilleurPlusCourtChemin fuel g v v).1 = Retour (0, [v]).
Proof.
  intros Hv. unfold meilleurPlusCourtChemin. rewrite Hv. cbn [negb orb].
  apply sommetExiste_cles in Hv.
  unfold mpcc_parcours.
  destruct (mpcc_init_origine g v Hv) as (e0 & -> & He & Ha & Hl).
  assert (∃ n, length (m_arcs g) = S n) as [n ->].
  { destruct (m_arcs g); [by apply elem_of_nil in Hv | by eexists]. }
  cbn [mpcc_boucle].
  destruct He as ([e Hh] & Hsv & Hp). rewrite Hh. cbn [PairingH.getRacine].
  rewrite Ha.
  destruct (crochet [] v (m_arcs g)) as [voisins arcs'].
  destruct (mpcc_relacher_tous_origine v voisins (PairingH.Noeud 0 v e PairingH.Nul)
              (mp_sommets e0)) as (h' & sm' & -> & ([e' ->] & Hsv' & _)).
  { unfold etat_origine. split_and!; [by eexists | done | by rewrite <- Hh]. }
  cbn [PairingH.cle]. rewrite !Z.eqb_refl. cbn [PairingH.supprimerRacine].
  cbn [fst mbind issue_bind issue_lier].
  unfold mpcc_reconstruire. cbn [mp_sommets mp_longueur].
  unfold lire_sommet at 1. rewrite lookup_insert_eq. cbn [default snd].
  rewrite Hsv'. cbn [snd]. change (Z.eqb 9999 0) with false. cbv iota.
  rewrite mpcc_remonter_eq, Z.eqb_refl. done.
Qed.

(** C7.  With origin and destination the same existing vertex [v],
    [dijkstra] and [bellmanFord] return the distance 0 and the empty path;
    [meilleurPlusCourtChemin] returns the distance 0 and the path made of
    [v] alone, so the three operations do not agree on the path. *)
Theorem chemin_meme_sommet (fuel : nat) (g : Reseau) (v : Z) :
  sommetExiste g v = true →
  (dijkstra fuel g v v).1 = Retour (0, []) ∧
  (bellmanFord fuel g v v).1 = Retour (0, []) ∧
  (meilleurPlusCourtChemin fuel g v v).1 = Retour (0, [v]).
Proof.
  intros Hv. split_and!.
  - by apply dijkstra_meme_sommet.
  - by apply bellmanFord_meme_sommet.
  - by apply meilleurPlusCourtChemin_meme_sommet.
Qed.

Lemma chemin_meme_sommet_temoin :
  (dijkstra 0 reseau_exemple 1 1).1 = Retour (0, []) ∧
  (bellmanFord 0 reseau_exemple 1 1).1 = Retour (0, []) ∧
  (meilleurPlusCourtChemin 0 reseau_exemple 1 1).1 = Retour (0, [1]).
Proof. apply (chemin_meme_sommet 0 reseau_exemple 1). reflexivity. Defined.


(** ** A destination at which no arc arrives *)

Lemma trouver_element {V} (k : Z) (v : V) (t : list (Z * V)) :
  trouver k t = Some v → (k, v) ∈ t.
Proof.
  induction t as [|[k' v'] t IH]; [done |]. cbn [trouver].
  destruct (Z.eqb_spec k k') as [-> | ?].
  - intros [= ->]. apply list_elem_of_here.
  - intros H. by apply list_elem_of_further, IH.
Qed.

Lemma trouver_absent {V} (k : Z) (t : list (Z * V)) (kv : Z * V) :
  trouver k t = None → kv ∈ t → kv.1 ≠ k.
Proof.
  intros Hn Hin Heq. destruct kv as [k' v]. cbn in Heq. subst k'.
  destruct (trouver_present k v t Hin) as [? ?]. congruence.
Qed.

(** The adjacency table read by [m_arcs[k]] has no entry for [d]. *)
Lemma crochet_sans_arc_entrant arcs d k :
  sans_arc_entrant arcs d → is_Some (trouver k arcs) →
  (crochet [] k arcs).2 = arcs ∧
  ∀ voisin, voisin ∈ (crochet [] k arcs).1 → voisin.1 ≠ d.
Proof.
  intros Hd [l Hl]. unfold crochet. rewrite Hl. split; [done |].
  intros voisin Hv. eapply trouver_absent; [| exact Hv].
  eapply Hd. by apply trouver_element.
Qed.

Lemma dijkstra_relacher_autre q noeud_min dp voisin d :
  voisin.1 ≠ d →
  lire (dijkstra_relacher q noeud_min dp voisin).1 d = lire dp.1 d ∧
  lire (dijkstra_relacher q noeud_min dp voisin).2 d = lire dp.2 d.
Proof.
  intros Hne. unfold dijkstra_relacher.
  destruct (bool_decide _); [| done]. destruct (Z.ltb _ _); [| done].
  cbn [fst snd]. by rewrite !lire_insert, !decide_False.
Qed.

Lemma dijkstra_relacher_tous_autre q noeud_min voisins dp d :
  (∀ voisin, voisin ∈ voisins → voisin.1 ≠ d) →
  lire (fold_left (dijkstra_relacher q noeud_min) voisins dp).1 d = lire dp.1 d ∧
  lire (fold_left (dijkstra_relacher q noeud_min) voisins dp).2 d = lire dp.2 d.
Proof.
  revert dp. induction voisins as [|u l IH]; intros dp Hl; [done |].
  cbn [fold_left].
  destruct (IH (dijkstra_relacher q noeud_min dp u)) as [-> ->].
  - intros v Hv. apply Hl. by apply list_elem_of_further.
  - apply dijkstra_relacher_autre, Hl, list_elem_of_here.
Qed.

Lemma noeud_minimal_existe distances q x :
  x ∈ q → is_Some (noeud_minimal distances q).
Proof. destruct q; [by intros ?%elem_of_nil | by eexists]. Qed.

(** While the destination waits in [Q] the loop never finds [Q] empty, and
    no relaxation reaches the destination. *)
Lemma dijkstra_boucle_sans_arc_entrant n d e :
  sans_arc_entrant (dj_arcs e) d →
  (∀ x, x ∈ dj_Q e → is_Some (trouver x (dj_arcs e))) →
  d ∈ dj_Q e →
  ∃ e', dijkstra_boucle n d e = (true, e') ∧
        lire (dj_distances e') d = lire (dj_distances e) d ∧
        lire (dj_predecesseurs e') d = lire (dj_predecesseurs e) d.
Proof.
  revert e. induction n as [|n IH]; intros e Hd HQ Hin; [by eexists |].
  cbn [dijkstra_boucle].
  destruct (noeud_minimal_existe (dj_distances e) _ _ Hin) as [x Hx].
  rewrite Hx. destruct (Z.eqb_spec x d) as [-> | Hne]; [by eexists |].
  destruct (crochet_sans_arc_entrant (dj_arcs e) d x Hd) as [Ha Hv].
  { by apply HQ, (noeud_minimal_dans_Q (dj_distances e)). }
  destruct (crochet [] x (dj_arcs e)) as [voisins arcs]. cbn [fst snd] in *.
  subst arcs.
  destruct (dijkstra_relacher_tous_autre (Q_effacer x (dj_Q e)) x voisins
              (dj_distances e, dj_predecesseurs e) d Hv) as [H1 H2].
  cbn [fst snd] in H1, H2.
  destruct (IH (mkDijkstra
                  (fold_left (dijkstra_relacher (Q_effacer x (dj_Q e)) x)
                     voisins (dj_distances e, dj_predecesseurs e)).1
                  (fold_left (dijkstra_relacher (Q_effacer x (dj_Q e)) x)
                     voisins (dj_distances e, dj_predecesseurs e)).2
                  (Q_effacer x (dj_Q e)) (dj_arcs e)))
    as (e' & -> & H1' & H2').
  - done.
  - cbn [dj_Q dj_arcs]. intros y Hy. by apply HQ, (Q_effacer_inclus x).
  - cbn [dj_Q]. unfold Q_effacer. apply list_elem_of_filter. by split.
  - exists e'. cbn [dj_distances dj_predecesseurs] in *.
    rewrite H1', H2', H1, H2. done.
Qed.

(** [dijkstra] on a destination, other than the origin, at which no arc
    arrives: INT_MAX and the empty path. *)
Lemma dijkstra_sans_arc_entrant fuel g numOrigine numDest :
  sommetExiste g numOrigine = true → sommetExiste g numDest = true →
  numOrigine ≠ numDest →
  sans_arc_entrant (m_arcs g) numDest →
  (dijkstra fuel g numOrigine numDest).1 = Retour (INT_MAX, []).
Proof.
  intros Ho Hd Hne Hs. unfold dijkstra. rewrite Ho, Hd. cbn [negb orb].
  apply sommetExiste_cles in Hd.
  destruct (dijkstra_init_etat g numOrigine) as (_ & Hp & HQ & Hmax).
  destruct (dijkstra_init_arcs g numOrigine) as [Ha HQk]. cbn zeta in *.
  destruct (dijkstra_boucle_sans_arc_entrant (Z.to_nat (nbSommets g)) numDest
              (dijkstra_init g numOrigine)) as (e & -> & H1 & H2).
  - by rewrite Ha.
  - by rewrite Ha.
  - by apply HQ.
  - cbn [fst]. unfold reconstruire. rewrite H1, H2, (Hp _ Hd).
    rewrite Hmax; [done | by apply HQ | done].
Qed.

(** The same for [bellmanFord]. *)
Lemma bellman_relacher_autre noeud_courant e voisin d :
  voisin.1 ≠ d →
  lire (bellman_relacher noeud_courant e voisin).1.1 d = lire e.1.1 d ∧
  lire (bellman_relacher noeud_courant e voisin).1.2 d = lire e.1.2 d.
Proof.
  intros Hne. unfold bellman_relacher. destruct (_ && _); [| done].
  cbn [fst snd]. by rewrite !lire_insert, !decide_False.
Qed.

Lemma bellman_passe_autre arcs d e :
  (∀ kv voisin, kv ∈ arcs → voisin ∈ kv.2 → voisin.1 ≠ d) →
  lire (fold_left bellman_sommet arcs e).1.1 d = lire e.1.1 d ∧
  lire (fold_left bellman_sommet arcs e).1.2 d = lire e.1.2 d.
Proof.
  revert e. induction arcs as [|kv arcs IH]; intros e Hs; [done |].
  cbn [fold_left].
  destruct (IH (bellman_sommet e kv)) as [-> ->].
  { intros kv' v Hkv. apply Hs. by apply list_elem_of_further. }
  unfold bellman_sommet. destruct (Z.ltb _ _); [| done].
  assert (∀ voisin, voisin ∈ kv.2 → voisin.1 ≠ d) as Hkv.
  { intros v. apply Hs, list_elem_of_here. }
  clear IH Hs. revert e Hkv. induction (kv.2) as [|u l IHl]; intros e Hl; [done |].
  cbn [fold_left].
  destruct (IHl (bellman_relacher kv.1 e u)) as [-> ->].
  - intros v Hv. apply Hl. by apply list_elem_of_further.
  - apply bellman_relacher_autre, Hl, list_elem_of_here.
Qed.

Lemma bellman_boucle_autre n arcs d e :
  (∀ kv voisin, kv ∈ arcs → voisin ∈ kv.2 → voisin.1 ≠ d) →
  lire (bellman_boucle n arcs e).1.1 d = lire e.1.1 d ∧
  lire (bellman_boucle n arcs e).1.2 d = lire e.1.2 d.
Proof.
  intros Hs. revert e. induction n as [|n IH]; intros e; [done |].
  destruct e as [[dist pred] b]. cbn [bellman_boucle fst snd].
  destruct b; [| done].
  destruct (IH (fold_left bellman_sommet arcs (dist, pred, false))) as [-> ->].
  by apply (bellman_passe_autre arcs d (dist, pred, false)).
Qed.

Lemma bellman_init_distances g numOrigine k :
  k ∈ (m_arcs g).*1 → k ≠ numOrigine →
  lire (bellman_init g numOrigine).1.1 k = INT_MAX.
Proof.
  unfold bellman_init. cbn [fst]. intros Hk Hne.
  rewrite lire_insert, decide_False by done.
  assert (∀ l (dp : gmap Z Z * gmap Z Z),
    k ∈ l.*1 ∨ lire dp.1 k = INT_MAX →
    lire (fold_left
            (λ (dp : gmap Z Z * gmap Z Z) (kv : Z * liste_arcs),
               (<[kv.1 := INT_MAX]> dp.1, <[kv.1 := -1]> dp.2)) l dp).1 k
    = INT_MAX) as H.
  { induction l as [|kv l IH]; intros dp Hcas.
    - destruct Hcas as [?%elem_of_nil | ?]; done.
    - cbn [fold_left]. apply IH. cbn [fst fmap list_fmap] in *.
      rewrite lire_insert.
      destruct (decide (kv.1 = k)) as [Heq | Hnk]; [by right |].
      destruct Hcas as [[? | ?]%elem_of_cons | ?]; [done | by left | by right]. }
  apply H. by left.
Qed.

Lemma bellmanFord_sans_arc_entrant fuel g numOrigine numDest :
  sommetExiste g numOrigine = true → sommetExiste g numDest = true →
  numOrigine ≠ numDest →
  sans_arc_entrant (m_arcs g) numDest →
  (bellmanFord fuel g numOrigine numDest).1 = Retour (INT_MAX, []).
Proof.
  intros Ho Hd Hne Hs. unfold bellmanFord. rewrite Ho, Hd. cbn [negb orb fst].
  apply sommetExiste_cles in Hd.
  destruct (bellman_boucle_autre (Z.to_nat (nbSommets g - 1)) (m_arcs g)
              numDest (bellman_init g numOrigine)) as [H1 H2].
  { intros [o l] v Hkv Hv. eapply trouver_absent; [| exact Hv]. by eapply Hs. }
  unfold reconstruire.
  rewrite H1, H2, bellman_init_predecesseurs, bellman_init_distances by done.
  done.
Qed.


Lemma lire_sommet_insert (t : gmap Z (option Z * Z)) k v k' :
  lire_sommet (<[k := v]> t) k' = if decide (k = k') then v else lire_sommet t k'.
Proof.
  unfold lire_sommet. rewrite lookup_insert. by destruct (decide (k = k')).
Qed.

(** Writing the entry of a key that has a node pointer, or keeping the
    predecessor of the key written, keeps the three entries. *)
Lemma sentinelle_gardee_insert d sommets k v :
  sentinelle_gardee d sommets →
  (k = d → v.2 = 9999) →
  k ≠ 0 → k ≠ 9999 →
  sentinelle_gardee d (<[k := v]> sommets).
Proof.
  intros (Hd & H9 & H0) Hv Hk0 Hk9. unfold sentinelle_gardee.
  rewrite !lire_sommet_insert.
  rewrite (decide_False (P := k = 9999)), (decide_False (P := k = 0)) by done.
  split_and!; try done.
  destruct (decide (k = d)); [by apply Hv | done].
Qed.

Lemma mpcc_relacher_sentinelle d dist_u_etoile u_etoile_sommet r u :
  u.1 ≠ d →
  issue_tous (λ hs, sentinelle_gardee d hs.2) r →
  issue_tous (λ hs, sentinelle_gardee d hs.2)
    (mpcc_relacher dist_u_etoile u_etoile_sommet r u).
Proof.
  intros Hne. destruct r as [hs| | |]; try done. cbn [issue_tous]. intros Hs.
  unfold mpcc_relacher. cbn [mbind issue_bind issue_lier].
  destruct (lire_sommet hs.2 u.1).1 as [p|] eqn:Hp; [| done].
  destruct (PairingH.cle p hs.1) as [dist_u|]; [| done].
  destruct (Z.ltb _ dist_u); [| done].
  destruct (PairingH.diminuerDistance _ _ _) as [h| | |]; try done.
  cbn [mbind issue_bind issue_lier].
  destruct (lire_sommet hs.2 u_etoile_sommet).1 as [p'|]; [| done].
  destruct (PairingH.cle p' h); [| done].
  cbn [issue_tous snd].
  destruct Hs as (Hd & H9 & H0).
  apply sentinelle_gardee_insert; [done | done | |].
  - intros Heq. rewrite Heq, H0 in Hp. done.
  - intros Heq. rewrite Heq, H9 in Hp. done.
Qed.

Lemma mpcc_relacher_tous_sentinelle d dist_u_etoile u_etoile_sommet voisins r :
  (∀ u, u ∈ voisins → u.1 ≠ d) →
  issue_tous (λ hs, sentinelle_gardee d hs.2) r →
  issue_tous (λ hs, sentinelle_gardee d hs.2)
    (fold_left (mpcc_relacher dist_u_etoile u_etoile_sommet) voisins r).
Proof.
  revert r. induction voisins as [|u l IH]; intros r Hl H; [done |].
  cbn [fold_left]. apply IH.
  - intros v Hv. apply Hl. by apply list_elem_of_further.
  - apply mpcc_relacher_sentinelle; [apply Hl, list_elem_of_here | done].
Qed.

Lemma mpcc_boucle_sentinelle n d e arcs :
  mp_arcs e = arcs → tas_valide arcs (mp_heap e) →
  sans_arc_entrant arcs d →
  trouver 0 arcs = None → trouver 9999 arcs = None →
  sentinelle_gardee d (mp_sommets e) →
  issue_tous (λ e', sentinelle_gardee d (mp_sommets e'))
    (mpcc_boucle n d e).1.
Proof.
  intros Ha Hv Hd H0 H9. revert e Ha Hv.
  induction n as [|n IH]; intros e Ha Hv Hs; [done |].
  cbn [mpcc_boucle].
  destruct (PairingH.getRacine (mp_heap e)) as [[dd s]| | |] eqn:Hr; try done.
  assert (noeud_valide arcs (dd, s)) as [_ Hsk].
  { eapply Forall_forall; [exact Hv |]. by apply getRacine_contenu. }
  cbn [snd] in Hsk. rewrite Ha.
  destruct (crochet_sans_arc_entrant arcs d s Hd Hsk) as [Hc Hvo].
  destruct (crochet [] s arcs) as [voisins arcs']. cbn [fst snd] in Hc, Hvo.
  subst arcs'.
  pose proof (mpcc_relacher_tous_valide arcs dd s voisins
                (Retour (mp_heap e, mp_sommets e)) Hv) as Hf.
  pose proof (mpcc_relacher_tous_sentinelle d dd s voisins
                (Retour (mp_heap e, mp_sommets e)) Hvo Hs) as Hg.
  destruct (fold_left _ _ _) as [[h sm]| | |]; try done.
  cbn [issue_tous fst snd] in Hf, Hg.
  destruct (PairingH.cle s h) as [d'|]; [| done].
  destruct (PairingH.supprimerRacine h) as [h'| | |] eqn:Hsup; try done.
  pose proof (supprimerRacine_tous _ _ _ Hf Hsup) as Hv'.
  assert (sentinelle_gardee d (<[s := (None, (lire_sommet sm s).2)]> sm)) as Hs'.
  { apply sentinelle_gardee_insert; [done | | |].
    - intros ->. apply Hg.
    - intros ->. rewrite H0 in Hsk. by destruct Hsk.
    - intros ->. rewrite H9 in Hsk. by destruct Hsk. }
  destruct (Z.eqb s d); [done |].
  by apply IH.
Qed.

Lemma mpcc_init_sommets g numOrigine e k :
  mpcc_init g numOrigine = Retour e →
  lire_sommet (mp_sommets e) k
  = if decide (k ∈ (m_arcs g).*1) then (Some k, 9999) else (None, 0).
Proof.
  unfold mpcc_init.
  destruct (mpcc_init_tables (m_arcs g) PairingH.Nul ∅ []) as (_ & _ & _ & Hs);
    [done | constructor | by intros ? ?%elem_of_nil | done |].
  cbn zeta in Hs. change PairingH.vide with PairingH.Nul.
  destruct (fold_left _ (m_arcs g) (PairingH.Nul, ∅)) as [h0 sm0].
  cbn [fst snd app] in *.
  destruct (lire_sommet sm0 numOrigine).1; [| done].
  destruct (PairingH.diminuerDistance _ _ _); try done.
  cbn [mbind issue_bind issue_lier]. intros [= <-]. apply Hs.
Qed.

(** [meilleurPlusCourtChemin] on a destination, other than the origin, at
    which no arc arrives, in a network without the vertices 0 and 9999:
    the call does not return. *)
Lemma mpcc_sans_arc_entrant fuel g numOrigine numDest :
  sommetExiste g numOrigine = true → sommetExiste g numDest = true →
  numOrigine ≠ numDest →
  sans_arc_entrant (m_arcs g) numDest →
  sommetExiste g 0 = false → sommetExiste g 9999 = false →
  ∀ r, (meilleurPlusCourtChemin fuel g numOrigine numDest).1 ≠ Retour r.
Proof.
  intros Ho Hd Hne Hs H0 H9 r.
  unfold meilleurPlusCourtChemin. rewrite Ho, Hd. cbn [negb orb].
  unfold mpcc_parcours.
  destruct (mpcc_init g numOrigine) as [e0| | |] eqn:Hi; try done.
  pose proof (mpcc_init_valide _ _ _ Hi) as (Ha & Hv & _).
  assert (numOrigine ≠ 0) as Ho0 by (intros ->; congruence).
  assert (numOrigine ≠ 9999) as Ho9 by (intros ->; congruence).
  assert (0 ∉ (m_arcs g).*1) as Hk0.
  { intros H%sommetExiste_cles. congruence. }
  assert (9999 ∉ (m_arcs g).*1) as Hk9.
  { intros H%sommetExiste_cles. congruence. }
  pose proof (mpcc_boucle_sentinelle (length (m_arcs g)) numDest e0
                (m_arcs g) Ha Hv Hs) as Hb.
  destruct (mpcc_boucle _ _ _) as [[e| | |] arcs]; try done.
  cbn [fst mbind issue_bind issue_lier issue_tous] in *.
  destruct Hb as (Hsd & Hs9 & Hs0).
  - destruct (trouver 0 (m_arcs g)) eqn:E; [| done].
    exfalso. apply Hk0, trouver_cles. by eexists.
  - destruct (trouver 9999 (m_arcs g)) eqn:E; [| done].
    exfalso. apply Hk9, trouver_cles. by eexists.
  - unfold sentinelle_gardee.
    rewrite !(mpcc_init_sommets g numOrigine e0) by done.
    rewrite decide_True by (by apply sommetExiste_cles).
    by rewrite !decide_False.
  - rewrite mpcc_reconstruire_sentinelle; try done.
    + by rewrite Hs9.
    + by rewrite Hs0.
Qed.

(** C2.  A destination at which no arc arrives, as vertex 5 of the
    scenario, and which is not the origin.  [dijkstra] and [bellmanFord]
    return INT_MAX and the empty path.  [meilleurPlusCourtChemin] does
    not: when neither 0 nor 9999 is a vertex it does not return at all, and
    on the network with vertices 0 and 5 and no arc it returns 9999 with the
    path 0,5,9999 for (0, 5), in whatever order the containers are
    enumerated. *)
Theorem inatteignable_sentinelle
    (fuel : nat) (g : Reseau) (numOrigine numDest : Z) :
  sommetExiste g numOrigine = true → sommetExiste g numDest = true →
  numOrigine ≠ numDest →
  sans_arc_entrant (m_arcs g) numDest →
  (dijkstra fuel g numOrigine numDest).1 = Retour (INT_MAX, []) ∧
  (bellmanFord fuel g numOrigine numDest).1 = Retour (INT_MAX, []) ∧
  (sommetExiste g 0 = false → sommetExiste g 9999 = false →
   ∀ r, (meilleurPlusCourtChemin fuel g numOrigine numDest).1 ≠ Retour r) ∧
  (∀ g', reordonne reseau_isole_zero g' →
         (meilleurPlusCourtChemin (3 + fuel) g' 0 5).1
         = Retour (9999, [0; 5; 9999])).
Proof.
  intros Ho Hd Hne Hs. split_and!.
  - by apply dijkstra_sans_arc_entrant.
  - by apply bellmanFord_sans_arc_entrant.
  - intros H0 H9. by apply mpcc_sans_arc_entrant.
  - pour_chaque_ordre
      ltac:(apply (meilleurPlusCourtChemin_mono 3);
            first [lia | vm_compute; reflexivity]).
Qed.

Lemma sans_arc_entrant_isole : sans_arc_entrant (m_arcs reseau_isole) 5.
Proof.
  intros o l [[= -> ->] | [[= -> ->] | H%elem_of_nil]%elem_of_cons]%elem_of_cons;
    done.
Qed.

Lemma inatteignable_sentinelle_temoin :
  (dijkstra 0 reseau_isole 1 5).1 = Retour (INT_MAX, []) ∧
  (bellmanFord 0 reseau_isole 1 5).1 = Retour (INT_MAX, []) ∧
  (sommetExiste reseau_isole 0 = false →
   sommetExiste reseau_isole 9999 = false →
   ∀ r, (meilleurPlusCourtChemin 0 reseau_isole 1 5).1 ≠ Retour r) ∧
  (∀ g', reordonne reseau_isole_zero g' →
         (meilleurPlusCourtChemin (3 + 0) g' 0 5).1
         = Retour (9999, [0; 5; 9999])).
Proof.
  apply (inatteignable_sentinelle 0 reseau_isole 1 5);
    [reflexivity | reflexivity | lia | apply sans_arc_entrant_isole].
Defined.

(** ** Tables: what the operations do to lookups *)

Lemma trouver_app {V} (k : Z) (t t' : list (Z * V)) :
  trouver k (t ++ t') =
  match trouver k t with Some v => Some v | None => trouver k t' end.
Proof.
  induction t as [|[k0 v0] t IH]; [done |]. cbn [app trouver].
  by destruct (Z.eqb k k0).
Qed.

Lemma affecter_absent {V} (k : Z) (v : V) (t : list (Z * V)) :
  trouver k t = None → affecter k v t = t ++ [(k, v)].
Proof.
  induction t as [|[k0 v0] t IH]; [done |]. cbn [trouver affecter app].
  destruct (Z.eqb k k0); [done |]. intros H. by rewrite IH.
Qed.

Lemma affecter_meme {V} (k : Z) (v : V) (t : list (Z * V)) :
  trouver k t = Some v → affecter k v t = t.
Proof.
  induction t as [|[k0 v0] t IH]; [done |]. cbn [trouver affecter].
  destruct (Z.eqb_spec k k0) as [-> | ?].
  - by intros [= ->].
  - intros H. by rewrite IH.
Qed.

Lemma affecter_affecter {V} (k : Z) (v v' : V) (t : list (Z * V)) :
  affecter k v (affecter k v' t) = affecter k v t.
Proof.
  induction t as [|[k0 v0] t IH]; cbn [affecter].
  - by rewrite Z.eqb_refl.
  - destruct (Z.eqb_spec k k0) as [-> | Hne]; cbn [affecter].
    + by rewrite Z.eqb_refl.
    + destruct (Z.eqb_spec k k0); [done |]. by rewrite IH.
Qed.

Lemma affecter_cles {V} (k : Z) (v : V) (t : list (Z * V)) :
  is_Some (trouver k t) → (affecter k v t).*1 = t.*1.
Proof.
  induction t as [|[k0 v0] t IH]; [by intros [? ?] |].
  cbn [trouver affecter]. destruct (Z.eqb_spec k k0) as [-> | ?]; [done |].
  intros H. cbn [fmap list_fmap]. f_equal. by apply IH.
Qed.

Lemma effacer_absent {V} (k : Z) (t : list (Z * V)) :
  trouver k t = None → effacer k t = t.
Proof.
  induction t as [|[k0 v0] t IH]; [done |]. cbn [trouver effacer].
  destruct (Z.eqb k k0); [done |]. intros H. by rewrite IH.
Qed.

Lemma effacer_dernier {V} (k : Z) (v : V) (t : list (Z * V)) :
  trouver k t = None → effacer k (t ++ [(k, v)]) = t.
Proof.
  induction t as [|[k0 v0] t IH]; cbn [trouver effacer app].
  - by rewrite Z.eqb_refl.
  - destruct (Z.eqb k k0); [done |]. intros H. by rewrite IH.
Qed.

Lemma trouver_unique {V} (k : Z) (v : V) (t : list (Z * V)) :
  NoDup t.*1 → (k, v) ∈ t → trouver k t = Some v.
Proof.
  induction t as [|[k0 v0] t IH]; [by intros _ ?%elem_of_nil |].
  cbn [fmap list_fmap fst trouver]. intros [Hk Hn]%NoDup_cons.
  intros [[= -> ->] | Hin]%elem_of_cons.
  - by rewrite Z.eqb_refl.
  - destruct (Z.eqb_spec k k0) as [-> | ?]; [| by apply IH].
    exfalso. apply Hk. apply list_elem_of_fmap. by exists (k0, v).
Qed.

Lemma effacer_inclus {V} (k : Z) (t : list (Z * V)) (kv : Z * V) :
  kv ∈ effacer k t → kv ∈ t.
Proof.
  induction t as [|[k0 v0] t IH]; [done |]. cbn [effacer].
  destruct (Z.eqb k k0).
  - apply list_elem_of_further.
  - intros [-> | H]%elem_of_cons; [apply list_elem_of_here |].
    by apply list_elem_of_further, IH.
Qed.

Lemma effacer_cles_uniques {V} (k : Z) (t : list (Z * V)) :
  NoDup t.*1 → NoDup (effacer k t).*1.
Proof.
  induction t as [|[k0 v0] t IH]; [done |].
  cbn [effacer fmap list_fmap fst]. intros [Hk Hn]%NoDup_cons.
  destruct (Z.eqb k k0); [done |]. cbn [fmap list_fmap fst].
  apply NoDup_cons. split; [| by apply IH].
  intros [[k1 v1] [Heq Hin]]%list_elem_of_fmap. cbn in Heq. subst k1.
  apply Hk. apply list_elem_of_fmap. exists (k0, v1). split; [done |].
  by apply (effacer_inclus k).
Qed.

Lemma trouver_effacer_meme {V} (k : Z) (t : list (Z * V)) :
  NoDup t.*1 → trouver k (effacer k t) = None.
Proof.
  induction t as [|[k0 v0] t IH]; [done |].
  cbn [effacer fmap list_fmap fst]. intros [Hk Hn]%NoDup_cons.
  destruct (Z.eqb_spec k k0) as [-> | Hne].
  - destruct (trouver k0 t) as [v|] eqn:E; [| done].
    exfalso. apply Hk, trouver_cles. by eexists.
  - cbn [trouver]. destruct (Z.eqb_spec k k0); [done |]. by apply IH.
Qed.

(** ** The queries in terms of the stored arcs *)

Lemma arcExiste_forme g o d :
  arcExiste g o d =
  if negb (sommetExiste g o && sommetExiste g d) then
    Leve (logic_error "arcExiste: Un des sommets n'existe pas!")
  else Retour (match arc_stocke g o d with Some _ => true | None => false end).
Proof.
  unfold arcExiste, arc_stocke.
  destruct (sommetExiste g o) eqn:Ho; [| done].
  apply sommetExiste_trouver in Ho as [l Hl]. rewrite Hl. cbn [mbind option_bind].
  destruct (negb _); [done |]. unfold compte. by destruct (trouver d l).
Qed.

Lemma getCoutArc_forme g o d :
  getCoutArc g o d =
  if negb (sommetExiste g o && sommetExiste g d) then
    Leve (logic_error "arcExiste: Un des sommets n'existe pas!")
  else match arc_stocke g o d with
       | Some a => Retour (vers_int a.1)
       | None => Leve (logic_error "getCoutArc: arc non existant")
       end.
Proof.
  unfold getCoutArc. rewrite arcExiste_forme. fold (arc_stocke g o d).
  destruct (negb _); [done |]. by destruct (arc_stocke g o d).
Qed.

Lemma getTypeArc_forme g o d :
  getTypeArc g o d =
  if negb (sommetExiste g o && sommetExiste g d) then
    Leve (logic_error "arcExiste: Un des sommets n'existe pas!")
  else match arc_stocke g o d with
       | Some a => Retour (vers_int a.2)
       | None => Leve (logic_error "getTypeArc: arc non existant")
       end.
Proof.
  unfold getTypeArc. rewrite arcExiste_forme. fold (arc_stocke g o d).
  destruct (negb _); [done |]. by destruct (arc_stocke g o d).
Qed.

Lemma memes_reponses_si g g' o d :
  sommetExiste g' o = sommetExiste g o →
  sommetExiste g' d = sommetExiste g d →
  arc_stocke g' o d = arc_stocke g o d →
  memes_reponses g g' o d.
Proof.
  intros Ho Hd Ha. unfold memes_reponses.
  by rewrite !arcExiste_forme, !getCoutArc_forme, !getTypeArc_forme, Ho, Hd, Ha.
Qed.

Lemma arcExiste_vrai g o d :
  arcExiste g o d = Retour true ↔
  sommetExiste g o = true ∧ sommetExiste g d = true ∧
  is_Some (arc_stocke g o d).
Proof.
  rewrite arcExiste_forme.
  destruct (sommetExiste g o), (sommetExiste g d), (arc_stocke g o d);
    cbn; split; try done; try (by intros (? & ? & [? ?])).
Qed.

Lemma arcExiste_faux g o d :
  arcExiste g o d = Retour false ↔
  sommetExiste g o = true ∧ sommetExiste g d = true ∧ arc_stocke g o d = None.
Proof.
  rewrite arcExiste_forme.
  destruct (sommetExiste g o), (sommetExiste g d), (arc_stocke g o d);
    cbn; split; try done; by intros (? & ? & ?).
Qed.

Lemma sommetExiste_affecter g k v l nS nA :
  sommetExiste (mkReseau nS nA (affecter v l (m_arcs g))) k
  = if Z.eqb k v then true else sommetExiste g k.
Proof.
  unfold sommetExiste, compte. cbn [m_arcs]. rewrite trouver_affecter.
  by destruct (Z.eqb k v).
Qed.

Lemma arc_stocke_affecter g o d v l nS nA :
  arc_stocke (mkReseau nS nA (affecter v l (m_arcs g))) o d
  = if Z.eqb o v then trouver d l else arc_stocke g o d.
Proof.
  unfold arc_stocke. cbn [m_arcs]. rewrite trouver_affecter.
  by destruct (Z.eqb o v).
Qed.

(** ** The mutators refuse what their preconditions exclude *)

(** X1.  Each mutator ends with a [std::logic_error], and so leaves the
    network as it was, when its precondition fails: [ajouterSommet] on a
    vertex that exists, [enleverSommet] on one that does not, [ajouterArc],
    [enleverArc] and [majCoutArc] when one of the two vertices is missing,
    [ajouterArc] when the arc is already there, [enleverArc] and
    [majCoutArc] when it is not. *)
Theorem mutateurs_erreurs (g : Reseau) (v o d c t : Z) :
  (sommetExiste g v = true → leve_logic_error (ajouterSommet g v)) ∧
  (sommetExiste g v = false → leve_logic_error (enleverSommet g v)) ∧
  (sommetExiste g o = false ∨ sommetExiste g d = false →
     leve_logic_error (ajouterArc g o d c t) ∧
     leve_logic_error (enleverArc g o d) ∧
     leve_logic_error (majCoutArc g o d c)) ∧
  (arcExiste g o d = Retour true → leve_logic_error (ajouterArc g o d c t)) ∧
  (arcExiste g o d = Retour false →
     leve_logic_error (enleverArc g o d) ∧
     leve_logic_error (majCoutArc g o d c)).
Proof.
  split_and!.
  - intros H. unfold ajouterSommet. rewrite H. by eexists.
  - intros H. unfold enleverSommet. rewrite H. by eexists.
  - intros H. pose proof (arcExiste_sommet_absent _ _ _ H) as Ha.
    unfold ajouterArc, enleverArc, majCoutArc. rewrite Ha.
    split_and!; by eexists.
  - intros H. unfold ajouterArc. rewrite H. by eexists.
  - intros H. unfold enleverArc, majCoutArc. rewrite H. split; by eexists.
Qed.

Lemma mutateurs_erreurs_temoin :
  leve_logic_error (ajouterSommet reseau_exemple 1) ∧
  leve_logic_error (enleverSommet reseau_exemple 9) ∧
  (leve_logic_error (ajouterArc reseau_exemple 1 9 7 0) ∧
   leve_logic_error (enleverArc reseau_exemple 1 9) ∧
   leve_logic_error (majCoutArc reseau_exemple 1 9 7)) ∧
  leve_logic_error (ajouterArc reseau_exemple 1 2 7 0) ∧
  (leve_logic_error (enleverArc reseau_exemple 2 1) ∧
   leve_logic_error (majCoutArc reseau_exemple 2 1 7)).
Proof.
  destruct (mutateurs_erreurs reseau_exemple 1 1 9 7 0) as (H1 & _ & H3 & _).
  destruct (mutateurs_erreurs reseau_exemple 9 1 2 7 0) as (_ & H2 & _ & H4 & _).
  destruct (mutateurs_erreurs reseau_exemple 9 2 1 7 0) as (_ & _ & _ & _ & H5).
  split_and!.
  - apply H1. reflexivity.
  - apply H2. reflexivity.
  - apply H3. right. reflexivity.
  - apply H3. right. reflexivity.
  - apply H3. right. reflexivity.
  - apply H4. reflexivity.
  - apply H5. reflexivity.
  - apply H5. reflexivity.
Defined.

(** ** ajouterSommet *)

(** X2.  [ajouterSommet] on a vertex [v] that does not exist returns a
    network in which [v] exists and has no arc to any vertex; the other
    vertices exist as before, [nombreSommets] has grown by one,
    [nombreArcs] is the same, and the three arc queries answer as before
    on every pair of other vertices. *)
Theorem ajouterSommet_effet (g : Reseau) (v : Z) :
  sommetExiste g v = false →
  ∃ g', ajouterSommet g v = Retour g' ∧
        sommetExiste g' v = true ∧
        (∀ k, k ≠ v → sommetExiste g' k = sommetExiste g k) ∧
        nombreSommets g' = nombreSommets g + 1 ∧
        nombreArcs g' = nombreArcs g ∧
        (∀ d, sommetExiste g' d = true → arcExiste g' v d = Retour false) ∧
        (∀ o d, o ≠ v → d ≠ v → memes_reponses g g' o d).
Proof.
  intros Hv. unfold ajouterSommet. rewrite Hv. eexists. split; [done |].
  assert (∀ k, sommetExiste
                 (mkReseau (nbSommets g + 1) (nbArcs g)
                    (affecter v [] (m_arcs g))) k
               = if Z.eqb k v then true else sommetExiste g k) as Hs.
  { intros k. apply sommetExiste_affecter. }
  split_and!.
  - by rewrite Hs, Z.eqb_refl.
  - intros k Hk. rewrite Hs. by destruct (Z.eqb_spec k v).
  - done.
  - done.
  - intros d Hd. apply arcExiste_faux. split_and!; [| done |].
    + by rewrite Hs, Z.eqb_refl.
    + by rewrite arc_stocke_affecter, Z.eqb_refl.
  - intros o d Ho Hd. apply memes_reponses_si.
    + rewrite Hs. by destruct (Z.eqb_spec o v).
    + rewrite Hs. by destruct (Z.eqb_spec d v).
    + rewrite arc_stocke_affecter. by destruct (Z.eqb_spec o v).
Qed.

Lemma ajouterSommet_effet_temoin :
  ∃ g', ajouterSommet reseau_exemple 9 = Retour g' ∧
        sommetExiste g' 9 = true ∧
        (∀ k, k ≠ 9 → sommetExiste g' k = sommetExiste reseau_exemple k) ∧
        nombreSommets g' = nombreSommets reseau_exemple + 1 ∧
        nombreArcs g' = nombreArcs reseau_exemple ∧
        (∀ d, sommetExiste g' d = true → arcExiste g' 9 d = Retour false) ∧
        (∀ o d, o ≠ 9 → d ≠ 9 → memes_reponses reseau_exemple g' o d).
Proof. apply (ajouterSommet_effet reseau_exemple 9). reflexivity. Defined.

(** ** ajouterArc, enleverArc, majCoutArc *)

Lemma arcExiste_faux_table g o d :
  arcExiste g o d = Retour false →
  sommetExiste g o = true ∧ sommetExiste g d = true ∧
  ∃ l, trouver o (m_arcs g) = Some l ∧ trouver d l = None.
Proof.
  intros (Ho & Hd & Ha)%arcExiste_faux. split_and!; try done.
  unfold arc_stocke in Ha.
  destruct (trouver o (m_arcs g)) as [l|] eqn:Hl.
  - by exists l.
  - apply sommetExiste_trouver in Ho as [? ?]. congruence.
Qed.

Lemma arcExiste_vrai_table g o d :
  arcExiste g o d = Retour true →
  sommetExiste g o = true ∧ sommetExiste g d = true ∧
  ∃ l a, trouver o (m_arcs g) = Some l ∧ trouver d l = Some a.
Proof.
  intros (Ho & Hd & [a Ha])%arcExiste_vrai. split_and!; try done.
  unfold arc_stocke in Ha.
  destruct (trouver o (m_arcs g)) as [l|] eqn:Hl; [| done].
  by exists l, a.
Qed.

(** [ajouterArc] on an arc that is not there. *)
Lemma ajouterArc_absent g o d c t l :
  arcExiste g o d = Retour false →
  trouver o (m_arcs g) = Some l →
  ajouterArc g o d c t
  = Retour (mkReseau (nbSommets g) (nbArcs g + 1)
              (affecter o (l ++ [(d, (c, t))]) (m_arcs g))).
Proof.
  intros Ha Hl. unfold ajouterArc. rewrite Ha.
  cbn [mbind issue_bind issue_lier]. unfold crochet. rewrite Hl.
  apply arcExiste_faux_table in Ha as (_ & _ & l' & Hl' & Hd).
  rewrite Hl in Hl'. injection Hl' as <-.
  unfold inserer. by rewrite Hd.
Qed.



(** X4.  [enleverArc] undoes [ajouterArc]: removing the arc just added
    gives back the network as it was before, with its counts and every
    table in the same order. *)
Theorem ajouterArc_enleverArc (g : Reseau) (o d c t : Z) :
  arcExiste g o d = Retour false →
  ∃ g', ajouterArc g o d c t = Retour g' ∧ enleverArc g' o d = Retour g.
Proof.
  intros Ha.
  destruct (arcExiste_faux_table _ _ _ Ha) as (Ho & Hd & l & Hl & Hdl).
  rewrite (ajouterArc_absent g o d c t l Ha Hl).
  eexists. split; [done |].
  set (g' := mkReseau _ _ _).
  assert (arcExiste g' o d = Retour true) as Hex.
  { apply arcExiste_vrai. unfold g'. rewrite !sommetExiste_affecter.
    rewrite Z.eqb_refl, Hd, arc_stocke_affecter, Z.eqb_refl, trouver_app, Hdl.
    cbn [trouver]. rewrite Z.eqb_refl.
    split_and!; [done | by destruct (Z.eqb d o) | by eexists]. }
  destruct (enleverArc_present _ _ _ Hex) as (l' & Hl' & _ & ->).
  unfold g' in *. clear g' Hex.
  cbn [m_arcs nbSommets nbArcs] in *.
  rewrite trouver_affecter, Z.eqb_refl in Hl'. injection Hl' as <-.
  rewrite effacer_dernier, affecter_affecter, affecter_meme by done.
  destruct g as [nS nA m]. cbn. f_equal. f_equal. lia.
Qed.

Lemma ajouterArc_enleverArc_temoin :
  ∃ g', ajouterArc reseau_exemple 2 1 7 3 = Retour g' ∧
        enleverArc g' 2 1 = Retour reseau_exemple.
Proof. apply (ajouterArc_enleverArc reseau_exemple 2 1 7 3). reflexivity. Defined.

Lemma adjacence_unique g o l :
  cles_uniques g → trouver o (m_arcs g) = Some l → NoDup l.*1.
Proof.
  intros [_ Hf] Hl. apply trouver_element in Hl.
  by apply (proj1 (Forall_forall _ _) Hf (o, l)).
Qed.

(** X5.  [enleverArc] on an arc that exists, in a network whose tables
    are maps, returns a network in which the arc no longer exists;
    [nombreArcs] has gone down by one, the vertices are the same, and the
    three arc queries answer as before on every other pair. *)
Theorem enleverArc_effet (g : Reseau) (o d : Z) :
  cles_uniques g →
  arcExiste g o d = Retour true →
  ∃ g', enleverArc g o d = Retour g' ∧
        arcExiste g' o d = Retour false ∧
        nombreArcs g' = nombreArcs g - 1 ∧
        nombreSommets g' = nombreSommets g ∧
        (∀ k, sommetExiste g' k = sommetExiste g k) ∧
        (∀ o' d', (o', d') ≠ (o, d) → memes_reponses g g' o' d').
Proof.
  intros Hu Ha.
  destruct (arcExiste_vrai_table _ _ _ Ha) as (Ho & Hd & _).
  destruct (enleverArc_present _ _ _ Ha) as (l & Hl & Hdl & ->).
  eexists. split; [done |]. set (g' := mkReseau _ _ _).
  assert (∀ k, sommetExiste g' k = sommetExiste g k) as Hs.
  { intros k. unfold g'. rewrite sommetExiste_affecter.
    destruct (Z.eqb_spec k o) as [-> | ?]; done. }
  split_and!; try done.
  - apply arcExiste_faux. rewrite !Hs. split_and!; try done.
    unfold g'. rewrite arc_stocke_affecter, Z.eqb_refl.
    apply trouver_effacer_meme. by eapply adjacence_unique.
  - intros o' d' Hne. apply memes_reponses_si; [apply Hs | apply Hs |].
    unfold g'. rewrite arc_stocke_affecter.
    destruct (Z.eqb_spec o' o) as [-> | ?]; [| done].
    unfold arc_stocke. rewrite Hl. cbn [mbind option_bind].
    apply trouver_effacer_autre. intros ->. by destruct Hne.
Qed.

Lemma cles_uniques_exemple : cles_uniques reseau_exemple.
Proof.
  split.
  - by apply (bool_decide_unpack _).
  - repeat (apply Forall_cons; split; [by apply (bool_decide_unpack _) |]).
    constructor.
Qed.

Lemma enleverArc_effet_temoin :
  ∃ g', enleverArc reseau_exemple 1 3 = Retour g' ∧
        arcExiste g' 1 3 = Retour false ∧
        nombreArcs g' = nombreArcs reseau_exemple - 1 ∧
        nombreSommets g' = nombreSommets reseau_exemple ∧
        (∀ k, sommetExiste g' k = sommetExiste reseau_exemple k) ∧
        (∀ o' d', (o', d') ≠ (1, 3) → memes_reponses reseau_exemple g' o' d').
Proof.
  apply (enleverArc_effet reseau_exemple 1 3);
    [apply cles_uniques_exemple | reflexivity].
Defined.

(** [majCoutArc] on an arc that exists. *)
Lemma majCoutArc_present g o d c l a :
  arcExiste g o d = Retour true →
  trouver o (m_arcs g) = Some l → trouver d l = Some a →
  majCoutArc g o d c
  = Retour (mkReseau (nbSommets g) (nbArcs g)
              (affecter o (affecter d (c, a.2) l) (m_arcs g))).
Proof.
  intros Ha Hl Hd. unfold majCoutArc. rewrite Ha.
  cbn [mbind issue_bind issue_lier negb]. unfold crochet. by rewrite Hl, Hd.
Qed.

(** X6.  [majCoutArc] on an arc that exists changes the cost of that arc
    and nothing else: [getCoutArc] gives the new cost back as [int], the
    counts and the vertices are the same, and on every pair [arcExiste] and
    [getTypeArc] answer as before, as does [getCoutArc] on every other
    pair. *)
Theorem majCoutArc_effet (g : Reseau) (o d c : Z) :
  arcExiste g o d = Retour true →
  ∃ g', majCoutArc g o d c = Retour g' ∧
        getCoutArc g' o d = Retour (vers_int c) ∧
        nombreArcs g' = nombreArcs g ∧
        nombreSommets g' = nombreSommets g ∧
        (∀ k, sommetExiste g' k = sommetExiste g k) ∧
        (∀ o' d', arcExiste g' o' d' = arcExiste g o' d' ∧
                  getTypeArc g' o' d' = getTypeArc g o' d') ∧
        (∀ o' d', (o', d') ≠ (o, d) →
                  getCoutArc g' o' d' = getCoutArc g o' d').
Proof.
  intros Ha.
  destruct (arcExiste_vrai_table _ _ _ Ha) as (Ho & Hd & l & a & Hl & Hdl).
  rewrite (majCoutArc_present g o d c l a Ha Hl Hdl).
  eexists. split; [done |]. set (g' := mkReseau _ _ _).
  assert (∀ k, sommetExiste g' k = sommetExiste g k) as Hs.
  { intros k. unfold g'. rewrite sommetExiste_affecter.
    destruct (Z.eqb_spec k o) as [-> | ?]; done. }
  assert (∀ o' d', arc_stocke g' o' d' =
                   if Z.eqb o' o && Z.eqb d' d then Some (c, a.2)
                   else arc_stocke g o' d') as Harc.
  { intros o' d'. unfold g'. rewrite arc_stocke_affecter, trouver_affecter.
    destruct (Z.eqb_spec o' o) as [-> | ?]; [| done]. cbn [andb].
    destruct (Z.eqb d' d); [done |]. unfold arc_stocke. by rewrite Hl. }
  assert (arc_stocke g o d = Some a) as Hold.
  { unfold arc_stocke. by rewrite Hl. }
  split_and!; try done.
  - by rewrite getCoutArc_forme, !Hs, Ho, Hd, Harc, !Z.eqb_refl.
  - intros o' d'. rewrite !arcExiste_forme, !getTypeArc_forme, !Hs, Harc.
    destruct (Z.eqb_spec o' o) as [-> | ?]; [| done].
    destruct (Z.eqb_spec d' d) as [-> | ?]; [| done].
    cbn [andb]. by rewrite Hold.
  - intros o' d' Hne. rewrite !getCoutArc_forme, !Hs, Harc.
    destruct (Z.eqb_spec o' o) as [-> | ?]; [| done].
    destruct (Z.eqb_spec d' d) as [-> | ?]; [by destruct Hne | done].
Qed.

Lemma majCoutArc_effet_temoin :
  ∃ g', majCoutArc reseau_exemple 1 3 9 = Retour g' ∧
        getCoutArc g' 1 3 = Retour (vers_int 9) ∧
        nombreArcs g' = nombreArcs reseau_exemple ∧
        nombreSommets g' = nombreSommets reseau_exemple ∧
        (∀ k, sommetExiste g' k = sommetExiste reseau_exemple k) ∧
        (∀ o' d', arcExiste g' o' d' = arcExiste reseau_exemple o' d' ∧
                  getTypeArc g' o' d' = getTypeArc reseau_exemple o' d') ∧
        (∀ o' d', (o', d') ≠ (1, 3) →
                  getCoutArc g' o' d' = getCoutArc reseau_exemple o' d').
Proof. apply (majCoutArc_effet reseau_exemple 1 3 9). reflexivity. Defined.

(** ** enleverSommet *)

Lemma affecter_element {V} (k : Z) (v : V) (t : list (Z * V)) (kv : Z * V) :
  kv ∈ affecter k v t → kv ∈ t ∨ kv = (k, v).
Proof.
  induction t as [|[k0 v0] t IH]; cbn [affecter].
  - intros ->%list_elem_of_singleton. by right.
  - destruct (Z.eqb k k0).
    + intros [-> | H]%elem_of_cons; [by right |].
      left. by apply list_elem_of_further.
    + intros [-> | H]%elem_of_cons; [left; apply list_elem_of_here |].
      destruct (IH H) as [? | ?]; [left | by right].
      by apply list_elem_of_further.
Qed.

Lemma total_arcs_affecter g o (l l' : liste_arcs) nS nA :
  trouver o (m_arcs g) = Some l →
  total_arcs (mkReseau nS nA (affecter o l' (m_arcs g)))
  = total_arcs g - Z.of_nat (length l) + Z.of_nat (length l').
Proof.
  intros Hl. unfold total_arcs. cbn [m_arcs].
  pose proof (longueur_concat_affecter o l l' (m_arcs g) Hl). lia.
Qed.

(** The loop of lines 104-109 over distinct origins: the adjacency table of
    each origin loses its entry for [v], nothing else changes, and every
    removal is counted off. *)
Lemma enleverSommet_boucle_effet origines v g :
  NoDup origines →
  (∀ o, o ∈ origines → sommetExiste g o = true) →
  sommetExiste g v = true →
  ∃ g1, enleverSommet_boucle origines v g = Retour g1 ∧
        nbSommets g1 = nbSommets g ∧
        (m_arcs g1).*1 = (m_arcs g).*1 ∧
        (∀ o, trouver o (m_arcs g1)
              = if decide (o ∈ origines)
                then effacer v <$> trouver o (m_arcs g)
                else trouver o (m_arcs g)) ∧
        nbArcs g1 - total_arcs g1 = nbArcs g - total_arcs g.
Proof.
  revert g. induction origines as [|o origines IH]; intros g Hn Ho Hv.
  - exists g. split_and!; try done.
  - apply NoDup_cons in Hn as [Hno Hn]. cbn [enleverSommet_boucle].
    assert (sommetExiste g o = true) as Hso by apply Ho, list_elem_of_here.
    destruct (sommetExiste_trouver g o) as [Hlo _].
    destruct (Hlo Hso) as [lo Hlo']. clear Hlo.
    rewrite arcExiste_forme, Hso, Hv. cbn [andb negb mbind issue_bind issue_lier].
    unfold arc_stocke. rewrite Hlo'. cbn [mbind option_bind].
    destruct (trouver v lo) as [a|] eqn:Hvl.
    + destruct (enleverArc_present g o v) as (lo2 & Hlo2 & _ & ->).
      { apply arcExiste_vrai. split_and!; try done. unfold arc_stocke.
        rewrite Hlo'. cbn [mbind option_bind]. by rewrite Hvl. }
      rewrite Hlo' in Hlo2. injection Hlo2 as <-.
      cbn [mbind issue_bind issue_lier].
      set (g2 := mkReseau _ _ _).
      assert (∀ k, sommetExiste g2 k = sommetExiste g k) as Hs.
      { intros k. unfold g2. rewrite sommetExiste_affecter.
        destruct (Z.eqb_spec k o) as [-> | ?]; done. }
      destruct (IH g2) as (g1 & -> & HnS & Hk & Ht & Hdiff); [done | | |].
      { intros o' Ho'. rewrite Hs. apply Ho. by apply list_elem_of_further. }
      { by rewrite Hs. }
      exists g1. split_and!; try done.
      * rewrite Hk. unfold g2. cbn [m_arcs]. apply affecter_cles. by eexists.
      * intros o'. rewrite Ht. unfold g2. cbn [m_arcs].
        rewrite trouver_affecter.
        destruct (Z.eqb_spec o' o) as [-> | Hne].
        -- rewrite decide_False by done.
           rewrite decide_True by apply list_elem_of_here. by rewrite Hlo'.
        -- destruct (decide (o' ∈ origines)) as [Hin | Hout].
           ++ rewrite decide_True; [done | by apply list_elem_of_further].
           ++ rewrite decide_False; [done |].
              by intros [? | ?]%elem_of_cons.
      * rewrite Hdiff. unfold g2.
        rewrite (total_arcs_affecter g o lo) by done.
        pose proof (longueur_effacer v lo). cbn [nbArcs].
        assert (is_Some (trouver v lo)) as Hi by (by eexists).
        specialize (H Hi). lia.
    + cbn [mbind issue_bind issue_lier].
      destruct (IH g) as (g1 & -> & HnS & Hk & Ht & Hdiff); [done | | done |].
      { intros o' Ho'. apply Ho. by apply list_elem_of_further. }
      exists g1. split_and!; try done.
      intros o'. rewrite Ht.
      destruct (decide (o' = o)) as [-> | Hne].
      * rewrite decide_False by done.
        rewrite decide_True by apply list_elem_of_here.
        rewrite Hlo'. cbn [fmap option_fmap option_map].
        by rewrite effacer_absent.
      * destruct (decide (o' ∈ origines)) as [Hin | Hout].
        -- rewrite decide_True; [done | by apply list_elem_of_further].
        -- rewrite decide_False; [done |].
           by intros [? | ?]%elem_of_cons.
Qed.

(** [enleverSommet] on a vertex that exists, in a network whose tables are
    maps: the tables of the network returned, by key. *)
Lemma enleverSommet_tables g v :
  cles_uniques g → sommetExiste g v = true →
  ∃ g', enleverSommet g v = Retour g' ∧
        nbSommets g' = nbSommets g - 1 ∧
        NoDup (m_arcs g').*1 ∧
        (∀ k, k ∈ (m_arcs g').*1 → k ∈ (m_arcs g).*1) ∧
        S (length (m_arcs g')) = length (m_arcs g) ∧
        (∀ o, trouver o (m_arcs g')
              = if Z.eqb o v then None
                else effacer v <$> trouver o (m_arcs g)) ∧
        nbArcs g' - total_arcs g' >= nbArcs g - total_arcs g.
Proof.
  intros [Hk Hf] Hv. unfold enleverSommet. rewrite Hv. cbn [negb].
  destruct (enleverSommet_boucle_effet (m_arcs g).*1 v g Hk)
    as (g1 & -> & HnS & Hk1 & Ht & Hdiff); [| done |].
  { intros o Ho. by apply sommetExiste_cles. }
  cbn [mbind issue_bind issue_lier]. eexists. split; [done |].
  cbn [nbSommets nbArcs m_arcs].
  assert (∀ o, trouver o (m_arcs g1) = effacer v <$> trouver o (m_arcs g))
    as Ht'.
  { intros o. rewrite Ht. destruct (decide (o ∈ (m_arcs g).*1)) as [? | Hout];
      [done |].
    destruct (trouver o (m_arcs g)) eqn:E; [| done].
    exfalso. apply Hout, trouver_cles. by eexists. }
  assert (is_Some (trouver v (m_arcs g1))) as Hv1.
  { apply trouver_cles. rewrite Hk1. by apply sommetExiste_cles. }
  split_and!.
  - lia.
  - apply effacer_cles_uniques. by rewrite Hk1.
  - intros k [[k1 l1] [Heq Hin]]%list_elem_of_fmap. cbn in Heq. subst k1.
    rewrite <- Hk1. apply list_elem_of_fmap. exists (k, l1). split; [done |].
    by apply (effacer_inclus v).
  - rewrite (longueur_effacer v (m_arcs g1) Hv1).
    by rewrite <- (length_fmap fst (m_arcs g1)), Hk1, length_fmap.
  - intros o. destruct (Z.eqb_spec o v) as [-> | Hne].
    + apply trouver_effacer_meme. by rewrite Hk1.
    + by rewrite trouver_effacer_autre, Ht'.
  - destruct Hv1 as [lv Hlv]. unfold total_arcs in *. cbn [m_arcs].
    pose proof (longueur_concat_effacer v lv (m_arcs g1) Hlv). lia.
Qed.

(** X7.  [enleverSommet] on a vertex [v] that exists, in a network whose
    tables are maps, returns a network in which [v] does not exist and no
    arc arrives at [v]; the other vertices exist as before,
    [nombreSommets] has gone down by one, and the three arc queries answer
    as before on every pair of other vertices. *)
Theorem enleverSommet_effet (g : Reseau) (v : Z) :
  cles_uniques g → sommetExiste g v = true →
  ∃ g', enleverSommet g v = Retour g' ∧
        sommetExiste g' v = false ∧
        (∀ k, k ≠ v → sommetExiste g' k = sommetExiste g k) ∧
        nombreSommets g' = nombreSommets g - 1 ∧
        sans_arc_entrant (m_arcs g') v ∧
        (∀ o d, o ≠ v → d ≠ v → memes_reponses g g' o d).
Proof.
  intros Hu Hv.
  destruct (enleverSommet_tables g v Hu Hv)
    as (g' & Hg' & HnS & Hk & _ & _ & Ht & _).
  exists g'. split; [done |].
  assert (∀ k, k ≠ v → sommetExiste g' k = sommetExiste g k) as Hs.
  { intros k Hne. unfold sommetExiste, compte. rewrite Ht.
    destruct (Z.eqb_spec k v); [done |]. by destruct (trouver k (m_arcs g)). }
  split_and!; try done.
  - unfold sommetExiste, compte. by rewrite Ht, Z.eqb_refl.
  - intros o l Hin. apply (trouver_unique _ _ _ Hk) in Hin. rewrite Ht in Hin.
    destruct (Z.eqb o v); [done |].
    destruct (trouver o (m_arcs g)) as [l0|] eqn:Hl0; [| done].
    injection Hin as <-. apply trouver_effacer_meme.
    by eapply adjacence_unique.
  - intros o d Ho Hd. apply memes_reponses_si; [by apply Hs | by apply Hs |].
    unfold arc_stocke. rewrite Ht. destruct (Z.eqb_spec o v); [done |].
    destruct (trouver o (m_arcs g)) as [l0|]; [| done].
    cbn [fmap option_fmap option_map mbind option_bind].
    by apply trouver_effacer_autre.
Qed.

Lemma enleverSommet_effet_temoin :
  ∃ g', enleverSommet reseau_exemple 3 = Retour g' ∧
        sommetExiste g' 3 = false ∧
        (∀ k, k ≠ 3 → sommetExiste g' k = sommetExiste reseau_exemple k) ∧
        nombreSommets g' = nombreSommets reseau_exemple - 1 ∧
        sans_arc_entrant (m_arcs g') 3 ∧
        (∀ o d, o ≠ 3 → d ≠ 3 → memes_reponses reseau_exemple g' o d).
Proof.
  apply (enleverSommet_effet reseau_exemple 3);
    [apply cles_uniques_exemple | reflexivity].
Defined.

(** X8.  [enleverSommet] undoes [ajouterSommet]: in a network where
    every arc arrives at an existing vertex, removing the vertex just added
    gives back the network as it was before, with its counts and every
    table in the same order. *)
Theorem ajouterSommet_enleverSommet (g : Reseau) (v : Z) :
  arcs_fermes g → sommetExiste g v = false →
  ∃ g', ajouterSommet g v = Retour g' ∧ enleverSommet g' v = Retour g.
Proof.
  intros Hf Hv. unfold ajouterSommet. rewrite Hv. eexists. split; [done |].
  assert (trouver v (m_arcs g) = None) as Htv.
  { destruct (trouver v (m_arcs g)) eqn:E; [| done].
    assert (sommetExiste g v = true); [| congruence].
    apply sommetExiste_trouver. by eexists. }
  rewrite (affecter_absent v [] (m_arcs g) Htv).
  set (g' := mkReseau _ _ _).
  assert (∀ k, sommetExiste g' k = if Z.eqb k v then true else sommetExiste g k)
    as Hs.
  { intros k. unfold g'. rewrite <- (affecter_absent v [] (m_arcs g) Htv).
    apply sommetExiste_affecter. }
  assert (∀ origines g1,
    m_arcs g1 = m_arcs g' → 
    (∀ o, o ∈ origines → sommetExiste g' o = true) →
    enleverSommet_boucle origines v g1 = Retour g1) as Hb.
  { induction origines as [|o origines IH]; intros g1 Hm Ho; [done |].
    cbn [enleverSommet_boucle].
    assert (arcExiste g1 o v = Retour false) as ->.
    { assert (∀ k, sommetExiste g1 k = sommetExiste g' k) as Hs1.
      { intros k. unfold sommetExiste. by rewrite Hm. }
      apply arcExiste_faux. rewrite !Hs1.
      split_and!; [apply Ho, list_elem_of_here | by rewrite Hs, Z.eqb_refl |].
      unfold arc_stocke. rewrite Hm. unfold g'. cbn [m_arcs].
      rewrite trouver_app.
      destruct (trouver o (m_arcs g)) as [l|] eqn:Hl.
      - cbn [mbind option_bind].
        destruct (trouver v l) as [a|] eqn:Hvl; [| done].
        assert (sommetExiste g v = true); [| congruence].
        eapply Hf; by apply trouver_element.
      - cbn [trouver]. by destruct (Z.eqb o v). }
    cbn [mbind issue_bind issue_lier]. apply IH; [done |].
    intros o' Ho'. apply Ho. by apply list_elem_of_further. }
  unfold enleverSommet. rewrite Hs, Z.eqb_refl. cbn [negb].
  rewrite Hb; [| done |].
  - cbn [mbind issue_bind issue_lier]. unfold g'. cbn [nbSommets nbArcs m_arcs].
    rewrite effacer_dernier by done.
    destruct g as [nS nA m]. cbn. f_equal. f_equal. lia.
  - intros o Ho. by apply sommetExiste_cles.
Qed.

Lemma arcs_fermes_calcul g : arcs_fermes_b g = true → arcs_fermes g.
Proof.
  unfold arcs_fermes_b. rewrite forallb_forall. intros H o l d a Ho Hd.
  specialize (H (o, l)). rewrite forallb_forall in H.
  apply (H (proj1 (list_elem_of_In _ _) Ho) (d, a)).
  by apply list_elem_of_In.
Qed.

Lemma ajouterSommet_enleverSommet_temoin :
  ∃ g', ajouterSommet reseau_exemple 9 = Retour g' ∧
        enleverSommet g' 9 = Retour reseau_exemple.
Proof.
  apply (ajouterSommet_enleverSommet reseau_exemple 9);
    [by apply arcs_fermes_calcul | reflexivity].
Defined.

(** ** What every network built by the interface satisfies *)

Lemma Forall_affecter {V} (P : Z * V → Prop) (k : Z) (v : V) (t : list (Z * V)) :
  Forall P t → P (k, v) → Forall P (affecter k v t).
Proof.
  intros Ht Hv. apply Forall_forall. intros kv [Hin | ->]%affecter_element;
    [| done].
  by apply (proj1 (Forall_forall _ _) Ht).
Qed.

Lemma longueur_affecter {V} (k : Z) (v : V) (t : list (Z * V)) :
  is_Some (trouver k t) → length (affecter k v t) = length t.
Proof.
  intros H. by rewrite <- (length_fmap fst), affecter_cles, length_fmap.
Qed.

(** A change of the adjacency table of an existing vertex [o] keeps the
    network well formed when the new table is a map whose destinations
    exist. *)
Lemma bien_forme_affecter g o l' nA :
  bien_forme g → is_Some (trouver o (m_arcs g)) →
  NoDup l'.*1 →
  (∀ d a, (d, a) ∈ l' → sommetExiste g d = true) →
  bien_forme (mkReseau (nbSommets g) nA (affecter o l' (m_arcs g))).
Proof.
  intros (Hn & Hu & [Hk Hf] & Hc) Ho Hl' Hd.
  assert (∀ k, sommetExiste
                 (mkReseau (nbSommets g) nA (affecter o l' (m_arcs g))) k
               = sommetExiste g k) as Hs.
  { intros k. rewrite sommetExiste_affecter.
    destruct (Z.eqb_spec k o) as [-> | ?]; [| done].
    symmetry. by apply sommetExiste_trouver. }
  unfold bien_forme, cles_uniques. cbn [nbSommets m_arcs].
  rewrite affecter_cles, longueur_affecter by done.
  split_and!; try done.
  - by apply Forall_affecter.
  - intros o' l d a [Hin | [= -> ->]]%affecter_element Hda; rewrite Hs.
    + by eapply Hc.
    + by eapply Hd.
Qed.

Lemma ajouterSommet_bien_forme g v g' :
  bien_forme g → est_unsigned v →
  ajouterSommet g v = Retour g' → bien_forme g'.
Proof.
  intros (Hn & Hu & [Hk Hf] & Hc) Hv. unfold ajouterSommet.
  destruct (sommetExiste g v) eqn:Hex; [done |]. intros [= <-].
  assert (trouver v (m_arcs g) = None) as Htv.
  { destruct (trouver v (m_arcs g)) eqn:E; [| done].
    assert (sommetExiste g v = true); [| congruence].
    apply sommetExiste_trouver. by eexists. }
  assert (v ∉ (m_arcs g).*1) as Hnv.
  { intros H%trouver_cles. rewrite Htv in H. by destruct H. }
  unfold bien_forme, cles_uniques, arcs_fermes.
  cbn [nbSommets m_arcs]. rewrite (affecter_absent v [] (m_arcs g) Htv).
  rewrite fmap_app, length_app. cbn [fmap list_fmap fst length].
  split_and!.
  - lia.
  - apply Forall_app. split; [done |]. by apply Forall_singleton.
  - apply NoDup_app. split_and!; [done | | apply NoDup_singleton].
    intros k Hk' ->%list_elem_of_singleton. done.
  - apply Forall_app. split; [done |]. apply Forall_singleton. apply NoDup_nil_2.
  - intros o l d a [Hin | [= -> ->]%list_elem_of_singleton]%elem_of_app Hda.
    + rewrite <- (affecter_absent v [] (m_arcs g) Htv).
      rewrite sommetExiste_affecter. destruct (Z.eqb d v); [done |].
      by eapply Hc.
    + by apply elem_of_nil in Hda.
Qed.

Lemma ajouterArc_bien_forme g o d c t g' :
  bien_forme g → ajouterArc g o d c t = Retour g' → bien_forme g'.
Proof.
  intros Hg Hadd.
  assert (arcExiste g o d = Retour false) as Ha.
  { unfold ajouterArc in Hadd.
    destruct (arcExiste g o d) as [[]| | |]; done. }
  destruct (arcExiste_faux_table _ _ _ Ha) as (Ho & Hd & l & Hl & Hdl).
  rewrite (ajouterArc_absent g o d c t l Ha Hl) in Hadd. injection Hadd as <-.
  apply bien_forme_affecter; [done | by eexists | |].
  - rewrite fmap_app. apply NoDup_app. split_and!.
    + destruct Hg as (_ & _ & Hu & _). by eapply adjacence_unique.
    + intros k Hk' ->%list_elem_of_singleton.
      apply trouver_cles in Hk' as [? H]. cbn [fst] in H. congruence.
    + apply NoDup_singleton.
  - intros d' a [Hin | [= -> ->]%list_elem_of_singleton]%elem_of_app; [| done].
    destruct Hg as (_ & _ & _ & Hc). eapply Hc; [| done].
    by apply trouver_element.
Qed.

Lemma enleverArc_bien_forme g o d g' :
  bien_forme g → enleverArc g o d = Retour g' → bien_forme g'.
Proof.
  intros Hg Hrem.
  assert (arcExiste g o d = Retour true) as Ha.
  { unfold enleverArc in Hrem.
    destruct (arcExiste g o d) as [[]| | |]; done. }
  destruct (enleverArc_present _ _ _ Ha) as (l & Hl & _ & Heq).
  rewrite Heq in Hrem. injection Hrem as <-.
  apply bien_forme_affecter; [done | by eexists | |].
  - apply effacer_cles_uniques.
    destruct Hg as (_ & _ & Hu & _). by eapply adjacence_unique.
  - intros d' a Hin%effacer_inclus.
    destruct Hg as (_ & _ & _ & Hc). eapply Hc; [| done].
    by apply trouver_element.
Qed.

Lemma majCoutArc_bien_forme g o d c g' :
  bien_forme g → majCoutArc g o d c = Retour g' → bien_forme g'.
Proof.
  intros Hg Hmaj.
  assert (arcExiste g o d = Retour true) as Ha.
  { unfold majCoutArc in Hmaj.
    destruct (arcExiste g o d) as [[]| | |]; done. }
  destruct (arcExiste_vrai_table _ _ _ Ha) as (Ho & Hd & l & a & Hl & Hdl).
  rewrite (majCoutArc_present g o d c l a Ha Hl Hdl) in Hmaj.
  injection Hmaj as <-.
  apply bien_forme_affecter; [done | by eexists | |].
  - rewrite affecter_cles by (by eexists).
    destruct Hg as (_ & _ & Hu & _). by eapply adjacence_unique.
  - intros d' a' [Hin | [= -> ->]]%affecter_element; [| done].
    destruct Hg as (_ & _ & _ & Hc). eapply Hc; [| done].
    by apply trouver_element.
Qed.

Lemma enleverSommet_bien_forme g v g' :
  bien_forme g → enleverSommet g v = Retour g' → bien_forme g'.
Proof.
  intros (Hn & Hu & Hcu & Hc) Hrem.
  assert (sommetExiste g v = true) as Hv.
  { unfold enleverSommet in Hrem. by destruct (sommetExiste g v). }
  destruct (enleverSommet_tables g v Hcu Hv)
    as (g1 & Hg1 & HnS & Hk & Hsub & Hlen & Ht & _).
  rewrite Hg1 in Hrem. injection Hrem as <-.
  assert (∀ o l, (o, l) ∈ m_arcs g1 →
                 o ≠ v ∧ ∃ l0, trouver o (m_arcs g) = Some l0 ∧
                               l = effacer v l0) as Hel.
  { intros o l Hin. apply (trouver_unique _ _ _ Hk) in Hin.
    rewrite Ht in Hin. destruct (Z.eqb_spec o v); [done |].
    destruct (trouver o (m_arcs g)) as [l0|]; [| done].
    injection Hin as <-. split; [done |]. by exists l0. }
  unfold bien_forme, cles_uniques. split_and!.
  - lia.
  - apply Forall_forall. intros k Hk'.
    by apply (proj1 (Forall_forall _ _) Hu), Hsub.
  - done.
  - apply Forall_forall. intros [o l] Hin.
    destruct (Hel _ _ Hin) as (_ & l0 & Hl0 & ->). cbn [snd].
    apply effacer_cles_uniques. by eapply adjacence_unique.
  - intros o l d a Hin Hda.
    destruct (Hel _ _ Hin) as (_ & l0 & Hl0 & ->).
    assert (d ≠ v) as Hdv.
    { apply (trouver_absent v (effacer v l0) (d, a)); [| done].
      apply trouver_effacer_meme. by eapply adjacence_unique. }
    unfold sommetExiste, compte. rewrite Ht.
    destruct (Z.eqb_spec d v); [done |].
    assert (sommetExiste g d = true) as Hd.
    { eapply Hc; [by apply trouver_element | by eapply effacer_inclus]. }
    apply sommetExiste_trouver in Hd as [ld ->]. done.
Qed.

Lemma bien_forme_vide : bien_forme vide.
Proof.
  unfold bien_forme, cles_uniques, arcs_fermes. cbn.
  split_and!; try done; try constructor.
  by intros o l d a ?%elem_of_nil.
Qed.

(** Every network built by the interface is well formed. *)
Lemma accessible_invariant (g : Reseau) : accessible g → bien_forme g.
Proof.
  induction 1 as [| g v g' _ IH Hv H | g o d c t g' _ IH _ _ H
                  | g v g' _ IH H | g o d g' _ IH H | g o d c g' _ IH _ H].
  - apply bien_forme_vide.
  - by eapply ajouterSommet_bien_forme.
  - by eapply ajouterArc_bien_forme.
  - by eapply enleverSommet_bien_forme.
  - by eapply enleverArc_bien_forme.
  - by eapply majCoutArc_bien_forme.
Qed.

Lemma construire_sommets_accessible sommets g g' :
  accessible g → Forall est_unsigned sommets →
  foldl (λ (r : issue Reseau) s, g ← r; ajouterSommet g s) (Retour g) sommets
  = Retour g' →
  accessible g'.
Proof.
  revert g. induction sommets as [|s l IH]; intros g Hg Hl; cbn [foldl].
  - by intros [= <-].
  - apply Forall_cons in Hl as [Hs Hl]. cbn [mbind issue_bind issue_lier].
    destruct (ajouterSommet g s) as [g1| | |] eqn:E.
    + apply IH; [| done]. by eapply acc_ajouterSommet.
    + intros H. exfalso. clear -H. induction l as [|? l IHl]; [done |].
      by apply IHl.
    + intros H. exfalso. clear -H. induction l as [|? l IHl]; [done |].
      by apply IHl.
    + intros H. exfalso. clear -H. induction l as [|? l IHl]; [done |].
      by apply IHl.
Qed.

Lemma construire_arcs_accessible (arcs : list (Z * Z * Z * Z)) g g' :
  accessible g →
  Forall (λ a, est_unsigned a.1.2 ∧ est_unsigned a.2) arcs →
  foldl (λ (r : issue Reseau) a,
           g ← r; ajouterArc g a.1.1.1 a.1.1.2 a.1.2 a.2) (Retour g) arcs
  = Retour g' →
  accessible g'.
Proof.
  revert g. induction arcs as [|a l IH]; intros g Hg Hl; cbn [foldl].
  - by intros [= <-].
  - apply Forall_cons in Hl as [[Hc Ht] Hl]. cbn [mbind issue_bind issue_lier].
    destruct (ajouterArc g a.1.1.1 a.1.1.2 a.1.2 a.2) as [g1| | |] eqn:E.
    + apply IH; [| done].
      by apply (acc_ajouterArc g a.1.1.1 a.1.1.2 a.1.2 a.2).
    + intros H. exfalso. clear -H. induction l as [|? l IHl]; [done |].
      by apply IHl.
    + intros H. exfalso. clear -H. induction l as [|? l IHl]; [done |].
      by apply IHl.
    + intros H. exfalso. clear -H. induction l as [|? l IHl]; [done |].
      by apply IHl.
Qed.

(** What [construire] returns is built by the interface. *)
Lemma construire_accessible sommets (arcs : list (Z * Z * Z * Z)) g :
  Forall est_unsigned sommets →
  Forall (λ a, est_unsigned a.1.2 ∧ est_unsigned a.2) arcs →
  construire sommets arcs = Retour g → accessible g.
Proof.
  intros Hs Ha. unfold construire.
  destruct (foldl _ (Retour vide) sommets) as [g1| | |] eqn:E; try done.
  cbn [mbind issue_bind issue_lier].
  apply construire_arcs_accessible; [| done].
  eapply construire_sommets_accessible; [apply acc_vide | done | exact E].
Qed.

Lemma accessible_exemple : accessible reseau_exemple.
Proof.
  eapply construire_accessible; [| | apply reseau_exemple_construit].
  - repeat (apply Forall_cons; split; [unfold est_unsigned; lia |]).
    constructor.
  - repeat (apply Forall_cons; split; [unfold est_unsigned; cbn; lia |]).
    constructor.
Qed.

(** ** The costs of the networks built by the interface *)

Lemma couts_unsigned_table g o l :
  couts_unsigned g → trouver o (m_arcs g) = Some l →
  Forall (λ da : Z * (Z * Z), est_unsigned da.2.1) l.
Proof.
  intros Hc Hl%trouver_element.
  apply (proj1 (Forall_forall _ _) Hc (o, l) Hl).
Qed.

Lemma couts_unsigned_affecter g o l' nS nA :
  couts_unsigned g →
  Forall (λ da : Z * (Z * Z), est_unsigned da.2.1) l' →
  couts_unsigned (mkReseau nS nA (affecter o l' (m_arcs g))).
Proof.
  intros Hc Hl. unfold couts_unsigned. cbn [m_arcs]. by apply Forall_affecter.
Qed.

Lemma Forall_effacer {V} (P : Z * V → Prop) (k : Z) (t : list (Z * V)) :
  Forall P t → Forall P (effacer k t).
Proof.
  intros Ht. apply Forall_forall. intros kv Hkv%effacer_inclus.
  by apply (proj1 (Forall_forall _ _) Ht).
Qed.

(** Every cost stored by [ajouterArc] or [majCoutArc] is the
    [unsigned int] that was passed. *)
Lemma accessible_couts (g : Reseau) : accessible g → couts_unsigned g.
Proof.
  induction 1 as [| g v g' _ IH Hv H | g o d c t g' _ IH Hc _ H
                  | g v g' Hacc IH H | g o d g' _ IH H
                  | g o d c g' _ IH Hc H].
  - unfold couts_unsigned, vide. cbn [m_arcs]. constructor.
  - unfold ajouterSommet in H. destruct (sommetExiste g v); [done |].
    injection H as <-. apply couts_unsigned_affecter; [done | constructor].
  - assert (arcExiste g o d = Retour false) as Ha.
    { unfold ajouterArc in H. destruct (arcExiste g o d) as [[]| | |]; done. }
    destruct (arcExiste_faux_table _ _ _ Ha) as (_ & _ & l & Hl & _).
    rewrite (ajouterArc_absent g o d c t l Ha Hl) in H. injection H as <-.
    apply couts_unsigned_affecter; [done |].
    apply Forall_app. split; [by eapply couts_unsigned_table |].
    by apply Forall_singleton.
  - pose proof (accessible_invariant g Hacc) as (_ & _ & Hcu & _).
    assert (sommetExiste g v = true) as Hex.
    { unfold enleverSommet in H. by destruct (sommetExiste g v). }
    destruct (enleverSommet_tables g v Hcu Hex)
      as (g1 & Hg1 & _ & Hk & _ & _ & Ht & _).
    rewrite Hg1 in H. injection H as <-.
    apply Forall_forall. intros [o l] Hin.
    apply (trouver_unique _ _ _ Hk) in Hin. rewrite Ht in Hin.
    destruct (Z.eqb o v); [done |].
    destruct (trouver o (m_arcs g)) as [l0|] eqn:Hl0; [| done].
    injection Hin as <-. cbn [snd].
    apply Forall_effacer. by eapply couts_unsigned_table.
  - assert (arcExiste g o d = Retour true) as Ha.
    { unfold enleverArc in H. destruct (arcExiste g o d) as [[]| | |]; done. }
    destruct (enleverArc_present _ _ _ Ha) as (l & Hl & _ & Heq).
    rewrite Heq in H. injection H as <-.
    apply couts_unsigned_affecter; [done |].
    apply Forall_effacer. by eapply couts_unsigned_table.
  - assert (arcExiste g o d = Retour true) as Ha.
    { unfold majCoutArc in H. destruct (arcExiste g o d) as [[]| | |]; done. }
    destruct (arcExiste_vrai_table _ _ _ Ha) as (_ & _ & l & a & Hl & Hdl).
    rewrite (majCoutArc_present g o d c l a Ha Hl Hdl) in H.
    injection H as <-.
    apply couts_unsigned_affecter; [done |].
    apply Forall_affecter; [by eapply couts_unsigned_table | done].
Qed.

(** X9.  In every network that the interface builds from the empty one,
    [nombreSommets] is the number of vertices stored, no vertex and no arc
    is stored twice, every vertex and every cost is an [unsigned int], and
    every arc arrives at a vertex that exists. *)
Theorem accessible_bien_forme (g : Reseau) :
  accessible g → bien_forme g ∧ couts_unsigned g.
Proof.
  intros Hacc. split.
  - induction Hacc as [| g v g' _ IH Hv H | g o d c t g' _ IH _ _ H
                       | g v g' _ IH H | g o d g' _ IH H
                       | g o d c g' _ IH _ H].
    + apply bien_forme_vide.
    + by eapply ajouterSommet_bien_forme.
    + by eapply ajouterArc_bien_forme.
    + by eapply enleverSommet_bien_forme.
    + by eapply enleverArc_bien_forme.
    + by eapply majCoutArc_bien_forme.
  - by apply accessible_couts.
Qed.

Lemma accessible_bien_forme_temoin :
  bien_forme reseau_exemple ∧ couts_unsigned reseau_exemple.
Proof. apply (accessible_bien_forme reseau_exemple), accessible_exemple. Defined.

(** ** nombreArcs and the arcs stored *)

Lemma ajouterSommet_compte g v g' :
  ajouterSommet g v = Retour g' →
  nombreArcs g' - total_arcs g' = nombreArcs g - total_arcs g.
Proof.
  unfold ajouterSommet. destruct (sommetExiste g v) eqn:Hex; [done |].
  intros [= <-].
  assert (trouver v (m_arcs g) = None) as Htv.
  { destruct (trouver v (m_arcs g)) eqn:E; [| done].
    assert (sommetExiste g v = true); [| congruence].
    apply sommetExiste_trouver. by eexists. }
  unfold nombreArcs, total_arcs. cbn [nbArcs m_arcs].
  rewrite (affecter_absent v [] (m_arcs g) Htv), fmap_app, concat_app.
  cbn. by rewrite !app_nil_r.
Qed.

Lemma ajouterArc_compte g o d c t g' :
  ajouterArc g o d c t = Retour g' →
  nombreArcs g' - total_arcs g' = nombreArcs g - total_arcs g.
Proof.
  intros Hadd.
  assert (arcExiste g o d = Retour false) as Ha.
  { unfold ajouterArc in Hadd.
    destruct (arcExiste g o d) as [[]| | |]; done. }
  destruct (arcExiste_faux_table _ _ _ Ha) as (_ & _ & l & Hl & _).
  rewrite (ajouterArc_absent g o d c t l Ha Hl) in Hadd. injection Hadd as <-.
  unfold nombreArcs. rewrite (total_arcs_affecter g o l) by done.
  cbn [nbArcs]. rewrite length_app. cbn [length]. lia.
Qed.

Lemma enleverArc_compte g o d g' :
  enleverArc g o d = Retour g' →
  nombreArcs g' - total_arcs g' = nombreArcs g - total_arcs g.
Proof.
  intros Hrem.
  assert (arcExiste g o d = Retour true) as Ha.
  { unfold enleverArc in Hrem.
    destruct (arcExiste g o d) as [[]| | |]; done. }
  destruct (enleverArc_present _ _ _ Ha) as (l & Hl & Hd & Heq).
  rewrite Heq in Hrem. injection Hrem as <-.
  unfold nombreArcs. rewrite (total_arcs_affecter g o l) by done.
  cbn [nbArcs]. pose proof (longueur_effacer d l Hd). lia.
Qed.

Lemma majCoutArc_compte g o d c g' :
  majCoutArc g o d c = Retour g' →
  nombreArcs g' - total_arcs g' = nombreArcs g - total_arcs g.
Proof.
  intros Hmaj.
  assert (arcExiste g o d = Retour true) as Ha.
  { unfold majCoutArc in Hmaj.
    destruct (arcExiste g o d) as [[]| | |]; done. }
  destruct (arcExiste_vrai_table _ _ _ Ha) as (_ & _ & l & a & Hl & Hdl).
  rewrite (majCoutArc_present g o d c l a Ha Hl Hdl) in Hmaj.
  injection Hmaj as <-.
  unfold nombreArcs. rewrite (total_arcs_affecter g o l) by done.
  cbn [nbArcs]. rewrite longueur_affecter by (by eexists). lia.
Qed.

(** X10.  [ajouterSommet], [ajouterArc], [enleverArc] and [majCoutArc]
    keep [nombreArcs] in step with the arcs stored: when [nombreArcs] is
    the number of stored arcs before one of them returns, it is so
    after. *)
Theorem compte_arcs_conserve (g g' : Reseau) :
  nombreArcs g = total_arcs g →
  (∃ v, ajouterSommet g v = Retour g') ∨
  (∃ o d c t, ajouterArc g o d c t = Retour g') ∨
  (∃ o d, enleverArc g o d = Retour g') ∨
  (∃ o d c, majCoutArc g o d c = Retour g') →
  nombreArcs g' = total_arcs g'.
Proof.
  intros Hg [[v H] | [(o & d & c & t & H) | [(o & d & H) | (o & d & c & H)]]].
  - apply ajouterSommet_compte in H. lia.
  - apply ajouterArc_compte in H. lia.
  - apply enleverArc_compte in H. lia.
  - apply majCoutArc_compte in H. lia.
Qed.

Lemma compte_arcs_conserve_temoin :
  nombreArcs (mkReseau 4 3
                [(1, [(2, (1, 0))]); (2, [(3, (2, 0))]);
                 (3, [(4, (1, 0))]); (4, [])])
  = total_arcs (mkReseau 4 3
                  [(1, [(2, (1, 0))]); (2, [(3, (2, 0))]);
                   (3, [(4, (1, 0))]); (4, [])]).
Proof.
  apply (compte_arcs_conserve reseau_exemple); [reflexivity |].
  right. right. left. exists 1, 3. reflexivity.
Defined.



(** X12.  In every network that the interface builds from the empty
    one, [estVide] answers true exactly when no vertex exists. *)
Theorem estVide_accessible (g : Reseau) :
  accessible g → (estVide g = true ↔ ∀ v, sommetExiste g v = false).
Proof.
  intros (Hn & _)%accessible_invariant. unfold estVide. rewrite Hn.
  destruct (m_arcs g) as [|[k l] m] eqn:Hm; cbn [length].
  - split; [| done]. intros _ v. unfold sommetExiste. by rewrite Hm.
  - split; [intros H%Z.eqb_eq; lia |].
    intros H. specialize (H k). unfold sommetExiste, compte in H.
    rewrite Hm in H. cbn [trouver] in H. by rewrite Z.eqb_refl in H.
Qed.

Lemma estVide_accessible_temoin :
  estVide reseau_exemple = true ↔ ∀ v, sommetExiste reseau_exemple v = false.
Proof. apply (estVide_accessible reseau_exemple), accessible_exemple. Defined.

(** ** dijkstra: the relaxations of one vertex *)

Lemma vers_unsigned_vers_int x :
  est_unsigned x → vers_unsigned (vers_int x) = x.
Proof.
  unfold est_unsigned, vers_unsigned, vers_int. intros Hx.
  destruct (Z_lt_ge_dec x 2147483648).
  - rewrite (Z.mod_small (x + 2147483648)) by lia.
    rewrite Z.mod_small; lia.
  - replace (x + 2147483648) with (x - 2147483648 + 1 * 4294967296) by lia.
    rewrite Z.mod_add, (Z.mod_small (x - 2147483648)) by lia.
    replace (x - 2147483648 - 2147483648) with (x + (-1) * 4294967296) by lia.
    rewrite Z.mod_add, Z.mod_small; lia.
Qed.

(** Lines 214-222: after the relaxations from [x], a vertex has the
    distance and the predecessor it had, or it is a vertex of [q] adjacent
    to [x] whose predecessor is now [x] and whose distance has gone
    down. *)
Lemma dijkstra_relacher_tous_effet q x voisins dp v :
  let dp' := fold_left (dijkstra_relacher q x) voisins dp in
  (lire dp'.1 v = lire dp.1 v ∧ lire dp'.2 v = lire dp.2 v) ∨
  (v ∈ q ∧ (∃ a, (v, a) ∈ voisins) ∧
   lire dp'.2 v = vers_int x ∧ lire dp'.1 v < lire dp.1 v).
Proof.
  cbn zeta. revert dp. induction voisins as [|u l IH]; intros dp; [by left |].
  cbn [fold_left].
  assert ((lire (dijkstra_relacher q x dp u).1 v = lire dp.1 v ∧
           lire (dijkstra_relacher q x dp u).2 v = lire dp.2 v) ∨
          (v ∈ q ∧ v = u.1 ∧
           lire (dijkstra_relacher q x dp u).2 v = vers_int x ∧
           lire (dijkstra_relacher q x dp u).1 v < lire dp.1 v)) as Hu.
  { unfold dijkstra_relacher. case_bool_decide as Hq; [| by left].
    destruct (Z.ltb_spec (vers_int (u.2.1 + lire dp.1 x)) (lire dp.1 u.1))
      as [Hlt | ?]; [| by left].
    cbn [fst snd]. rewrite !lire_insert.
    destruct (decide (u.1 = v)) as [<- | ?]; [by right | by left]. }
  destruct (IH (dijkstra_relacher q x dp u)) as [[H1 H2] | (Hq & [a Ha] & H2 & H1)].
  - destruct Hu as [[H3 H4] | (Hq & -> & H4 & H3)].
    + left. by rewrite H1, H2.
    + right. rewrite H1, H2. split_and!; try done.
      exists u.2. destruct u. apply list_elem_of_here.
  - right. split_and!; try done.
    + exists a. by apply list_elem_of_further.
    + destruct Hu as [[H3 H4] | (_ & _ & _ & H3)]; lia.
Qed.

(** ** dijkstra always returns *)

(** While the destination waits in [Q], the loop returns, and its state
    stays organised around the list [E] of the vertices already taken out
    of [Q], the latest first. *)
Lemma dijkstra_boucle_chaine arcs d n e E :
  dj_arcs e = arcs →
  (∀ x, x ∈ dj_Q e → is_Some (trouver x arcs)) →
  (∀ x, x ∈ E → is_Some (trouver x arcs) ∧ x ∉ dj_Q e) →
  (∀ k, is_Some (trouver k arcs) → k ∈ E ∨ k ∈ dj_Q e) →
  chaine_predecesseurs (dj_predecesseurs e) E →
  (∀ v, v ∈ dj_Q e →
        lire (dj_predecesseurs e) v = -1 ∨
        ∃ u, lire (dj_predecesseurs e) v = vers_int u ∧ u ∈ E) →
  d ∈ dj_Q e →
  ∃ e' E',
    dijkstra_boucle n d e = (true, e') ∧
    (∀ x, x ∈ E' → is_Some (trouver x arcs)) ∧
    (∀ k, is_Some (trouver k arcs) → k ∈ E' ∨ k ∈ dj_Q e') ∧
    chaine_predecesseurs (dj_predecesseurs e') E' ∧
    (∀ v, v ∈ dj_Q e' →
          lire (dj_predecesseurs e') v = -1 ∨
          ∃ u, lire (dj_predecesseurs e') v = vers_int u ∧ u ∈ E').
Proof.
  revert e E. induction n as [|n IH]; intros e E Ha HQ HE Hk Hc Hp Hd.
  - exists e, E. split_and!; try done. intros x Hx. by apply HE.
  - cbn [dijkstra_boucle].
    destruct (noeud_minimal_existe (dj_distances e) _ _ Hd) as [x Hx].
    rewrite Hx. pose proof (noeud_minimal_dans_Q _ _ _ Hx) as HxQ.
    assert (∀ v, v ∈ Q_effacer x (dj_Q e) ↔ v ∈ dj_Q e ∧ v ≠ x) as HQ'.
    { intros v. unfold Q_effacer. rewrite list_elem_of_filter. tauto. }
    assert (x ∉ E) as HxE by (intros H; by apply HE in H as [_ ?]).
    assert (∀ pred',
      (∀ v, v ∉ Q_effacer x (dj_Q e) →
            lire pred' v = lire (dj_predecesseurs e) v) →
      chaine_predecesseurs pred' (x :: E)) as Hchaine.
    { intros pred' Hsame l1 v l2 Heq.
      destruct l1 as [|y l1]; cbn [app] in Heq; injection Heq as <- Heq.
      - subst l2. rewrite Hsame by (rewrite HQ'; tauto). by apply Hp.
      - subst E. rewrite Hsame.
        + by apply (Hc l1 v l2).
        + rewrite HQ'. intros [Hv _].
          assert (v ∈ l1 ++ v :: l2) as Hin.
          { apply elem_of_app. right. apply list_elem_of_here. }
          by apply HE in Hin as [_ ?]. }
    destruct (Z.eqb_spec x d) as [-> | Hne].
    + eexists _, (d :: E). split; [done |]. cbn [dj_Q dj_predecesseurs].
      split_and!.
      * intros y [-> | Hy]%elem_of_cons; [by apply HQ | by apply HE].
      * intros k Hkk. destruct (decide (k = d)) as [-> | ?];
          [left; apply list_elem_of_here |].
        destruct (Hk k Hkk) as [? | ?];
          [left; by apply list_elem_of_further | right; by apply HQ'].
      * by apply Hchaine.
      * intros v [Hv _]%HQ'.
        destruct (Hp v Hv) as [? | (u & ? & ?)]; [by left |].
        right. exists u. split; [done | by apply list_elem_of_further].
    + pose proof (crochet_present [] x (dj_arcs e)) as Hcr.
      rewrite Ha in *. specialize (Hcr (HQ _ HxQ)).
      destruct (crochet [] x arcs) as [voisins arcs']. cbn [snd] in Hcr.
      subst arcs'.
      set (dp' := fold_left _ voisins _).
      pose proof (λ v, dijkstra_relacher_tous_effet (Q_effacer x (dj_Q e)) x
                         voisins (dj_distances e, dj_predecesseurs e) v)
        as Heff. cbn zeta in Heff. fold dp' in Heff. cbn [fst snd] in Heff.
      destruct (IH (mkDijkstra dp'.1 dp'.2 (Q_effacer x (dj_Q e)) arcs)
                  (x :: E)) as (e' & E' & He' & Hrest);
        cbn [dj_arcs dj_Q dj_predecesseurs]; try done.
      * intros y [Hy _]%HQ'. by apply HQ.
      * intros y [-> | Hy]%elem_of_cons.
        -- split; [by apply HQ |]. rewrite HQ'. tauto.
        -- split; [by apply HE |]. rewrite HQ'. intros [? _].
           by apply HE in Hy as [_ ?].
      * intros k Hkk. destruct (decide (k = x)) as [-> | ?];
          [left; apply list_elem_of_here |].
        destruct (Hk k Hkk) as [? | ?];
          [left; by apply list_elem_of_further | right; by apply HQ'].
      * apply Hchaine. intros v Hv.
        destruct (Heff v) as [[_ ?] | (? & _)]; done.
      * intros v Hv. destruct (Heff v) as [[_ ->] | (_ & _ & -> & _)].
        -- apply HQ' in Hv as [Hv _].
           destruct (Hp v Hv) as [? | (u & ? & ?)]; [by left |].
           right. exists u. split; [done | by apply list_elem_of_further].
        -- right. exists x. split; [done | apply list_elem_of_here].
      * by apply HQ'.
      * by exists e', E'.
Qed.

(** The walk of lines 229-232 from a vertex of [E] ends: each step goes to a
    vertex taken out of [Q] earlier. *)
Lemma remonter_chaine pred E n :
  chaine_predecesseurs pred E →
  (∀ x, x ∈ E → est_unsigned x) →
  ∀ l1 u l2 acc,
    E = l1 ++ u :: l2 → (length l2 < n)%nat →
    is_Some (remonter n pred (vers_int u) acc).
Proof.
  intros Hc Hu. induction n as [|n IH]; intros l1 u l2 acc HE Hlen; [lia |].
  rewrite remonter_eq. destruct (Z.eqb (vers_int u) (-1)); [by eexists |].
  rewrite vers_unsigned_vers_int.
  2:{ apply Hu. rewrite HE. apply elem_of_app. right. apply list_elem_of_here. }
  destruct (Hc l1 u l2 HE) as [-> | (u' & -> & Hu')].
  - rewrite remonter_eq. by eexists.
  - apply list_elem_of_split in Hu' as (l3 & l4 & ->).
    apply (IH (l1 ++ u :: l3) u' l4).
    + by rewrite <- app_assoc.
    + rewrite length_app in Hlen. cbn [length] in Hlen. lia.
Qed.

(** Lines 195-199 leave [Q] with the keys of [m_arcs], each with
    predecessor -1. *)
Lemma dijkstra_init_chaine g o :
  let e := dijkstra_init g o in
  dj_arcs e = m_arcs g ∧
  (∀ x, x ∈ dj_Q e ↔ is_Some (trouver x (m_arcs g))) ∧
  (∀ v, v ∈ dj_Q e → lire (dj_predecesseurs e) v = -1).
Proof.
  cbn zeta.
  destruct (dijkstra_init_arcs g o) as [Ha HQ].
  destruct (dijkstra_init_etat g o) as (_ & Hp & HQ' & _). cbn zeta in *.
  split_and!; [done | |].
  - intros x. split; [apply HQ |]. intros H. by apply HQ', trouver_cles.
  - intros v Hv. by apply Hp, trouver_cles, HQ.
Qed.

(** X13.  [dijkstra] returns on every pair of existing vertices: the loop
    of lines 202-223 stops at the destination before [Q] is empty, and the
    walk of lines 229-232 ends, because every predecessor was taken out of
    [Q] before the vertex it precedes. *)
Theorem dijkstra_retourne (g : Reseau) (numOrigine numDest : Z) :
  Forall est_unsigned (m_arcs g).*1 →
  sommetExiste g numOrigine = true → sommetExiste g numDest = true →
  ∃ fuel r, (dijkstra fuel g numOrigine numDest).1 = Retour r.
Proof.
  revert numOrigine numDest. intros o d.
  intros Hu Ho Hd. unfold dijkstra. rewrite Ho, Hd. cbn [negb orb].
  destruct (dijkstra_init_chaine g o) as (Ha & HQ & Hp). cbn zeta in *.
  apply sommetExiste_trouver in Hd.
  destruct (dijkstra_boucle_chaine (m_arcs g) d (Z.to_nat (nbSommets g))
              (dijkstra_init g o) [])
    as (e & E & -> & HE & Hk & Hc & HpQ); try done.
  - intros x. by rewrite HQ.
  - by intros x ?%elem_of_nil.
  - intros k Hk. right. by apply HQ.
  - intros l1 v l2 Heq. by destruct l1.
  - intros v Hv. left. by apply Hp.
  - by apply HQ.
  - assert (∀ x, x ∈ E → est_unsigned x) as HuE.
    { intros x Hx. apply (proj1 (Forall_forall _ _) Hu), trouver_cles.
      by apply HE. }
    exists (S (S (length E))). cbn [fst]. unfold reconstruire.
    destruct (negb _); [| by eexists].
    assert (is_Some (remonter (S (S (length E))) (dj_predecesseurs e)
                       (vers_int d) [])) as [r ->]; [| by eexists].
    destruct (Hk d Hd) as [HdE | HdQ].
    + apply list_elem_of_split in HdE as (l1 & l2 & HE').
      apply (remonter_chaine _ E _ Hc HuE l1 d l2); [done |].
      rewrite HE', length_app. cbn [length]. lia.
    + rewrite remonter_eq. destruct (Z.eqb (vers_int d) (-1)); [by eexists |].
      rewrite vers_unsigned_vers_int.
      2:{ apply (proj1 (Forall_forall _ _) Hu), trouver_cles, Hd. }
      destruct (HpQ d HdQ) as [-> | (u & -> & HuE')].
      * rewrite remonter_eq. by eexists.
      * apply list_elem_of_split in HuE' as (l1 & l2 & HE').
        apply (remonter_chaine _ E _ Hc HuE l1 u l2); [done |].
        rewrite HE', length_app. cbn [length]. lia.
Qed.

Lemma dijkstra_retourne_temoin :
  ∃ fuel r, (dijkstra fuel reseau_exemple 1 4).1 = Retour r.
Proof.
  apply (dijkstra_retourne reseau_exemple 1 4); [| reflexivity | reflexivity].
  unfold reseau_exemple. cbn [m_arcs fmap list_fmap fst].
  repeat (apply Forall_cons; split; [unfold est_unsigned; lia |]).
  constructor.
Defined.

(** ** The path that dijkstra returns *)

Lemma vers_int_ordinaire x :
  est_unsigned x → x ≠ 4294967295 → vers_int x ≠ -1.
Proof.
  unfold est_unsigned, vers_int. intros Hx Hne.
  destruct (Z_lt_ge_dec x 2147483648).
  - rewrite Z.mod_small; lia.
  - replace (x + 2147483648) with (x - 2147483648 + 1 * 4294967296) by lia.
    rewrite Z.mod_add, Z.mod_small; lia.
Qed.

Lemma remonter_prefixe fuel pred courant acc r :
  remonter fuel pred courant acc = Some r → ∃ s, r = acc ++ s.
Proof.
  revert courant acc. induction fuel as [|fuel IH]; intros c acc;
    rewrite remonter_eq; destruct (Z.eqb c (-1)); try done.
  - intros [= <-]. exists []. by rewrite app_nil_r.
  - intros [= <-]. exists []. by rewrite app_nil_r.
  - intros (s & ->)%IH. exists (vers_unsigned c :: s). by rewrite <- app_assoc.
Qed.

Lemma cout_chemin_queue g a l :
  is_Some (cout_chemin g (a :: l)) → is_Some (cout_chemin g l).
Proof.
  destruct l as [|b l]; [by eexists |].
  change (cout_chemin g (a :: b :: l))
    with (c ← trouver a (m_arcs g) ≫= trouver b;
          r ← cout_chemin g (b :: l); Some (vers_int c.1 + r)).
  destruct (trouver a (m_arcs g) ≫= trouver b); [| by intros [? ?]].
  cbn [mbind option_bind].
  destruct (cout_chemin g (b :: l)); [by eexists | by intros [? ?]].
Qed.

Lemma cout_chemin_arc g a b l :
  is_Some (trouver a (m_arcs g) ≫= trouver b) →
  is_Some (cout_chemin g (b :: l)) →
  is_Some (cout_chemin g (a :: b :: l)).
Proof.
  intros [c Hc] [r Hr].
  change (cout_chemin g (a :: b :: l))
    with (c ← trouver a (m_arcs g) ≫= trouver b;
          r ← cout_chemin g (b :: l); Some (vers_int c.1 + r)).
  rewrite Hc, Hr. by eexists.
Qed.

(** Lines 214-222 give a vertex the predecessor [noeud_min] only when it is
    adjacent to [noeud_min]. *)
Lemma dijkstra_boucle_predecesseurs arcs d n e :
  dj_arcs e = arcs →
  (∀ x, x ∈ dj_Q e → is_Some (trouver x arcs)) →
  (∀ v, is_Some (trouver v arcs) →
        predecesseur_arc arcs (dj_predecesseurs e) v) →
  ∀ v, is_Some (trouver v arcs) →
       predecesseur_arc arcs (dj_predecesseurs (dijkstra_boucle n d e).2) v.
Proof.
  revert e. induction n as [|n IH]; intros e Ha HQ Hp; [done |].
  cbn [dijkstra_boucle].
  destruct (noeud_minimal _ _) as [x|] eqn:Hx; [| done].
  pose proof (noeud_minimal_dans_Q _ _ _ Hx) as HxQ.
  destruct (Z.eqb x d); [done |].
  unfold crochet. rewrite Ha. destruct (HQ _ HxQ) as [voisins Hv]. rewrite Hv.
  apply IH; cbn [dj_arcs dj_Q dj_predecesseurs]; [done | |].
  - intros y Hy. by apply HQ, (Q_effacer_inclus x).
  - intros v Hkv.
    destruct (dijkstra_relacher_tous_effet (Q_effacer x (dj_Q e)) x voisins
                (dj_distances e, dj_predecesseurs e) v)
      as [[_ H] | (_ & [a Hva] & H & _)]; cbn [fst snd] in H.
    + unfold predecesseur_arc. rewrite H. by apply Hp.
    + right. exists x. split; [done |]. rewrite Hv. cbn [mbind option_bind].
      by eapply trouver_present.
Qed.

(** The walk of lines 229-232 along predecessors that are origins of stored
    arcs gathers a path of the network. *)
Lemma remonter_arcs g pred :
  (∀ v, is_Some (trouver v (m_arcs g)) →
        predecesseur_arc (m_arcs g) pred v) →
  Forall est_unsigned (m_arcs g).*1 →
  ∀ fuel x acc r,
    is_Some (trouver x (m_arcs g)) →
    is_Some (cout_chemin g (x :: rev acc)) →
    remonter fuel pred (vers_int x) acc = Some r →
    is_Some (cout_chemin g (rev r)).
Proof.
  intros Hp Hu. induction fuel as [|fuel IH]; intros x acc r Hx Hc;
    rewrite remonter_eq; destruct (Z.eqb (vers_int x) (-1)); try done.
  - intros [= <-]. by eapply cout_chemin_queue.
  - intros [= <-]. by eapply cout_chemin_queue.
  - rewrite vers_unsigned_vers_int
      by (by apply (proj1 (Forall_forall _ _) Hu), trouver_cles).
    destruct (Hp x Hx) as [-> | (u & -> & Hux)].
    + rewrite remonter_eq. cbn. intros [= <-]. by rewrite rev_unit.
    + apply IH.
      * destruct (trouver u (m_arcs g)); [by eexists | by destruct Hux].
      * rewrite rev_unit. by apply cout_chemin_arc.
Qed.

(** What [reconstruire] returns from tables whose predecessors are origins
    of stored arcs. *)
Lemma reconstruire_arcs g fuel distances pred numDest dist chemin :
  (∀ v, is_Some (trouver v (m_arcs g)) →
        predecesseur_arc (m_arcs g) pred v) →
  Forall est_unsigned (m_arcs g).*1 →
  sommetExiste g numDest = true →
  reconstruire fuel distances pred numDest = Retour (dist, chemin) →
  chemin ≠ [] →
  last chemin = Some numDest ∧ is_Some (cout_chemin g chemin).
Proof.
  intros Hp Hu Hd. unfold reconstruire.
  destruct (negb _); [| by intros [= _ <-]].
  destruct (remonter _ _ _ _) as [r|] eqn:Hr; [| done].
  intros [= _ <-] Hne. split.
  - rewrite remonter_eq in Hr.
    destruct (Z.eqb (vers_int numDest) (-1)); [by injection Hr as <- |].
    destruct fuel as [|fuel]; [done |].
    apply remonter_prefixe in Hr as [s ->].
    rewrite vers_unsigned_vers_int
      by (by apply (proj1 (Forall_forall _ _) Hu), sommetExiste_cles).
    cbn [app]. change (numDest :: s) with ([numDest] ++ s).
    rewrite rev_app_distr. cbn [rev app]. apply last_snoc.
  - apply (remonter_arcs g _ Hp Hu fuel numDest [] r);
      [by apply sommetExiste_trouver | by eexists | done].
Qed.

(** X14.  A path that [dijkstra] returns is a path of the network that ends
    at the destination: when it is not empty its last vertex is [numDest]
    and there is a stored arc from each of its vertices to the next. *)
Theorem dijkstra_chemin_du_reseau (g : Reseau) (numOrigine numDest : Z)
    (fuel : nat) (dist : Z) (chemin : list Z) :
  Forall est_unsigned (m_arcs g).*1 →
  (dijkstra fuel g numOrigine numDest).1 = Retour (dist, chemin) →
  chemin ≠ [] →
  last chemin = Some numDest ∧ is_Some (cout_chemin g chemin).
Proof.
  intros Hu. unfold dijkstra.
  destruct (negb (sommetExiste g numOrigine) || negb (sommetExiste g numDest))
    eqn:Hex; [done |].
  apply orb_false_iff in Hex as [_ Hd%negb_false_iff].
  destruct (dijkstra_init_arcs g numOrigine) as [Ha HQ].
  pose proof (dijkstra_boucle_predecesseurs (m_arcs g) numDest
                (Z.to_nat (nbSommets g)) (dijkstra_init g numOrigine) Ha)
    as Hpred.
  specialize (Hpred HQ).
  destruct (dijkstra_boucle _ _ _) as [ok e]. cbn [snd] in Hpred.
  destruct ok; [| done]. cbn [fst].
  apply reconstruire_arcs; try done.
  apply Hpred. intros v Hv. left.
  destruct (dijkstra_init_etat g numOrigine) as (_ & Hp & _).
  by apply Hp, trouver_cles.
Qed.

Lemma dijkstra_chemin_du_reseau_temoin :
  last [1; 2; 3; 4] = Some 4 ∧ is_Some (cout_chemin reseau_exemple [1; 2; 3; 4]).
Proof.
  apply (dijkstra_chemin_du_reseau reseau_exemple 1 4 5 4 [1; 2; 3; 4]);
    [| reflexivity | done].
  unfold reseau_exemple. cbn [m_arcs fmap list_fmap fst].
  repeat (apply Forall_cons; split; [unfold est_unsigned; lia |]).
  constructor.
Defined.

(** ** Empty path and distance INT_MAX *)

Lemma dijkstra_boucle_sentinelle d n e v :
  (∀ x, x ∈ dj_Q e → vers_int x ≠ -1) →
  sentinelle_coherente (dj_distances e) (dj_predecesseurs e) v →
  sentinelle_coherente (dj_distances (dijkstra_boucle n d e).2)
    (dj_predecesseurs (dijkstra_boucle n d e).2) v.
Proof.
  revert e. induction n as [|n IH]; intros e HQ Hs; [done |].
  cbn [dijkstra_boucle].
  destruct (noeud_minimal _ _) as [x|] eqn:Hx; [| done].
  pose proof (noeud_minimal_dans_Q _ _ _ Hx) as HxQ.
  destruct (Z.eqb x d); [done |].
  destruct (crochet [] x (dj_arcs e)) as [voisins arcs].
  apply IH; cbn [dj_distances dj_Q dj_predecesseurs].
  - intros y Hy. by apply HQ, (Q_effacer_inclus x).
  - destruct (dijkstra_relacher_tous_effet (Q_effacer x (dj_Q e)) x voisins
                (dj_distances e, dj_predecesseurs e) v)
      as [[H1 H2] | (_ & _ & H2 & H1)]; cbn [fst snd] in H1, H2;
      unfold sentinelle_coherente in *; rewrite H2.
    + by rewrite H1.
    + right. split; [by apply HQ |]. destruct Hs as [[_ ?] | [_ ?]]; lia.
Qed.

Lemma reconstruire_sentinelle fuel distances pred numDest dist chemin :
  vers_int numDest ≠ -1 →
  sentinelle_coherente distances pred numDest →
  reconstruire fuel distances pred numDest = Retour (dist, chemin) →
  chemin = [] ↔ dist = INT_MAX.
Proof.
  intros Hd Hs. unfold reconstruire.
  destruct (Z.eqb_spec (lire pred numDest) (-1)) as [Hp | Hp]; cbn [negb].
  - intros [= <- <-]. destruct Hs as [[_ ?] | [? _]]; done.
  - destruct (remonter _ _ _ _) as [r|] eqn:Hr; [| done].
    intros [= <- <-]. rewrite remonter_eq in Hr.
    destruct (Z.eqb_spec (vers_int numDest) (-1)); [done |].
    destruct fuel as [|fuel]; [done |].
    apply remonter_prefixe in Hr as [s ->]. cbn [app rev].
    split.
    + intros H. by apply app_eq_nil in H as [_ ?].
    + destruct Hs as [[? _] | [_ ?]]; [done | lia].
Qed.

(** ** bellmanFord: what every relaxation keeps *)

(** A property of the two tables that every relaxation applied by lines
    345-352 keeps is kept by the whole loop of lines 341-356. *)
Lemma bellman_boucle_invariant (I : gmap Z Z → gmap Z Z → Prop) arcs :
  (∀ u voisins voisin dist pred,
     (u, voisins) ∈ arcs → voisin ∈ voisins → I dist pred →
     lire dist u < INT_MAX →
     vers_int (voisin.2.1 + lire dist u) < lire dist voisin.1 →
     0 <= vers_int (voisin.2.1 + lire dist u) →
     I (<[voisin.1 := vers_int (voisin.2.1 + lire dist u)]> dist)
       (<[voisin.1 := vers_int u]> pred)) →
  ∀ n e, I e.1.1 e.1.2 →
         I (bellman_boucle n arcs e).1.1 (bellman_boucle n arcs e).1.2.
Proof.
  intros Hstep.
  assert (∀ u voisins, (u, voisins) ∈ arcs →
          ∀ l e, (∀ x, x ∈ l → x ∈ voisins) →
                 I e.1.1 e.1.2 → lire e.1.1 u < INT_MAX →
                 I (fold_left (bellman_relacher u) l e).1.1
                   (fold_left (bellman_relacher u) l e).1.2) as Hinner.
  { intros u voisins Hu. induction l as [|x l IH]; intros e Hl HI Hlt; [done |].
    cbn [fold_left].
    assert (x ∈ voisins) as Hx by apply Hl, list_elem_of_here.
    assert (∀ y, y ∈ l → y ∈ voisins) as Hl'
      by (intros y Hy; by apply Hl, list_elem_of_further).
    unfold bellman_relacher at 2 4.
    destruct (_ && _) eqn:E; [| by apply IH].
    apply andb_true_iff in E as [E1%Z.ltb_lt E2%Z.leb_le].
    apply IH; cbn [fst snd]; [done | by apply (Hstep u voisins) |].
    rewrite lire_insert. destruct (decide (x.1 = u)) as [Heq | ?]; [| done].
    rewrite Heq in E1. lia. }
  assert (∀ l e, (∀ kv, kv ∈ l → kv ∈ arcs) → I e.1.1 e.1.2 →
                 I (fold_left bellman_sommet l e).1.1
                   (fold_left bellman_sommet l e).1.2) as Hpasse.
  { induction l as [|kv l IH]; intros e Hl HI; [done |].
    cbn [fold_left]. apply IH.
    - intros y Hy. by apply Hl, list_elem_of_further.
    - unfold bellman_sommet. destruct (Z.ltb_spec (lire e.1.1 kv.1) INT_MAX);
        [| done].
      apply (Hinner kv.1 kv.2); try done.
      destruct kv. apply Hl, list_elem_of_here. }
  induction n as [|n IH]; intros e HI; [done |].
  cbn [bellman_boucle]. destruct (e.2); [| done].
  apply IH. by apply Hpasse.
Qed.

Lemma bellman_boucle_sentinelle arcs v n e :
  (∀ u voisins, (u, voisins) ∈ arcs → vers_int u ≠ -1) →
  sentinelle_coherente e.1.1 e.1.2 v →
  sentinelle_coherente (bellman_boucle n arcs e).1.1
    (bellman_boucle n arcs e).1.2 v.
Proof.
  intros Hord.
  apply (bellman_boucle_invariant (λ dist pred, sentinelle_coherente dist pred v)).
  intros u voisins voisin dist pred Hu _ Hs _ Hlt _.
  unfold sentinelle_coherente in *. rewrite !lire_insert.
  destruct (decide (voisin.1 = v)) as [Heq | ?]; [| done].
  right. split; [by eapply Hord |]. rewrite Heq in Hlt.
  destruct Hs as [[_ ?] | [_ ?]]; lia.
Qed.

(** X15.  For a destination other than the origin, [dijkstra] and
    [bellmanFord] return an empty path exactly when they return the
    distance INT_MAX (no vertex being 4294967295, which reads as -1 in the
    table of predecessors). *)
Theorem chemin_vide_ssi_distance_max (g : Reseau) (numOrigine numDest : Z)
    (fuel : nat) (dist : Z) (chemin : list Z) :
  Forall est_unsigned (m_arcs g).*1 →
  sommetExiste g 4294967295 = false →
  numOrigine ≠ numDest →
  (dijkstra fuel g numOrigine numDest).1 = Retour (dist, chemin) ∨
  (bellmanFord fuel g numOrigine numDest).1 = Retour (dist, chemin) →
  chemin = [] ↔ dist = INT_MAX.
Proof.
  intros Hu Hmax Hne Hret.
  assert (∀ x, x ∈ (m_arcs g).*1 → vers_int x ≠ -1) as Hord.
  { intros x Hx. apply vers_int_ordinaire.
    - by apply (proj1 (Forall_forall _ _) Hu).
    - intros ->. apply sommetExiste_cles in Hx. congruence. }
  destruct Hret as [Hret | Hret].
  - unfold dijkstra in Hret.
    destruct (negb (sommetExiste g numOrigine) || negb (sommetExiste g numDest))
      eqn:Hex; [done |].
    apply orb_false_iff in Hex as [_ Hd%negb_false_iff].
    apply sommetExiste_cles in Hd.
    destruct (dijkstra_init_arcs g numOrigine) as [_ HQ].
    destruct (dijkstra_init_etat g numOrigine) as (_ & Hp & Hk & Hdist).
    cbn zeta in *.
    pose proof (dijkstra_boucle_sentinelle numDest (Z.to_nat (nbSommets g))
                  (dijkstra_init g numOrigine) numDest) as Hs.
    destruct (dijkstra_boucle _ _ _) as [ok e]. cbn [snd] in Hs.
    destruct ok; [| done]. cbn [fst] in Hret.
    apply (reconstruire_sentinelle fuel (dj_distances e) (dj_predecesseurs e)
             numDest); [by apply Hord | | done].
    apply Hs.
    + intros x Hx. by apply Hord, trouver_cles, HQ.
    + left. split; [by apply Hp | apply Hdist; [by apply Hk | done]].
  - unfold bellmanFord in Hret.
    destruct (negb (sommetExiste g numOrigine) || negb (sommetExiste g numDest))
      eqn:Hex; [done |].
    apply orb_false_iff in Hex as [_ Hd%negb_false_iff].
    apply sommetExiste_cles in Hd. cbn [fst] in Hret.
    eapply reconstruire_sentinelle; [by apply Hord | | exact Hret].
    apply bellman_boucle_sentinelle.
    + intros u voisins Hin. apply Hord, list_elem_of_fmap. by exists (u, voisins).
    + left. split; [by apply bellman_init_predecesseurs |].
      by apply bellman_init_distances.
Qed.

Lemma chemin_vide_ssi_distance_max_temoin :
  ([] : list Z) = [] ↔ INT_MAX = INT_MAX.
Proof.
  apply (chemin_vide_ssi_distance_max reseau_exemple 4 1 0 INT_MAX []);
    [| reflexivity | done | left; reflexivity].
  unfold reseau_exemple. cbn [m_arcs fmap list_fmap fst].
  repeat (apply Forall_cons; split; [unfold est_unsigned; lia |]).
  constructor.
Defined.

(** ** bellmanFord: distances along the predecessors *)

Lemma mod_tranche z k :
  0 <= z - k * 4294967296 < 4294967296 →
  z mod 4294967296 = z - k * 4294967296.
Proof.
  intros H. symmetry. apply (Z.mod_unique z 4294967296 k); [by left | lia].
Qed.

(** Line 347 for a relaxation that line 348 accepts: the sum is exact when
    the cost is read as an [int]. *)
Lemma temp_exact c x :
  est_unsigned c → 0 <= x <= INT_MAX → 0 <= vers_int (c + x) →
  vers_int (c + x) = vers_int c + x.
Proof.
  unfold est_unsigned, vers_int, INT_MAX. intros Hc Hx.
  destruct (Z_lt_ge_dec (c + x) 2147483648).
  - rewrite (mod_tranche (c + x + 2147483648) 0) by lia.
    rewrite (mod_tranche (c + 2147483648) 0) by lia. lia.
  - destruct (Z_lt_ge_dec (c + x) 4294967296).
    + rewrite (mod_tranche (c + x + 2147483648) 1) by lia. lia.
    + rewrite (mod_tranche (c + x + 2147483648) 1) by lia.
      rewrite (mod_tranche (c + 2147483648) 1) by lia. lia.
Qed.

Lemma couts_unsigned_arc g u voisins v a :
  couts_unsigned g → (u, voisins) ∈ m_arcs g → (v, a) ∈ voisins →
  est_unsigned a.1.
Proof.
  intros Hc Hu Hv.
  apply (proj1 (Forall_forall _ _) (proj1 (Forall_forall _ _) Hc _ Hu) _ Hv).
Qed.

Lemma couts_positifs_arc g u voisins v a :
  couts_positifs g → (u, voisins) ∈ m_arcs g → (v, a) ∈ voisins →
  1 <= a.1 <= INT_MAX.
Proof.
  intros Hc Hu Hv.
  apply (proj1 (Forall_forall _ _) (proj1 (Forall_forall _ _) Hc _ Hu) _ Hv).
Qed.

Lemma couts_positifs_unsigned g : couts_positifs g → couts_unsigned g.
Proof.
  unfold couts_positifs, couts_unsigned. intros H.
  eapply Forall_impl; [exact H |]. intros kv Hkv.
  eapply Forall_impl; [exact Hkv |]. intros da.
  unfold est_unsigned, INT_MAX. cbn beta. lia.
Qed.

(** The tables of [bellmanFord] after the loop: distances in [0, INT_MAX],
    the origin at 0, and every vertex as [predecesseur_cout] has it. *)
Lemma bellman_boucle_couts g o n :
  couts_unsigned g → sommetExiste g o = true →
  let e := bellman_boucle n (m_arcs g) (bellman_init g o) in
  distances_bornees e.1.1 ∧ lire e.1.1 o = 0 ∧
  ∀ v, is_Some (trouver v (m_arcs g)) →
       predecesseur_cout (m_arcs g) o e.1.1 e.1.2 v.
Proof.
  intros Hc Ho. cbn zeta.
  apply (bellman_boucle_invariant
           (λ dist pred,
              distances_bornees dist ∧ lire dist o = 0 ∧
              ∀ v, is_Some (trouver v (m_arcs g)) →
                   predecesseur_cout (m_arcs g) o dist pred v)).
  - intros u voisins [w a] dist pred Hu Hw (Hb & Hzero & Hp) Hlt Hlt' Hpos.
    cbn [fst snd] in *.
    pose proof (vers_int_borne (a.1 + lire dist u)) as Hborne.
    pose proof (Hb u) as Hbu. pose proof (Hb w) as Hbw.
    pose proof (temp_exact a.1 (lire dist u)
                  (couts_unsigned_arc g u voisins w a Hc Hu Hw)
                  ltac:(lia) Hpos) as Hexact.
    set (temp := vers_int (a.1 + lire dist u)) in *.
    split_and!.
    + apply distances_bornees_insert; [done | lia].
    + rewrite lire_insert. destruct (decide (w = o)) as [-> | ?]; [lia | done].
    + intros v Hv. unfold predecesseur_cout. rewrite !lire_insert.
      destruct (decide (w = v)) as [<- | Hne].
      * right. exists u, voisins, a. rewrite lire_insert.
        split_and!; try done; try lia;
          destruct (decide (w = u)) as [-> | ?]; lia.
      * destruct (Hp v Hv) as [? | (u' & voisins' & a' & H1 & H2 & H3 & H4 & H5 & H6)];
          [by left |].
        right. exists u', voisins', a'. rewrite lire_insert.
        split_and!; try done; destruct (decide (w = u')) as [<- | ?]; lia.
  - split_and!.
    + apply bellman_init_bornees.
    + unfold bellman_init. cbn [fst]. by rewrite lire_insert, decide_True.
    + intros v Hv%trouver_cles. left.
      split; [by apply bellman_init_predecesseurs |].
      destruct (decide (v = o)) as [? | Hne]; [by left | right].
      by apply bellman_init_distances.
Qed.

(** With costs of 1 or more the distance goes down along the
    predecessors, so the walk of lines 361-364 ends. *)
Lemma remonter_decroit g o dist pred :
  couts_positifs g → Forall est_unsigned (m_arcs g).*1 →
  distances_bornees dist →
  (∀ v, is_Some (trouver v (m_arcs g)) →
        predecesseur_cout (m_arcs g) o dist pred v) →
  ∀ n x acc,
    is_Some (trouver x (m_arcs g)) → lire dist x < Z.of_nat n →
    is_Some (remonter (S n) pred (vers_int x) acc).
Proof.
  intros Hc Hu Hb Hp. induction n as [|n IH]; intros x acc Hx Hlt.
  - pose proof (Hb x). lia.
  - rewrite remonter_eq. destruct (Z.eqb (vers_int x) (-1)); [by eexists |].
    rewrite vers_unsigned_vers_int
      by (by apply (proj1 (Forall_forall _ _) Hu), trouver_cles).
    destruct (Hp x Hx) as [[-> _] | (u & voisins & a & -> & Hin & Ha & _ & _ & Hle)].
    + rewrite remonter_eq. by eexists.
    + pose proof (couts_positifs_arc g u voisins x a Hc Hin Ha) as Hpos.
      rewrite vers_int_id in Hle by lia.
      apply IH; [by eapply trouver_present | lia].
Qed.

(** X16.  In a network whose costs lie between 1 and INT_MAX,
    [bellmanFord] returns on every pair of existing vertices: the walk of
    lines 361-364 ends, because the distance goes down from each vertex to
    its predecessor. *)
Theorem bellmanFord_retourne (g : Reseau) (numOrigine numDest : Z) :
  Forall est_unsigned (m_arcs g).*1 → couts_positifs g →
  sommetExiste g numOrigine = true → sommetExiste g numDest = true →
  ∃ fuel r, (bellmanFord fuel g numOrigine numDest).1 = Retour r.
Proof.
  intros Hu Hc Ho Hd. unfold bellmanFord. rewrite Ho, Hd. cbn [negb orb fst].
  destruct (bellman_boucle_couts g numOrigine (Z.to_nat (nbSommets g - 1))
              (couts_positifs_unsigned g Hc) Ho) as (Hb & _ & Hp).
  cbn zeta in *.
  set (e := bellman_boucle _ _ _) in *.
  exists (S (Z.to_nat (lire e.1.1 numDest + 1))). unfold reconstruire.
  destruct (negb _); [| by eexists].
  destruct (remonter_decroit g numOrigine e.1.1 e.1.2 Hc Hu Hb Hp
              (Z.to_nat (lire e.1.1 numDest + 1)) numDest [])
    as [r ->]; [by apply sommetExiste_trouver | | by eexists].
  pose proof (Hb numDest). lia.
Qed.

Lemma bellmanFord_retourne_temoin :
  ∃ fuel r, (bellmanFord fuel reseau_exemple 1 4).1 = Retour r.
Proof.
  apply (bellmanFord_retourne reseau_exemple 1 4); [| | reflexivity | reflexivity].
  - unfold reseau_exemple. cbn [m_arcs fmap list_fmap fst].
    repeat (apply Forall_cons; split; [unfold est_unsigned; lia |]).
    constructor.
  - unfold couts_positifs, reseau_exemple. cbn [m_arcs].
    repeat (apply Forall_cons; split;
            [repeat (apply Forall_cons; split;
                     [cbn [fst snd]; unfold INT_MAX; lia |]);
             constructor |]).
    constructor.
Defined.

(** ** The path that bellmanFord returns *)

Lemma arc_trouve g u voisins v a :
  cles_uniques g → (u, voisins) ∈ m_arcs g → (v, a) ∈ voisins →
  trouver u (m_arcs g) ≫= trouver v = Some a.
Proof.
  intros Hcu Hu Hv.
  assert (trouver u (m_arcs g) = Some voisins) as Ht
    by (apply trouver_unique; [apply Hcu | done]).
  rewrite Ht. cbn [mbind option_bind].
  apply trouver_unique; [by eapply adjacence_unique | done].
Qed.

(** The walk of lines 361-364 from a vertex below INT_MAX gathers a path
    from the origin whose cost, added to the distance of the vertex where
    the walk stands, stays within the bound it had. *)
Lemma remonter_cout g o dist pred D :
  cles_uniques g → Forall est_unsigned (m_arcs g).*1 →
  sommetExiste g 4294967295 = false →
  lire dist o = 0 →
  (∀ v, is_Some (trouver v (m_arcs g)) →
        predecesseur_cout (m_arcs g) o dist pred v) →
  ∀ fuel x acc c r,
    is_Some (trouver x (m_arcs g)) → lire dist x < INT_MAX →
    cout_chemin g (x :: rev acc) = Some c → lire dist x + c <= D →
    remonter fuel pred (vers_int x) acc = Some r →
    head (rev r) = Some o ∧ ∃ c', cout_chemin g (rev r) = Some c' ∧ c' <= D.
Proof.
  intros Hcu Hu Hmax Hzero Hp.
  assert (∀ x, is_Some (trouver x (m_arcs g)) →
               est_unsigned x ∧ vers_int x ≠ -1) as Hord.
  { intros x Hx%trouver_cles.
    assert (est_unsigned x) by (by apply (proj1 (Forall_forall _ _) Hu)).
    split; [done |]. apply vers_int_ordinaire; [done |].
    intros ->. apply sommetExiste_cles in Hx. congruence. }
  induction fuel as [|fuel IH]; intros x acc c r Hx Hlt Hc HD;
    rewrite remonter_eq; destruct (Hord x Hx) as [Hux Hox];
    destruct (Z.eqb_spec (vers_int x) (-1)); try done.
  rewrite vers_unsigned_vers_int by done.
  destruct (Hp x Hx)
    as [[-> [-> | ?]] | (u & voisins & a & -> & Hin & Ha & Hlu & _ & Hle)];
    [| lia |].
  - rewrite remonter_eq. cbn. intros [= <-]. rewrite rev_unit.
    split; [done |]. exists c. split; [done | lia].
  - apply (IH u (acc ++ [x]) (vers_int a.1 + c)).
    + by eapply trouver_present.
    + done.
    + rewrite rev_unit.
      change (cout_chemin g (u :: x :: rev acc))
        with (c ← trouver u (m_arcs g) ≫= trouver x;
              r ← cout_chemin g (x :: rev acc); Some (vers_int c.1 + r)).
      rewrite (arc_trouve g u voisins x a Hcu Hin Ha), Hc. reflexivity.
    + lia.
Qed.

(** X17.  A path that [bellmanFord] returns, when it is not empty, goes
    from [numOrigine] to [numDest] along stored arcs, and the sum of the
    costs of these arcs, read as [int], is at most the distance
    returned. *)
Theorem bellmanFord_chemin (g : Reseau) (numOrigine numDest : Z)
    (fuel : nat) (dist : Z) (chemin : list Z) :
  Forall est_unsigned (m_arcs g).*1 → cles_uniques g → couts_unsigned g →
  sommetExiste g 4294967295 = false →
  (bellmanFord fuel g numOrigine numDest).1 = Retour (dist, chemin) →
  chemin ≠ [] →
  head chemin = Some numOrigine ∧ last chemin = Some numDest ∧
  ∃ c, cout_chemin g chemin = Some c ∧ c <= dist.
Proof.
  intros Hu Hcu Hc Hmax. unfold bellmanFord.
  destruct (negb (sommetExiste g numOrigine) || negb (sommetExiste g numDest))
    eqn:Hex; [done |].
  apply orb_false_iff in Hex as [Ho%negb_false_iff Hd%negb_false_iff].
  destruct (bellman_boucle_couts g numOrigine (Z.to_nat (nbSommets g - 1))
              Hc Ho) as (Hb & Hzero & Hp).
  cbn zeta in *. cbn [fst].
  set (e := bellman_boucle _ _ _) in *. unfold reconstruire.
  destruct (Z.eqb_spec (lire e.1.2 numDest) (-1)) as [Hpd | Hpd]; cbn [negb];
    [by intros [= _ <-] |].
  destruct (remonter _ _ _ _) as [r|] eqn:Hr; [| done].
  intros [= <- <-] Hne.
  assert (is_Some (trouver numDest (m_arcs g))) as Hkd
    by (by apply sommetExiste_trouver).
  assert (lire e.1.1 numDest < INT_MAX) as Hlt.
  { destruct (Hp numDest Hkd) as [[? _] | (? & ? & ? & _ & _ & _ & _ & ? & _)];
      done. }
  destruct (remonter_cout g numOrigine e.1.1 e.1.2 (lire e.1.1 numDest)
              Hcu Hu Hmax Hzero Hp fuel numDest [] 0 r)
    as (Hhead & c & Hcout & Hle); try done; [lia |].
  split_and!; [done | | by exists c].
  rewrite remonter_eq in Hr.
  destruct (Z.eqb (vers_int numDest) (-1)); [by injection Hr as <- |].
  destruct fuel as [|fuel']; [done |].
  apply remonter_prefixe in Hr as [s ->].
  rewrite vers_unsigned_vers_int
    by (by apply (proj1 (Forall_forall _ _) Hu), sommetExiste_cles).
  cbn [app]. change (numDest :: s) with ([numDest] ++ s).
  rewrite rev_app_distr. cbn [rev app]. apply last_snoc.
Qed.

Lemma couts_unsigned_exemple : couts_unsigned reseau_exemple.
Proof.
  unfold couts_unsigned, reseau_exemple. cbn [m_arcs].
  repeat (apply Forall_cons; split;
          [repeat (apply Forall_cons; split;
                   [cbn [fst snd]; unfold est_unsigned; lia |]);
           constructor |]).
  constructor.
Qed.

Lemma bellmanFord_chemin_temoin :
  head [1; 2; 3; 4] = Some 1 ∧ last [1; 2; 3; 4] = Some 4 ∧
  ∃ c, cout_chemin reseau_exemple [1; 2; 3; 4] = Some c ∧ c <= 4.
Proof.
  apply (bellmanFord_chemin reseau_exemple 1 4 5 4 [1; 2; 3; 4]);
    [| apply cles_uniques_exemple | apply couts_unsigned_exemple
     | reflexivity | reflexivity | done].
  unfold reseau_exemple. cbn [m_arcs fmap list_fmap fst].
  repeat (apply Forall_cons; split; [unfold est_unsigned; lia |]).
  constructor.
Defined.

(** ** bellmanFord: no path is cheaper than the distance returned *)

Lemma bellman_relacher_decroit u e x v :
  lire (bellman_relacher u e x).1.1 v <= lire e.1.1 v.
Proof.
  unfold bellman_relacher. destruct (_ && _) eqn:E; [| lia].
  apply andb_true_iff in E as [E1%Z.ltb_lt _]. cbn [fst].
  rewrite lire_insert. destruct (decide (x.1 = v)) as [<- | ?]; lia.
Qed.

Lemma bellman_relacher_tous_decroit u l e v :
  lire (fold_left (bellman_relacher u) l e).1.1 v <= lire e.1.1 v.
Proof.
  revert e. induction l as [|x l IH]; intros e; [done |]. cbn [fold_left].
  pose proof (IH (bellman_relacher u e x)).
  pose proof (bellman_relacher_decroit u e x v). lia.
Qed.

Lemma bellman_sommet_decroit e kv v :
  lire (bellman_sommet e kv).1.1 v <= lire e.1.1 v.
Proof.
  unfold bellman_sommet. destruct (Z.ltb _ _); [| lia].
  apply bellman_relacher_tous_decroit.
Qed.

Lemma bellman_passe_decroit arcs e v :
  lire (fold_left bellman_sommet arcs e).1.1 v <= lire e.1.1 v.
Proof.
  revert e. induction arcs as [|kv l IH]; intros e; [done |]. cbn [fold_left].
  pose proof (IH (bellman_sommet e kv)).
  pose proof (bellman_sommet_decroit e kv v). lia.
Qed.

Lemma bellman_boucle_decroit n arcs e v :
  lire (bellman_boucle n arcs e).1.1 v <= lire e.1.1 v.
Proof.
  revert e. induction n as [|n IH]; intros e; [done |].
  cbn [bellman_boucle]. destruct (e.2); [| lia].
  pose proof (IH (fold_left bellman_sommet arcs (e.1, false))).
  pose proof (bellman_passe_decroit arcs (e.1, false) v). cbn [fst] in *. lia.
Qed.

(** [estInstable] stays false only when nothing was written. *)
Lemma bellman_relacher_tous_stable u l e :
  (fold_left (bellman_relacher u) l e).2 = false →
  fold_left (bellman_relacher u) l e = e.
Proof.
  revert e. induction l as [|x l IH]; intros e; [done |]. cbn [fold_left].
  intros H. rewrite (IH _ H) in H |- *.
  unfold bellman_relacher in *. by destruct (_ && _).
Qed.

Lemma bellman_passe_stable arcs e :
  (fold_left bellman_sommet arcs e).2 = false →
  fold_left bellman_sommet arcs e = e.
Proof.
  revert e. induction arcs as [|kv l IH]; intros e; [done |]. cbn [fold_left].
  intros H. rewrite (IH _ H) in H |- *.
  unfold bellman_sommet in *. destruct (Z.ltb _ _); [| done].
  by apply bellman_relacher_tous_stable.
Qed.

Lemma bellman_relacher_tous_bornees u l e :
  distances_bornees e.1.1 →
  distances_bornees (fold_left (bellman_relacher u) l e).1.1.
Proof.
  revert e. induction l as [|x l IH]; intros e H; [done |].
  cbn [fold_left]. by apply IH, bellman_relacher_bornees.
Qed.

(** Lines 347-351 on the arc from [u] to [v]: afterwards [v] is at most at
    the distance of [u] plus the cost. *)
Lemma bellman_relacher_arc u e v a :
  0 <= a.1 → distances_bornees e.1.1 → a.1 + lire e.1.1 u <= INT_MAX →
  lire (bellman_relacher u e (v, a)).1.1 v <= a.1 + lire e.1.1 u.
Proof.
  intros Ha Hb Hs. pose proof (Hb u) as Hu.
  unfold bellman_relacher. cbn [fst snd].
  rewrite (vers_int_id (a.1 + lire e.1.1 u)) by lia.
  destruct (Z.ltb_spec (a.1 + lire e.1.1 u) (lire e.1.1 v));
    destruct (Z.leb_spec 0 (a.1 + lire e.1.1 u)); cbn [andb fst]; try lia.
  by rewrite lire_insert, decide_True.
Qed.

Lemma bellman_relacher_tous_arc u voisins e v a :
  (v, a) ∈ voisins → 0 <= a.1 → distances_bornees e.1.1 →
  a.1 + lire e.1.1 u <= INT_MAX →
  lire (fold_left (bellman_relacher u) voisins e).1.1 v <= a.1 + lire e.1.1 u.
Proof.
  intros (m1 & m2 & ->)%list_elem_of_split Ha Hb Hs.
  rewrite fold_left_app. cbn [fold_left].
  set (e2 := fold_left (bellman_relacher u) m1 e).
  pose proof (bellman_relacher_tous_decroit u m1 e u) as Hu. fold e2 in Hu.
  pose proof (bellman_relacher_tous_bornees u m1 e Hb) as Hb2. fold e2 in Hb2.
  pose proof (bellman_relacher_tous_decroit u m2
                (bellman_relacher u e2 (v, a)) v).
  pose proof (bellman_relacher_arc u e2 v a Ha Hb2). lia.
Qed.

(** One pass of lines 343-355 over an arc whose origin was below INT_MAX
    when the pass began. *)
Lemma bellman_passe_arc arcs e u voisins v a :
  (u, voisins) ∈ arcs → (v, a) ∈ voisins → 0 <= a.1 →
  distances_bornees e.1.1 →
  lire e.1.1 u < INT_MAX → a.1 + lire e.1.1 u <= INT_MAX →
  lire (fold_left bellman_sommet arcs e).1.1 v <= a.1 + lire e.1.1 u.
Proof.
  intros (l1 & l2 & ->)%list_elem_of_split Hv Ha Hb Hlt Hs.
  rewrite fold_left_app. cbn [fold_left].
  set (e1 := fold_left bellman_sommet l1 e).
  pose proof (bellman_passe_decroit l1 e u) as Hu. fold e1 in Hu.
  pose proof (bellman_passe_bornees l1 e Hb) as Hb1. fold e1 in Hb1.
  pose proof (bellman_passe_decroit l2 (bellman_sommet e1 (u, voisins)) v).
  assert (lire (bellman_sommet e1 (u, voisins)).1.1 v <= a.1 + lire e1.1.1 u);
    [| lia].
  unfold bellman_sommet. cbn [fst snd].
  rewrite (proj2 (Z.ltb_lt _ _)) by lia.
  apply bellman_relacher_tous_arc; try done. lia.
Qed.

Lemma cout_chemin_cons g a b l c :
  cout_chemin g (a :: b :: l) = Some c →
  ∃ voisins w c',
    (a, voisins) ∈ m_arcs g ∧ (b, w) ∈ voisins ∧
    trouver a (m_arcs g) ≫= trouver b = Some w ∧
    cout_chemin g (b :: l) = Some c' ∧ c = vers_int w.1 + c'.
Proof.
  change (cout_chemin g (a :: b :: l))
    with (c ← trouver a (m_arcs g) ≫= trouver b;
          r ← cout_chemin g (b :: l); Some (vers_int c.1 + r)).
  destruct (trouver a (m_arcs g)) as [voisins|] eqn:Ha; [| done].
  cbn [mbind option_bind].
  destruct (trouver b voisins) as [w|] eqn:Hb; [| done].
  destruct (cout_chemin g (b :: l)) as [c'|]; [| done].
  intros [= <-]. exists voisins, w, c'.
  split_and!; try done; by apply trouver_element.
Qed.

Lemma couts_non_negatifs_arc g u voisins v a :
  couts_non_negatifs g → (u, voisins) ∈ m_arcs g → (v, a) ∈ voisins →
  0 <= a.1 <= INT_MAX.
Proof.
  intros Hc Hu Hv.
  apply (proj1 (Forall_forall _ _) (proj1 (Forall_forall _ _) Hc _ Hu) _ Hv).
Qed.

Lemma cout_chemin_positif g p c :
  couts_non_negatifs g → cout_chemin g p = Some c → 0 <= c.
Proof.
  intros Hc. revert c. induction p as [|a p IH]; intros c; [by intros [= <-] |].
  destruct p as [|b l]; [by intros [= <-] |].
  intros (voisins & w & c' & Ha & Hb & _ & Hc' & ->)%cout_chemin_cons.
  pose proof (couts_non_negatifs_arc g a voisins b w Hc Ha Hb).
  rewrite vers_int_id by lia. pose proof (IH c' Hc'). lia.
Qed.

(** Where no relaxation is left to apply, the vertex at the end of a path
    is at most at the distance of its first vertex plus the cost of the
    path. *)
Lemma relaxe_chemin g dist :
  couts_non_negatifs g → distances_bornees dist → relaxe (m_arcs g) dist →
  ∀ p x y c,
    head p = Some x → last p = Some y → cout_chemin g p = Some c →
    lire dist y <= lire dist x + c.
Proof.
  intros Hc Hb Hr. induction p as [|a p IH]; intros x y c; [done |].
  intros [= ->]. destruct p as [|b l].
  - intros [= ->] [= <-]. lia.
  - intros Hy (voisins & w & c' & Ha & Hw & _ & Hc' & ->)%cout_chemin_cons.
    pose proof (couts_non_negatifs_arc g x voisins b w Hc Ha Hw).
    rewrite vers_int_id by lia.
    pose proof (IH b y c' eq_refl Hy Hc').
    pose proof (cout_chemin_positif g _ _ Hc Hc').
    pose proof (Hb x). pose proof (Hb y).
    destruct (Z_lt_ge_dec (lire dist x) INT_MAX); [| lia].
    destruct (Z_le_gt_dec (w.1 + lire dist x) INT_MAX); [| lia].
    pose proof (Hr x voisins b w Ha Hw). lia.
Qed.

(** After [n] passes, or fewer when a pass wrote nothing, the end of a
    path of at most [n] arcs is at most at the distance that its first
    vertex had plus the cost of the path. *)
Lemma bellman_boucle_chemin g :
  couts_non_negatifs g →
  ∀ n e,
    distances_bornees e.1.1 →
    e.2 = true ∨ relaxe (m_arcs g) e.1.1 →
    ∀ p x y c,
      head p = Some x → last p = Some y → cout_chemin g p = Some c →
      (length p ≤ S n)%nat →
      lire (bellman_boucle n (m_arcs g) e).1.1 y <= lire e.1.1 x + c.
Proof.
  intros Hc.
  assert (∀ n e, e.2 = false → bellman_boucle n (m_arcs g) e = e) as Harret.
  { intros [|n] e He; [done |]. cbn [bellman_boucle]. by rewrite He. }
  induction n as [|n IH]; intros e Hb Hcas p x y c Hx Hy Hp Hlen.
  - destruct p as [|a [|b l]]; [done | | cbn [length] in Hlen; lia].
    injection Hx as Hx. injection Hy as Hy. injection Hp as Hp.
    subst a y c. cbn [bellman_boucle]. lia.
  - destruct (e.2) eqn:He.
    2:{ rewrite Harret by done. destruct Hcas as [? | Hr]; [done |].
        by apply (relaxe_chemin g e.1.1 Hc Hb Hr p). }
    cbn [bellman_boucle]. rewrite He.
    set (e1 := fold_left bellman_sommet (m_arcs g) (e.1, false)).
    assert (distances_bornees e1.1.1) as Hb1
      by (by apply bellman_passe_bornees).
    assert (e1.2 = true ∨ relaxe (m_arcs g) e1.1.1) as Hcas1.
    { destruct (e1.2) eqn:He1; [by left | right].
      pose proof (bellman_passe_stable (m_arcs g) (e.1, false) He1) as Heq.
      fold e1 in Heq.
      intros u voisins v a Hu Hv Hlt Hs.
      pose proof (bellman_passe_arc (m_arcs g) (e.1, false) u voisins v a
                    Hu Hv) as H. fold e1 in H. rewrite Heq in *.
      cbn [fst] in *. apply H; try done.
      by apply (couts_non_negatifs_arc g u voisins v a). }
    destruct p as [|a [|b l]]; [done | |].
    + injection Hx as Hx. injection Hy as Hy. injection Hp as Hp.
      subst a y c.
      pose proof (bellman_boucle_decroit n (m_arcs g) e1 x).
      pose proof (bellman_passe_decroit (m_arcs g) (e.1, false) x) as H1.
      fold e1 in H1. cbn [fst] in H1. lia.
    + injection Hx as Hx. subst a.
      apply cout_chemin_cons in Hp
        as (voisins & w & c' & Ha & Hw & _ & Hc' & ->).
      pose proof (couts_non_negatifs_arc g x voisins b w Hc Ha Hw).
      rewrite vers_int_id by lia.
      pose proof (IH e1 Hb1 Hcas1 (b :: l) b y c' eq_refl Hy Hc') as Hrec.
      cbn [length] in Hlen, Hrec. specialize (Hrec ltac:(lia)).
      pose proof (cout_chemin_positif g _ _ Hc Hc').
      pose proof (Hb x).
      pose proof (bellman_boucle_bornees n (m_arcs g) e1 Hb1 y).
      destruct (Z_lt_ge_dec (lire e.1.1 x) INT_MAX); [| lia].
      destruct (Z_le_gt_dec (w.1 + lire e.1.1 x) INT_MAX); [| lia].
      pose proof (bellman_passe_arc (m_arcs g) (e.1, false) x voisins b w
                    Ha Hw) as Harc. fold e1 in Harc. cbn [fst] in Harc.
      specialize (Harc ltac:(lia) Hb ltac:(lia) ltac:(lia)). lia.
Qed.

(** X18.  In a network whose costs lie between 0 and INT_MAX, the distance
    that [bellmanFord] returns is at most the cost of every path from
    [numOrigine] to [numDest] that has no more than [nbSommets] vertices. *)
Theorem bellmanFord_au_plus_chemin (g : Reseau) (numOrigine numDest : Z)
    (fuel : nat) (dist : Z) (chemin : list Z) (p : list Z) (c : Z) :
  couts_non_negatifs g →
  (bellmanFord fuel g numOrigine numDest).1 = Retour (dist, chemin) →
  head p = Some numOrigine → last p = Some numDest →
  cout_chemin g p = Some c →
  Z.of_nat (length p) <= nbSommets g →
  dist <= c.
Proof.
  intros Hc. unfold bellmanFord.
  destruct (negb (sommetExiste g numOrigine) || negb (sommetExiste g numDest));
    [done |].
  cbn [fst]. intros ->%reconstruire_distance Hx Hy Hp Hlen.
  pose proof (bellman_boucle_chemin g Hc (Z.to_nat (nbSommets g - 1))
                (bellman_init g numOrigine) (bellman_init_bornees g numOrigine)
                (or_introl eq_refl) p numOrigine numDest c Hx Hy Hp) as H.
  assert (lire (bellman_init g numOrigine).1.1 numOrigine = 0) as Hzero.
  { unfold bellman_init. cbn [fst]. by rewrite lire_insert, decide_True. }
  rewrite Hzero in H. apply H. lia.
Qed.

Lemma couts_non_negatifs_exemple : couts_non_negatifs reseau_exemple.
Proof.
  unfold couts_non_negatifs, reseau_exemple. cbn [m_arcs].
  repeat (apply Forall_cons; split;
          [repeat (apply Forall_cons; split;
                   [cbn [fst snd]; unfold INT_MAX; lia |]);
           constructor |]).
  constructor.
Qed.

Lemma bellmanFord_au_plus_chemin_temoin : 4 <= 6.
Proof.
  apply (bellmanFord_au_plus_chemin reseau_exemple 1 4 5 4 [1; 2; 3; 4]
           [1; 3; 4] 6);
    [apply couts_non_negatifs_exemple | reflexivity | reflexivity
     | reflexivity | reflexivity | cbn; lia].
Defined.

(** ** The order of the path of meilleurPlusCourtChemin *)

(** The walk of lines 304-307 adds the vertices it stands on, none of them
    the origin, the first being the vertex it starts from. *)
Lemma mpcc_remonter_forme fuel sommets numOrigine courant acc r :
  mpcc_remonter fuel sommets numOrigine courant acc = Some r →
  ∃ s, r = acc ++ s ∧ (numOrigine ∉ s) ∧
       (courant ≠ numOrigine → head s = Some courant).
Proof.
  revert courant acc. induction fuel as [|fuel IH]; intros c acc;
    rewrite mpcc_remonter_eq; destruct (Z.eqb_spec c numOrigine); try done.
  - intros [= <-]. exists []. rewrite app_nil_r.
    split_and!; [done | by intros ?%elem_of_nil | done].
  - intros [= <-]. exists []. rewrite app_nil_r.
    split_and!; [done | by intros ?%elem_of_nil | done].
  - intros (s & -> & Hs & _)%IH. exists (c :: s). rewrite <- app_assoc.
    split_and!; [done | | done].
    intros [? | ?]%elem_of_cons; done.
Qed.

(** X19.  A path that [meilleurPlusCourtChemin] returns, when it is not
    empty, begins with [numOrigine], which does not come again, and for a
    destination other than the origin its second vertex is [numDest]:
    lines 309-312 copy the walk from the destination in the order in which
    it was made. *)
Theorem meilleurPlusCourtChemin_ordre (g : Reseau) (numOrigine numDest : Z)
    (fuel : nat) (dist : Z) (chemin : list Z) :
  (meilleurPlusCourtChemin fuel g numOrigine numDest).1 = Retour (dist, chemin) →
  chemin ≠ [] →
  ∃ s, chemin = numOrigine :: s ∧ (numOrigine ∉ s) ∧
       (numDest ≠ numOrigine → head s = Some numDest).
Proof.
  unfold meilleurPlusCourtChemin.
  destruct (negb (sommetExiste g numOrigine) || negb (sommetExiste g numDest));
    [done |].
  destruct (mpcc_parcours g numOrigine numDest) as [[e| | |] arcs]; try done.
  cbn [fst mbind issue_bind issue_lier]. unfold mpcc_reconstruire.
  destruct (Z.eqb _ 0); [by intros [= _ <-] |].
  destruct (mpcc_remonter _ _ _ _ _) as [r|] eqn:Hr; [| done].
  intros [= _ <-] _.
  apply mpcc_remonter_forme in Hr as (s & -> & Hs & Hd). by exists s.
Qed.

Lemma meilleurPlusCourtChemin_ordre_temoin :
  ∃ s, [1; 4; 3; 2] = 1 :: s ∧ (1 ∉ s) ∧ (4 ≠ 1 → head s = Some 4).
Proof.
  apply (meilleurPlusCourtChemin_ordre reseau_exemple 1 4 20 4 [1; 4; 3; 2]);
    [reflexivity | done].
Defined.

(** ** dijkstra: no path is cheaper than the distance returned *)

Lemma noeud_minimal_minimum distances q x :
  noeud_minimal distances q = Some x →
  ∀ y, y ∈ q → lire distances x <= lire distances y.
Proof.
  destruct q as [|premier q]; [done |]. cbn [noeud_minimal]. intros [= <-].
  assert (∀ l acc,
    let r := fold_left
               (λ noeud_min noeud,
                  if Z.ltb (lire distances noeud) (lire distances noeud_min)
                  then noeud else noeud_min) l acc in
    lire distances r <= lire distances acc ∧
    ∀ y, y ∈ l → lire distances r <= lire distances y) as H.
  { induction l as [|n l IH]; intros acc; cbn zeta.
    - cbn [fold_left]. split; [lia | by intros y ?%elem_of_nil].
    - cbn [fold_left].
      destruct (IH (if Z.ltb (lire distances n) (lire distances acc)
                    then n else acc)) as [H1 H2].
      destruct (Z.ltb_spec (lire distances n) (lire distances acc)).
      + split; [lia |]. intros y [-> | Hy]%elem_of_cons; [done | by apply H2].
      + split; [done |]. intros y [-> | Hy]%elem_of_cons; [lia | by apply H2]. }
  intros y Hy. by apply (H (premier :: q) premier).
Qed.

Lemma vers_int_au_plus z : -2147483648 <= z → vers_int z <= z.
Proof.
  intros Hz. unfold vers_int.
  pose proof (Z.mod_le (z + 2147483648) 4294967296). lia.
Qed.

Lemma longueur_Q_effacer x q :
  x ∈ q → (length (Q_effacer x q) < length q)%nat.
Proof.
  unfold Q_effacer. induction q as [|y q IH]; [by intros ?%elem_of_nil |].
  rewrite filter_cons. intros [-> | Hx]%elem_of_cons.
  - rewrite decide_False by (by intros ?). cbn [length].
    pose proof (length_filter (λ z, z ≠ y) q). lia.
  - specialize (IH Hx). destruct (decide (y ≠ x)); cbn [length]; lia.
Qed.

Lemma longueur_Q_init g o :
  (length (dj_Q (dijkstra_init g o)) ≤ length (m_arcs g))%nat.
Proof.
  unfold dijkstra_init. cbn [dj_Q].
  assert (∀ l (e : etat_dijkstra),
    (length (dj_Q (fold_left
       (λ (e : etat_dijkstra) (kv : Z * liste_arcs),
          mkDijkstra (<[kv.1 := INT_MAX]> (dj_distances e))
                     (<[kv.1 := (-1)%Z]> (dj_predecesseurs e))
                     (Q_inserer kv.1 (dj_Q e))
                     (dj_arcs e)) l e))
     ≤ length (dj_Q e) + length l)%nat) as H.
  { induction l as [|kv l IH]; intros e; cbn [fold_left length]; [lia |].
    etrans; [apply IH |]. cbn [dj_Q]. unfold Q_inserer.
    case_bool_decide; [lia |]. rewrite length_app. cbn [length]. lia. }
  apply (H (m_arcs g) (mkDijkstra ∅ ∅ [] (m_arcs g))).
Qed.

(** Lines 214-222 on the arc from [noeud_min] to a vertex [v] of [Q]:
    afterwards [v] is at most at the sum of line 216. *)
Lemma dijkstra_relacher_tous_arc q x voisins dp v a :
  x ∉ q → (v, a) ∈ voisins → v ∈ q →
  lire (fold_left (dijkstra_relacher q x) voisins dp).1 v
  <= vers_int (a.1 + lire dp.1 x).
Proof.
  intros Hx (m1 & m2 & ->)%list_elem_of_split Hv.
  rewrite fold_left_app. cbn [fold_left].
  set (dp1 := fold_left (dijkstra_relacher q x) m1 dp).
  assert (lire dp1.1 x = lire dp.1 x) as Hsame.
  { destruct (dijkstra_relacher_tous_effet q x m1 dp x) as [[? _] | (? & _)];
      done. }
  assert (lire (fold_left (dijkstra_relacher q x) m2
                  (dijkstra_relacher q x dp1 (v, a))).1 v
          <= lire (dijkstra_relacher q x dp1 (v, a)).1 v) as Hm2.
  { destruct (dijkstra_relacher_tous_effet q x m2
                (dijkstra_relacher q x dp1 (v, a)) v)
      as [[? _] | (_ & _ & _ & ?)]; lia. }
  etrans; [exact Hm2 |]. rewrite <- Hsame.
  unfold dijkstra_relacher. cbn [fst snd]. rewrite bool_decide_eq_true_2 by done.
  destruct (Z.ltb_spec (vers_int (a.1 + lire dp1.1 x)) (lire dp1.1 v));
    cbn [fst]; [| done].
  by rewrite lire_insert, decide_True.
Qed.

Lemma cout_chemin_deux g a b l w c' :
  trouver a (m_arcs g) ≫= trouver b = Some w →
  cout_chemin g (b :: l) = Some c' →
  cout_chemin g (a :: b :: l) = Some (vers_int w.1 + c').
Proof.
  intros Hw Hc.
  change (cout_chemin g (a :: b :: l))
    with (c ← trouver a (m_arcs g) ≫= trouver b;
          r ← cout_chemin g (b :: l); Some (vers_int c.1 + r)).
  by rewrite Hw, Hc.
Qed.

(** The cost of a path is the cost of the path without its last vertex
    plus the cost of its last arc. *)
Lemma cout_chemin_snoc g l a b c :
  cout_chemin g (l ++ [a; b]) = Some c →
  ∃ voisins w c',
    trouver a (m_arcs g) = Some voisins ∧ (b, w) ∈ voisins ∧
    cout_chemin g (l ++ [a]) = Some c' ∧ c = c' + vers_int w.1.
Proof.
  revert c. induction l as [|x l IH]; intros c; cbn [app].
  - intros (voisins & w & c' & Ha & Hb & Hw & Hc' & ->)%cout_chemin_cons.
    injection Hc' as <-.
    destruct (trouver a (m_arcs g)) as [voisins'|] eqn:Hv; [| done].
    cbn [mbind option_bind] in Hw.
    exists voisins', w, 0. split_and!; try done; [| lia].
    by apply trouver_element.
  - destruct l as [|x' l]; cbn [app] in *.
    + intros (v1 & w1 & c1 & _ & _ & Hw1 & Hc1 & ->)%cout_chemin_cons.
      destruct (IH c1 Hc1) as (voisins & w & c' & Ha & Hb & Hc' & ->).
      exists voisins, w, (vers_int w1.1 + c'). split_and!; try done; [| lia].
      by apply cout_chemin_deux.
    + intros (v1 & w1 & c1 & _ & _ & Hw1 & Hc1 & ->)%cout_chemin_cons.
      destruct (IH c1 Hc1) as (voisins & w & c' & Ha & Hb & Hc' & ->).
      exists voisins, w, (vers_int w1.1 + c'). split_and!; try done; [| lia].
      by apply cout_chemin_deux.
Qed.

(** A path from the origin to a vertex that waits in [Q] meets a vertex of
    [Q] that is at most at the cost of the path. *)
Lemma chemin_frontiere g o E e :
  couts_non_negatifs g → invariant_dijkstra g o E e →
  ∀ q y c,
    head q = Some o → last q = Some y → cout_chemin g q = Some c →
    y ∈ dj_Q e →
    ∃ z, z ∈ dj_Q e ∧ lire (dj_distances e) z <= c.
Proof.
  intros Hc (Ha & HQ & Hk & Hdisj & Hb & Hzero & Hopt & Hrel).
  induction q as [|y' q IH] using rev_ind; intros y c Hhead Hlast Hcout Hy;
    [done |].
  rewrite last_snoc in Hlast. injection Hlast as ->.
  destruct q as [|y0 q _] using rev_ind.
  - injection Hhead as ->. injection Hcout as <-. by exists o.
  - rewrite <- app_assoc in Hcout. cbn [app] in Hcout.
    apply cout_chemin_snoc in Hcout as (voisins & w & c' & Hv & Hw & Hc' & ->).
    assert ((y0, voisins) ∈ m_arcs g) as Hel by (by apply trouver_element).
    pose proof (couts_non_negatifs_arc g y0 voisins y w Hc Hel Hw) as Hpos.
    rewrite vers_int_id by lia.
    assert (head (q ++ [y0]) = Some o) as Hhead'.
    { destruct q; [| done]. cbn in Hhead |- *. done. }
    destruct (Hk y0) as [HE | HQ0]; [by eexists | |].
    + exists y. split; [done |].
      pose proof (Hopt y0 (q ++ [y0]) c' HE Hhead' (last_snoc _ _) Hc').
      pose proof (Hrel y0 voisins y w HE Hv Hw Hy). lia.
    + destruct (IH y0 c' Hhead' (last_snoc _ _) Hc' HQ0) as (z & Hz & Hle).
      exists z. split; [done | lia].
Qed.

(** The vertex that lines 203-208 choose is at most at the cost of every
    path from the origin to it. *)
Lemma extraction_optimale g o E e x :
  couts_non_negatifs g → invariant_dijkstra g o E e →
  noeud_minimal (dj_distances e) (dj_Q e) = Some x →
  ∀ q c, head q = Some o → last q = Some x → cout_chemin g q = Some c →
         lire (dj_distances e) x <= c.
Proof.
  intros Hc Hinv Hx q c Hhead Hlast Hcout.
  destruct (chemin_frontiere g o E e Hc Hinv q x c Hhead Hlast Hcout)
    as (z & Hz & Hle); [by eapply noeud_minimal_dans_Q |].
  pose proof (noeud_minimal_minimum _ _ _ Hx z Hz). lia.
Qed.

(** One iteration of lines 203-222 that does not stop at the destination
    keeps the invariant, with the chosen vertex added to [E]. *)
Lemma invariant_dijkstra_pas g o E e x voisins :
  couts_non_negatifs g → invariant_dijkstra g o E e →
  noeud_minimal (dj_distances e) (dj_Q e) = Some x →
  trouver x (m_arcs g) = Some voisins →
  let q' := Q_effacer x (dj_Q e) in
  let dp' := fold_left (dijkstra_relacher q' x) voisins
               (dj_distances e, dj_predecesseurs e) in
  invariant_dijkstra g o (x :: E) (mkDijkstra dp'.1 dp'.2 q' (m_arcs g)).
Proof.
  intros Hc Hinv Hx Hv. cbn zeta.
  pose proof (noeud_minimal_dans_Q _ _ _ Hx) as HxQ.
  pose proof (extraction_optimale g o E e x Hc Hinv Hx) as Hoptx.
  destruct Hinv as (Ha & HQ & Hk & Hdisj & Hb & Hzero & Hopt & Hrel).
  assert (∀ v, v ∈ Q_effacer x (dj_Q e) ↔ v ∈ dj_Q e ∧ v ≠ x) as HQ'.
  { intros v. unfold Q_effacer. rewrite list_elem_of_filter. tauto. }
  set (q' := Q_effacer x (dj_Q e)) in *.
  set (dp' := fold_left (dijkstra_relacher q' x) voisins
                (dj_distances e, dj_predecesseurs e)).
  pose proof (λ v, dijkstra_relacher_tous_effet q' x voisins
                     (dj_distances e, dj_predecesseurs e) v) as Heff.
  cbn zeta in Heff. fold dp' in Heff. cbn [fst snd] in Heff.
  assert (∀ v, lire dp'.1 v <= lire (dj_distances e) v) as Hdec.
  { intros v. destruct (Heff v) as [[? _] | (_ & _ & _ & ?)]; lia. }
  assert (∀ v, v ∉ q' → lire dp'.1 v = lire (dj_distances e) v) as Hfixe.
  { intros v Hv'. destruct (Heff v) as [[? _] | (? & _)]; done. }
  assert (x ∉ q') as Hxq by (rewrite HQ'; tauto).
  unfold invariant_dijkstra. cbn [dj_arcs dj_Q dj_distances].
  split_and!.
  - done.
  - intros y [Hy _]%HQ'. by apply HQ.
  - intros k Hkk. destruct (decide (k = x)) as [-> | ?];
      [left; apply list_elem_of_here |].
    destruct (Hk k Hkk) as [? | ?];
      [left; by apply list_elem_of_further | right; by apply HQ'].
  - intros u [-> | Hu]%elem_of_cons; [done |].
    rewrite HQ'. intros [? _]. by apply (Hdisj u).
  - intros v. destruct (Heff v) as [[-> _] | (_ & _ & _ & Hlt)];
      [apply Hb |].
    split; [| pose proof (Hb v); lia].
    assert (∀ l dp, (∀ v, -2147483648 <= lire dp.1 v) →
              ∀ v, -2147483648
                   <= lire (fold_left (dijkstra_relacher q' x) l dp).1 v)
      as Hmin.
    { induction l as [|u l IHl]; intros dp Hdp; [done |].
      cbn [fold_left]. apply IHl. intros v'. unfold dijkstra_relacher.
      destruct (bool_decide _); [| apply Hdp].
      destruct (Z.ltb _ _); [| apply Hdp]. cbn [fst].
      rewrite lire_insert. destruct (decide _); [| apply Hdp].
      apply vers_int_borne. }
    apply Hmin. intros v'. apply Hb.
  - pose proof (Hdec o). lia.
  - intros u q c [-> | Hu]%elem_of_cons Hhead Hlast Hcout.
    + pose proof (Hdec x). pose proof (Hoptx q c Hhead Hlast Hcout). lia.
    + pose proof (Hdec u). pose proof (Hopt u q c Hu Hhead Hlast Hcout). lia.
  - intros u voisins' v a [-> | Hu]%elem_of_cons Hv' Hva Hvq.
    + rewrite Hv in Hv'. injection Hv' as <-.
      rewrite (Hfixe x Hxq).
      pose proof (dijkstra_relacher_tous_arc q' x voisins
                    (dj_distances e, dj_predecesseurs e) v a Hxq Hva Hvq)
        as Harc. fold dp' in Harc. cbn [fst] in Harc.
      assert ((x, voisins) ∈ m_arcs g) as Hel by (by apply trouver_element).
      pose proof (couts_non_negatifs_arc g x voisins v a Hc Hel Hva).
      pose proof (Hb x).
      pose proof (vers_int_au_plus (a.1 + lire (dj_distances e) x)). lia.
    + rewrite (Hfixe u).
      2:{ rewrite HQ'. intros [? _]. by apply (Hdisj u). }
      apply HQ' in Hvq as [Hvq _].
      pose proof (Hrel u voisins' v a Hu Hv' Hva Hvq).
      pose proof (Hdec v). lia.
Qed.

(** Lines 195-201 establish the invariant, no vertex having left [Q]. *)
Lemma invariant_dijkstra_init g o :
  invariant_dijkstra g o [] (dijkstra_init g o).
Proof.
  destruct (dijkstra_init_chaine g o) as (Ha & HQ & _). cbn zeta in *.
  unfold invariant_dijkstra. split_and!; try done.
  - intros x. by rewrite HQ.
  - intros k Hk. right. by apply HQ.
  - by intros u ?%elem_of_nil.
  - intros v. unfold dijkstra_init. cbn [dj_distances].
    rewrite lire_insert. destruct (decide _); [unfold INT_MAX; lia |].
    destruct (dijkstra_init_tables (m_arcs g) (mkDijkstra ∅ ∅ [] (m_arcs g)))
      as [H1 H2]. cbn zeta in H1, H2.
    destruct (decide (v ∈ (m_arcs g).*1)) as [Hv | Hv].
    + destruct (H1 v Hv) as (-> & _). unfold INT_MAX. lia.
    + destruct (H2 v Hv) as (-> & _). cbn [dj_distances].
      unfold lire. rewrite lookup_empty. cbn [default]. unfold INT_MAX. lia.
  - destruct (dijkstra_init_etat g o) as (-> & _). lia.
  - by intros u q c' ?%elem_of_nil.
  - by intros u voisins v a ?%elem_of_nil.
Qed.

(** While the destination waits in [Q] and the iterations left are at least
    as many as the vertices of [Q], the loop of lines 202-223 takes the
    destination out of [Q], at a distance that is at most the cost of every
    path from the origin to it. *)
Lemma dijkstra_boucle_optimal g o d :
  couts_non_negatifs g →
  ∀ n e E,
    invariant_dijkstra g o E e → d ∈ dj_Q e → (length (dj_Q e) ≤ n)%nat →
    ∃ e', dijkstra_boucle n d e = (true, e') ∧
          ∀ q c, head q = Some o → last q = Some d →
                 cout_chemin g q = Some c → lire (dj_distances e') d <= c.
Proof.
  intros Hc. induction n as [|n IH]; intros e E Hinv Hd Hlen.
  - destruct (dj_Q e); [by apply elem_of_nil in Hd | cbn [length] in Hlen; lia].
  - cbn [dijkstra_boucle].
    destruct (noeud_minimal_existe (dj_distances e) _ _ Hd) as [x Hx].
    rewrite Hx. pose proof (noeud_minimal_dans_Q _ _ _ Hx) as HxQ.
    pose proof (extraction_optimale g o E e x Hc Hinv Hx) as Hoptx.
    destruct (Z.eqb_spec x d) as [-> | Hne]; [by eexists |].
    pose proof Hinv as (Ha & HQ & _).
    unfold crochet. rewrite Ha. destruct (HQ _ HxQ) as [voisins Hv]. rewrite Hv.
    apply (IH _ (x :: E)).
    + by apply (invariant_dijkstra_pas g o E e x voisins).
    + cbn [dj_Q]. unfold Q_effacer. by apply list_elem_of_filter.
    + cbn [dj_Q]. pose proof (longueur_Q_effacer x (dj_Q e) HxQ). lia.
Qed.

(** X20.  In a network whose costs lie between 0 and INT_MAX and where
    [nbSommets] is not less than the number of vertices stored, the
    distance that [dijkstra] returns is at most the cost of every path from
    [numOrigine] to [numDest]. *)
Theorem dijkstra_au_plus_chemin (g : Reseau) (numOrigine numDest : Z)
    (fuel : nat) (dist : Z) (chemin : list Z) (p : list Z) (c : Z) :
  couts_non_negatifs g →
  Z.of_nat (length (m_arcs g)) <= nbSommets g →
  (dijkstra fuel g numOrigine numDest).1 = Retour (dist, chemin) →
  head p = Some numOrigine → last p = Some numDest →
  cout_chemin g p = Some c →
  dist <= c.
Proof.
  intros Hc Hn. unfold dijkstra.
  destruct (negb (sommetExiste g numOrigine) || negb (sommetExiste g numDest))
    eqn:Hex; [done |].
  apply orb_false_iff in Hex as [_ Hd%negb_false_iff].
  destruct (dijkstra_init_chaine g numOrigine) as (_ & HQ & _).
  cbn zeta in *.
  destruct (dijkstra_boucle_optimal g numOrigine numDest Hc
              (Z.to_nat (nbSommets g)) (dijkstra_init g numOrigine) [])
    as (e' & -> & Hopt).
  - apply invariant_dijkstra_init.
  - apply HQ. by apply sommetExiste_trouver.
  - pose proof (longueur_Q_init g numOrigine). lia.
  - cbn [fst]. intros ->%reconstruire_distance Hx Hy Hp. by apply (Hopt p).
Qed.

Lemma dijkstra_au_plus_chemin_temoin : 4 <= 6.
Proof.
  apply (dijkstra_au_plus_chemin reseau_exemple 1 4 5 4 [1; 2; 3; 4]
           [1; 3; 4] 6);
    [apply couts_non_negatifs_exemple | cbn; lia | reflexivity | reflexivity
     | reflexivity | reflexivity].
Defined.

(** ** dijkstra: the distance returned is the cost of the path returned *)

(** Lines 214-222 with [noeud_min] out of [Q]: a vertex keeps its distance
    and its predecessor, or it is a vertex of [Q] that has [noeud_min] for
    predecessor and the sum of line 216, for one of the arcs from
    [noeud_min] to it, for distance. *)
Lemma dijkstra_relacher_tous_exact q x voisins dp v :
  x ∉ q →
  let dp' := fold_left (dijkstra_relacher q x) voisins dp in
  (lire dp'.1 v = lire dp.1 v ∧ lire dp'.2 v = lire dp.2 v) ∨
  (v ∈ q ∧ ∃ a, (v, a) ∈ voisins ∧ lire dp'.2 v = vers_int x ∧
                lire dp'.1 v = vers_int (a.1 + lire dp.1 x) ∧
                lire dp'.1 v < lire dp.1 v).
Proof.
  intros Hx. cbn zeta. revert dp.
  induction voisins as [|u l IH]; intros dp; [by left |].
  cbn [fold_left].
  assert (lire (dijkstra_relacher q x dp u).1 x = lire dp.1 x) as Hsame.
  { unfold dijkstra_relacher. case_bool_decide as Hq; [| done].
    destruct (Z.ltb _ _); [| done]. cbn [fst].
    rewrite lire_insert, decide_False; [done |].
    intros Heq. apply Hx. by rewrite <- Heq. }
  assert ((lire (dijkstra_relacher q x dp u).1 v = lire dp.1 v ∧
           lire (dijkstra_relacher q x dp u).2 v = lire dp.2 v) ∨
          (v ∈ q ∧ v = u.1 ∧
           lire (dijkstra_relacher q x dp u).2 v = vers_int x ∧
           lire (dijkstra_relacher q x dp u).1 v
           = vers_int (u.2.1 + lire dp.1 x) ∧
           lire (dijkstra_relacher q x dp u).1 v < lire dp.1 v)) as Hu.
  { unfold dijkstra_relacher. case_bool_decide as Hq; [| by left].
    destruct (Z.ltb_spec (vers_int (u.2.1 + lire dp.1 x)) (lire dp.1 u.1))
      as [Hlt | ?]; [| by left].
    cbn [fst snd]. rewrite !lire_insert.
    destruct (decide (u.1 = v)) as [<- | ?]; [by right | by left]. }
  destruct (IH (dijkstra_relacher q x dp u))
    as [[H1 H2] | (Hq & a & Ha & H2 & H1 & Hlt)].
  - destruct Hu as [[H3 H4] | (Hq & -> & H4 & H3 & Hlt)].
    + left. by rewrite H1, H2.
    + right. rewrite H1, H2. split; [done |]. exists u.2.
      split_and!; try done. destruct u. apply list_elem_of_here.
  - right. split; [done |]. exists a. rewrite Hsame in H1.
    split_and!; try done; [by apply list_elem_of_further |].
    destruct Hu as [[H3 _] | (_ & _ & _ & _ & H3)]; lia.
Qed.

Lemma sans_debordement_arc g c u voisins v a :
  sans_debordement g c → (u, voisins) ∈ m_arcs g → (v, a) ∈ voisins →
  c + a.1 <= INT_MAX.
Proof.
  intros Hc Hu Hv.
  apply (proj1 (Forall_forall _ _) (proj1 (Forall_forall _ _) Hc _ Hu) _ Hv).
Qed.

(** When some path from the origin to the destination costs [c], and no
    stored cost added to [c] goes over INT_MAX, every vertex leaves [Q] at
    a distance of at most [c] and every sum of line 216 is exact. *)
Lemma dijkstra_boucle_exact g o d p c :
  couts_non_negatifs g → sans_debordement g c →
  head p = Some o → last p = Some d → cout_chemin g p = Some c →
  ∀ n e E,
    invariant_dijkstra g o E e → predecesseurs_dijkstra g o c E e →
    d ∈ dj_Q e → (length (dj_Q e) ≤ n)%nat →
    ∃ e' E',
      dijkstra_boucle n d e = (true, e') ∧
      predecesseurs_dijkstra g o c E' e' ∧ d ∈ E' ∧
      ∀ q c', head q = Some o → last q = Some d →
              cout_chemin g q = Some c' → lire (dj_distances e') d <= c'.
Proof.
  intros Hc Hm Hhead Hlast Hcout.
  induction n as [|n IH]; intros e E Hinv Hpred Hd Hlen.
  - destruct (dj_Q e); [by apply elem_of_nil in Hd | cbn [length] in Hlen; lia].
  - cbn [dijkstra_boucle].
    destruct (noeud_minimal_existe (dj_distances e) _ _ Hd) as [x Hx].
    rewrite Hx. pose proof (noeud_minimal_dans_Q _ _ _ Hx) as HxQ.
    pose proof (extraction_optimale g o E e x Hc Hinv Hx) as Hoptx.
    assert (lire (dj_distances e) x <= c) as Hxc.
    { destruct (chemin_frontiere g o E e Hc Hinv p d c Hhead Hlast Hcout Hd)
        as (z & Hz & Hle).
      pose proof (noeud_minimal_minimum _ _ _ Hx z Hz). lia. }
    destruct Hpred as (Hzero & Hpos & HE & Hp).
    destruct (Z.eqb_spec x d) as [-> | Hne].
    + eexists _, (d :: E). split; [done |].
      split_and!; [| apply list_elem_of_here | done].
      unfold predecesseurs_dijkstra. cbn [dj_distances dj_predecesseurs].
      split_and!; try done.
      * intros u [-> | Hu]%elem_of_cons; [done | by apply HE].
      * intros v Hv.
        destruct (Hp v Hv) as [? | (u & vs & a & ? & ? & ? & ? & ? & ?)];
          [by left |].
        right. exists u, vs, a. split_and!; try done.
        by apply list_elem_of_further.
    + pose proof Hinv as (Ha & HQ & _ & Hdisj & Hb & _).
      unfold crochet. rewrite Ha.
      destruct (HQ _ HxQ) as [voisins Hv]. rewrite Hv.
      assert ((x, voisins) ∈ m_arcs g) as Hel by (by apply trouver_element).
      assert (∀ v, v ∈ Q_effacer x (dj_Q e) ↔ v ∈ dj_Q e ∧ v ≠ x) as HQ'.
      { intros v. unfold Q_effacer. rewrite list_elem_of_filter. tauto. }
      assert (x ∉ Q_effacer x (dj_Q e)) as Hxq by (rewrite HQ'; tauto).
      pose proof (λ v, dijkstra_relacher_tous_exact (Q_effacer x (dj_Q e)) x
                         voisins (dj_distances e, dj_predecesseurs e) v Hxq)
        as Heff. cbn zeta in Heff. cbn [fst snd] in Heff.
      assert (∀ v a, (v, a) ∈ voisins →
                vers_int (a.1 + lire (dj_distances e) x)
                = a.1 + lire (dj_distances e) x ∧
                0 <= a.1 + lire (dj_distances e) x) as Hexact.
      { intros v a Hva.
        pose proof (couts_non_negatifs_arc g x voisins v a Hc Hel Hva).
        pose proof (sans_debordement_arc g c x voisins v a Hm Hel Hva).
        pose proof (Hpos x). rewrite vers_int_id; lia. }
      apply (IH _ (x :: E)).
      * by apply (invariant_dijkstra_pas g o E e x voisins).
      * unfold predecesseurs_dijkstra. cbn [dj_distances dj_predecesseurs].
        split_and!.
        -- destruct (Heff o) as [[-> _] | (_ & a & Ha' & _ & Heq & Hlt)];
             [done |].
           destruct (Hexact o a Ha'). lia.
        -- intros v.
           destruct (Heff v) as [[-> _] | (_ & a & Ha' & _ & -> & _)];
             [apply Hpos |].
           by destruct (Hexact v a Ha') as [-> ?].
        -- intros u Hu.
           destruct (Heff u) as [[-> _] | (Huq & _)].
           ++ apply elem_of_cons in Hu as [-> | Hu]; [done | by apply HE].
           ++ apply HQ' in Huq as [Huq Hux].
              apply elem_of_cons in Hu as [-> | Hu]; [done |].
              by destruct (Hdisj u Hu).
        -- intros v Hkv.
           destruct (Heff v) as [[H1 H2] | (Hvq & a & Ha' & H2 & H1 & Hlt)].
           ++ rewrite H1, H2.
              destruct (Hp v Hkv)
                as [? | (u & vs & a & Hpu & Hu & Huv & Hva & Hle & Hlt)];
                [by left |].
              right. exists u, vs, a.
              destruct (Heff u) as [[-> _] | (Huq & _)].
              ** split_and!; try done. by apply list_elem_of_further.
              ** apply HQ' in Huq as [Huq _]. by destruct (Hdisj u Hu).
           ++ right. exists x, voisins, a. rewrite H2.
              destruct (Heff x) as [[-> _] | (Hxq' & _)]; [| done].
              destruct (Hexact v a Ha') as [Heq _].
              pose proof (Hb v).
              split_and!; try done; [apply list_elem_of_here | lia | lia].
      * cbn [dj_Q]. by apply HQ'.
      * cbn [dj_Q]. pose proof (longueur_Q_effacer x (dj_Q e) HxQ). lia.
Qed.

Lemma predecesseurs_dijkstra_init g o c :
  sommetExiste g o = true → 0 <= c →
  predecesseurs_dijkstra g o c [] (dijkstra_init g o).
Proof.
  intros Ho Hc.
  destruct (dijkstra_init_etat g o) as (Hzero & Hp & Hk & Hdist).
  cbn zeta in *. unfold predecesseurs_dijkstra. split_and!.
  - done.
  - intros v. unfold dijkstra_init. cbn [dj_distances].
    rewrite lire_insert. destruct (decide _); [lia |].
    destruct (dijkstra_init_tables (m_arcs g) (mkDijkstra ∅ ∅ [] (m_arcs g)))
      as [H1 H2]. cbn zeta in H1, H2.
    destruct (decide (v ∈ (m_arcs g).*1)) as [Hv | Hv].
    + destruct (H1 v Hv) as (-> & _). unfold INT_MAX. lia.
    + destruct (H2 v Hv) as (-> & _). cbn [dj_distances].
      unfold lire. rewrite lookup_empty. cbn [default]. lia.
  - by intros u ?%elem_of_nil.
  - intros v Hv%trouver_cles. left. split; [by apply Hp |].
    destruct (decide (v = o)) as [? | Hne]; [by left | right].
    apply Hdist; [by apply Hk | done].
Qed.

(** X21.  When some path from [numOrigine] to another vertex [numDest]
    costs [c], below INT_MAX, and no stored cost added to [c] goes over
    INT_MAX, in a network with costs of 0 or more whose tables hold each
    key once, [dijkstra] returns a shortest path: a path from [numOrigine]
    to [numDest] along stored arcs whose cost is the distance returned,
    which is at most [c]. *)
Theorem dijkstra_plus_court_chemin (g : Reseau) (numOrigine numDest : Z)
    (fuel : nat) (dist : Z) (chemin : list Z) (p : list Z) (c : Z) :
  Forall est_unsigned (m_arcs g).*1 → cles_uniques g →
  sommetExiste g 4294967295 = false →
  Z.of_nat (length (m_arcs g)) <= nbSommets g →
  couts_non_negatifs g → sans_debordement g c → c < INT_MAX →
  numOrigine ≠ numDest →
  head p = Some numOrigine → last p = Some numDest →
  cout_chemin g p = Some c →
  (dijkstra fuel g numOrigine numDest).1 = Retour (dist, chemin) →
  head chemin = Some numOrigine ∧ last chemin = Some numDest ∧
  cout_chemin g chemin = Some dist ∧ dist <= c.
Proof.
  intros Hu Hcu Hmax Hn Hc Hm Hlt Hne Hhead Hlast Hcout. unfold dijkstra.
  destruct (negb (sommetExiste g numOrigine) || negb (sommetExiste g numDest))
    eqn:Hex; [done |].
  apply orb_false_iff in Hex as [Ho%negb_false_iff Hd%negb_false_iff].
  destruct (dijkstra_init_chaine g numOrigine) as (_ & HQ & _).
  cbn zeta in *.
  pose proof (cout_chemin_positif g p c Hc Hcout) as Hc0.
  destruct (dijkstra_boucle_exact g numOrigine numDest p c Hc Hm Hhead Hlast
              Hcout (Z.to_nat (nbSommets g)) (dijkstra_init g numOrigine) [])
    as (e' & E' & -> & (Hzero & Hpos & HE & Hp) & HdE & Hopt).
  - apply invariant_dijkstra_init.
  - by apply predecesseurs_dijkstra_init.
  - apply HQ. by apply sommetExiste_trouver.
  - pose proof (longueur_Q_init g numOrigine). lia.
  - cbn [fst].
    assert (is_Some (trouver numDest (m_arcs g))) as Hkd
      by (by apply sommetExiste_trouver).
    assert (∀ x, is_Some (trouver x (m_arcs g)) → vers_int x ≠ -1) as Hord.
    { intros x Hx%trouver_cles. apply vers_int_ordinaire.
      - by apply (proj1 (Forall_forall _ _) Hu).
      - intros ->. apply sommetExiste_cles in Hx. congruence. }
    assert (∀ v, is_Some (trouver v (m_arcs g)) →
                 predecesseur_cout (m_arcs g) numOrigine (dj_distances e')
                   (dj_predecesseurs e') v) as Hpc.
    { intros v Hv.
      destruct (Hp v Hv) as [? | (u & vs & a & Hpu & HuE & Huv & Hva & Hle & Hlt')];
        [by left |].
      right. exists u, vs, a.
      pose proof (couts_non_negatifs_arc g u vs v a Hc Huv Hva).
      pose proof (HE u HuE). rewrite (vers_int_id a.1) by lia.
      split_and!; try done. lia. }
    pose proof (HE numDest HdE) as Hdc.
    unfold reconstruire.
    destruct (Z.eqb_spec (lire (dj_predecesseurs e') numDest) (-1))
      as [Hpd | Hpd]; cbn [negb].
    { destruct (Hp numDest Hkd)
        as [[_ [? | ?]] | (u & vs & a & Hpu & _ & Huv & _)];
        [done | lia |].
      rewrite Hpu in Hpd. exfalso. apply (Hord u); [| done].
      by eapply trouver_present. }
    destruct (remonter _ _ _ _) as [r|] eqn:Hr; [| done].
    intros [= <- <-].
    destruct (remonter_cout g numOrigine (dj_distances e')
                (dj_predecesseurs e') (lire (dj_distances e') numDest)
                Hcu Hu Hmax Hzero Hpc fuel numDest [] 0 r)
      as (Hh & c' & Hc' & Hle); try done; [lia | lia |].
    assert (last (rev r) = Some numDest) as Hl.
    { rewrite remonter_eq in Hr.
      destruct (Z.eqb_spec (vers_int numDest) (-1)) as [Habs | _];
        [by destruct (Hord numDest Hkd) |].
      destruct fuel as [|fuel']; [done |].
      apply remonter_prefixe in Hr as [s ->].
      rewrite vers_unsigned_vers_int
        by (by apply (proj1 (Forall_forall _ _) Hu), sommetExiste_cles).
      cbn [app]. change (numDest :: s) with ([numDest] ++ s).
      rewrite rev_app_distr. cbn [rev app]. apply last_snoc. }
    pose proof (Hopt (rev r) c' Hh Hl Hc').
    split_and!; try done. rewrite Hc'. f_equal. lia.
Qed.

Lemma dijkstra_plus_court_chemin_temoin :
  head [1; 2; 3; 4] = Some 1 ∧ last [1; 2; 3; 4] = Some 4 ∧
  cout_chemin reseau_exemple [1; 2; 3; 4] = Some 4 ∧ 4 <= 6.
Proof.
  apply (dijkstra_plus_court_chemin reseau_exemple 1 4 5 4 [1; 2; 3; 4]
           [1; 3; 4] 6);
    [| apply cles_uniques_exemple | reflexivity | cbn; lia
     | apply couts_non_negatifs_exemple | | reflexivity | done
     | reflexivity | reflexivity | reflexivity | reflexivity].
  - unfold reseau_exemple. cbn [m_arcs fmap list_fmap fst].
    repeat (apply Forall_cons; split; [unfold est_unsigned; lia |]).
    constructor.
  - unfold sans_debordement, reseau_exemple. cbn [m_arcs].
    repeat (apply Forall_cons; split;
            [repeat (apply Forall_cons; split;
                     [cbn [fst snd]; unfold INT_MAX; lia |]);
             constructor |]).
    constructor.
Defined.

(** ** bellmanFord: the distance returned is the cost of the path returned *)

(** With costs of 1 or more, the walk of lines 361-364 goes through
    vertices of the network at smaller and smaller distances, so through
    no vertex twice. *)
Lemma remonter_distincts g o dist pred :
  couts_positifs g → Forall est_unsigned (m_arcs g).*1 →
  (∀ v, is_Some (trouver v (m_arcs g)) →
        predecesseur_cout (m_arcs g) o dist pred v) →
  ∀ fuel x acc r,
    is_Some (trouver x (m_arcs g)) → NoDup acc →
    (∀ y, y ∈ acc → y ∈ (m_arcs g).*1 ∧ lire dist x < lire dist y) →
    remonter fuel pred (vers_int x) acc = Some r →
    NoDup r ∧ ∀ y, y ∈ r → y ∈ (m_arcs g).*1.
Proof.
  intros Hc Hu Hp. induction fuel as [|fuel IH]; intros x acc r Hx Hnd Hacc;
    rewrite remonter_eq; destruct (Z.eqb (vers_int x) (-1)); try done.
  - intros [= <-]. split; [done |]. intros y Hy. by apply Hacc.
  - intros [= <-]. split; [done |]. intros y Hy. by apply Hacc.
  - rewrite vers_unsigned_vers_int
      by (by apply (proj1 (Forall_forall _ _) Hu), trouver_cles).
    assert (NoDup (acc ++ [x])) as Hnd'.
    { apply NoDup_app. split_and!; [done | | apply NoDup_singleton].
      intros y Hy ->%list_elem_of_singleton. apply Hacc in Hy as [_ ?]. lia. }
    assert (∀ y, y ∈ acc ++ [x] → y ∈ (m_arcs g).*1) as Hkeys.
    { intros y [Hy | ->%list_elem_of_singleton]%elem_of_app;
        [by apply Hacc | by apply trouver_cles]. }
    destruct (Hp x Hx)
      as [[-> _] | (u & voisins & a & -> & Hin & Ha & _ & _ & Hle)].
    + rewrite remonter_eq. cbn. by intros [= <-].
    + pose proof (couts_positifs_arc g u voisins x a Hc Hin Ha) as Hpos.
      rewrite vers_int_id in Hle by lia.
      apply IH; [by eapply trouver_present | done |].
      intros y [Hy | ->%list_elem_of_singleton]%elem_of_app.
      * destruct (Hacc y Hy). split; [done | lia].
      * split; [by apply trouver_cles | lia].
Qed.

Lemma couts_positifs_non_negatifs g : couts_positifs g → couts_non_negatifs g.
Proof.
  unfold couts_positifs, couts_non_negatifs. intros H.
  eapply Forall_impl; [exact H |]. intros kv Hkv.
  eapply Forall_impl; [exact Hkv |]. intros da. cbn beta. lia.
Qed.

(** X22.  In a network with costs between 1 and INT_MAX whose tables hold
    each key once, a path that [bellmanFord] returns, when it is not empty,
    goes from [numOrigine] to [numDest] along stored arcs, through no
    vertex twice, and its cost is the distance returned. *)
Theorem bellmanFord_cout_du_chemin (g : Reseau) (numOrigine numDest : Z)
    (fuel : nat) (dist : Z) (chemin : list Z) :
  Forall est_unsigned (m_arcs g).*1 → cles_uniques g →
  sommetExiste g 4294967295 = false →
  Z.of_nat (length (m_arcs g)) <= nbSommets g →
  couts_positifs g →
  (bellmanFord fuel g numOrigine numDest).1 = Retour (dist, chemin) →
  chemin ≠ [] →
  head chemin = Some numOrigine ∧ last chemin = Some numDest ∧
  NoDup chemin ∧ cout_chemin g chemin = Some dist.
Proof.
  intros Hu Hcu Hmax Hn Hc. unfold bellmanFord.
  destruct (negb (sommetExiste g numOrigine) || negb (sommetExiste g numDest))
    eqn:Hex; [done |].
  apply orb_false_iff in Hex as [Ho%negb_false_iff Hd%negb_false_iff].
  pose proof (couts_positifs_non_negatifs g Hc) as Hc0.
  destruct (bellman_boucle_couts g numOrigine (Z.to_nat (nbSommets g - 1))
              (couts_positifs_unsigned g Hc) Ho) as (Hb & Hzero & Hp).
  pose proof (bellman_boucle_chemin g Hc0 (Z.to_nat (nbSommets g - 1))
                (bellman_init g numOrigine) (bellman_init_bornees g numOrigine)
                (or_introl eq_refl)) as Hopt.
  cbn zeta in *. cbn [fst].
  set (e := bellman_boucle _ _ _) in *. unfold reconstruire.
  destruct (Z.eqb_spec (lire e.1.2 numDest) (-1)) as [Hpd | Hpd]; cbn [negb];
    [by intros [= _ <-] |].
  destruct (remonter _ _ _ _) as [r|] eqn:Hr; [| done].
  intros [= <- <-] Hne.
  assert (is_Some (trouver numDest (m_arcs g))) as Hkd
    by (by apply sommetExiste_trouver).
  assert (lire e.1.1 numDest < INT_MAX) as Hlt.
  { destruct (Hp numDest Hkd) as [[? _] | (? & ? & ? & _ & _ & _ & _ & ? & _)];
      done. }
  destruct (remonter_cout g numOrigine e.1.1 e.1.2 (lire e.1.1 numDest)
              Hcu Hu Hmax Hzero Hp fuel numDest [] 0 r)
    as (Hhead & c & Hcout & Hle); try done; [lia |].
  destruct (remonter_distincts g numOrigine e.1.1 e.1.2 Hc Hu Hp fuel numDest
              [] r Hkd (NoDup_nil_2 (A:=Z))) as [Hnd Hkeys]; [| done |].
  { by intros y ?%elem_of_nil. }
  assert (last (rev r) = Some numDest) as Hlast.
  { rewrite remonter_eq in Hr.
    destruct (Z.eqb (vers_int numDest) (-1)); [by injection Hr as <- |].
    destruct fuel as [|fuel']; [done |].
    apply remonter_prefixe in Hr as [s ->].
    rewrite vers_unsigned_vers_int
      by (by apply (proj1 (Forall_forall _ _) Hu), sommetExiste_cles).
    cbn [app]. change (numDest :: s) with ([numDest] ++ s).
    rewrite rev_app_distr. cbn [rev app]. apply last_snoc. }
  assert ((length r ≤ length (m_arcs g))%nat) as Hlen.
  { rewrite <- (length_fmap fst (m_arcs g)).
    apply submseteq_length, NoDup_submseteq; done. }
  pose proof (Hopt (rev r) numOrigine numDest c Hhead Hlast Hcout) as Hge.
  rewrite length_rev in Hge.
  assert (lire (bellman_init g numOrigine).1.1 numOrigine = 0) as Hinit.
  { unfold bellman_init. cbn [fst]. by rewrite lire_insert, decide_True. }
  rewrite Hinit in Hge. specialize (Hge ltac:(lia)).
  split_and!; try done.
  - by rewrite <- Permutation_rev.
  - rewrite Hcout. f_equal. lia.
Qed.

Lemma couts_positifs_exemple : couts_positifs reseau_exemple.
Proof.
  unfold couts_positifs, reseau_exemple. cbn [m_arcs].
  repeat (apply Forall_cons; split;
          [repeat (apply Forall_cons; split;
                   [cbn [fst snd]; unfold INT_MAX; lia |]);
           constructor |]).
  constructor.
Qed.

Lemma bellmanFord_cout_du_chemin_temoin :
  head [1; 2; 3; 4] = Some 1 ∧ last [1; 2; 3; 4] = Some 4 ∧
  NoDup [1; 2; 3; 4] ∧ cout_chemin reseau_exemple [1; 2; 3; 4] = Some 4.
Proof.
  apply (bellmanFord_cout_du_chemin reseau_exemple 1 4 5 4 [1; 2; 3; 4]);
    [| apply cles_uniques_exemple | reflexivity | cbn; lia
     | apply couts_positifs_exemple | reflexivity | done].
  unfold reseau_exemple. cbn [m_arcs fmap list_fmap fst].
  repeat (apply Forall_cons; split; [unfold est_unsigned; lia |]).
  constructor.
Defined.

(** ** dijkstra and bellmanFord agree *)

(** What lines 225-237 and 357-369 return from tables that
    [predecesseur_cout] describes: a path from the origin along stored arcs
    that costs at most the distance returned and, with costs of 1 or more,
    goes through no vertex twice. *)
Lemma reconstruire_cout g o d dist pred fuel dd chemin :
  Forall est_unsigned (m_arcs g).*1 → cles_uniques g →
  sommetExiste g 4294967295 = false →
  lire dist o = 0 →
  (∀ v, is_Some (trouver v (m_arcs g)) →
        predecesseur_cout (m_arcs g) o dist pred v) →
  sommetExiste g d = true →
  reconstruire fuel dist pred d = Retour (dd, chemin) →
  chemin ≠ [] →
  dd = lire dist d ∧ dd < INT_MAX ∧
  head chemin = Some o ∧ last chemin = Some d ∧
  (∃ c, cout_chemin g chemin = Some c ∧ c <= dd) ∧
  (couts_positifs g →
   NoDup chemin ∧ (length chemin ≤ length (m_arcs g))%nat).
Proof.
  intros Hu Hcu Hmax Hzero Hp Hd. unfold reconstruire.
  destruct (Z.eqb_spec (lire pred d) (-1)) as [Hpd | Hpd]; cbn [negb];
    [by intros [= _ <-] |].
  destruct (remonter _ _ _ _) as [r|] eqn:Hr; [| done].
  intros [= <- <-] Hne.
  assert (is_Some (trouver d (m_arcs g))) as Hkd
    by (by apply sommetExiste_trouver).
  assert (lire dist d < INT_MAX) as Hlt.
  { destruct (Hp d Hkd) as [[? _] | (? & ? & ? & _ & _ & _ & _ & ? & _)];
      done. }
  destruct (remonter_cout g o dist pred (lire dist d)
              Hcu Hu Hmax Hzero Hp fuel d [] 0 r)
    as (Hhead & c & Hcout & Hle); try done; [lia |].
  split_and!; try done; [| by exists c |].
  - rewrite remonter_eq in Hr.
    destruct (Z.eqb (vers_int d) (-1)); [by injection Hr as <- |].
    destruct fuel as [|fuel']; [done |].
    apply remonter_prefixe in Hr as [s ->].
    rewrite vers_unsigned_vers_int
      by (by apply (proj1 (Forall_forall _ _) Hu), sommetExiste_cles).
    cbn [app]. change (d :: s) with ([d] ++ s).
    rewrite rev_app_distr. cbn [rev app]. apply last_snoc.
  - intros Hc.
    destruct (remonter_distincts g o dist pred Hc Hu Hp fuel d [] r Hkd
                (NoDup_nil_2 (A:=Z))) as [Hnd Hkeys]; [| done |].
    { by intros y ?%elem_of_nil. }
    split; [by rewrite <- Permutation_rev |].
    rewrite length_rev, <- (length_fmap fst (m_arcs g)).
    apply submseteq_length, NoDup_submseteq; done.
Qed.

(** X23.  In a network with costs between 1 and INT_MAX whose tables hold
    each key once, when some path from [numOrigine] to another vertex
    [numDest] costs [c], below INT_MAX, and no stored cost added to [c]
    goes over INT_MAX, [dijkstra] and [bellmanFord] return the same
    distance, and each returns a path of that cost. *)
Theorem dijkstra_bellmanFord_accord (g : Reseau) (numOrigine numDest : Z)
    (fuel fuel' : nat) (dist dist' : Z) (chemin chemin' : list Z)
    (p : list Z) (c : Z) :
  Forall est_unsigned (m_arcs g).*1 → cles_uniques g →
  sommetExiste g 4294967295 = false →
  Z.of_nat (length (m_arcs g)) <= nbSommets g →
  couts_positifs g → sans_debordement g c → c < INT_MAX →
  numOrigine ≠ numDest →
  head p = Some numOrigine → last p = Some numDest →
  cout_chemin g p = Some c →
  (dijkstra fuel g numOrigine numDest).1 = Retour (dist, chemin) →
  (bellmanFord fuel' g numOrigine numDest).1 = Retour (dist', chemin') →
  dist = dist' ∧
  cout_chemin g chemin = Some dist ∧ cout_chemin g chemin' = Some dist.
Proof.
  intros Hu Hcu Hmax Hn Hc Hm Hlt Hne Hhead Hlast Hcout.
  pose proof (couts_positifs_non_negatifs g Hc) as Hc0.
  assert (∀ x, is_Some (trouver x (m_arcs g)) → vers_int x ≠ -1) as Hord.
  { intros x Hx%trouver_cles. apply vers_int_ordinaire.
    - by apply (proj1 (Forall_forall _ _) Hu).
    - intros ->. apply sommetExiste_cles in Hx. congruence. }
  unfold dijkstra, bellmanFord.
  destruct (negb (sommetExiste g numOrigine) || negb (sommetExiste g numDest))
    eqn:Hex; [done |].
  apply orb_false_iff in Hex as [Ho%negb_false_iff Hd%negb_false_iff].
  assert (is_Some (trouver numDest (m_arcs g))) as Hkd
    by (by apply sommetExiste_trouver).
  destruct (dijkstra_init_chaine g numOrigine) as (_ & HQ & _).
  cbn zeta in *.
  pose proof (cout_chemin_positif g p c Hc0 Hcout) as Hcpos.
  destruct (dijkstra_boucle_exact g numOrigine numDest p c Hc0 Hm Hhead Hlast
              Hcout (Z.to_nat (nbSommets g)) (dijkstra_init g numOrigine) [])
    as (e1 & E' & -> & (Hzero1 & Hpos1 & HE & Hp1) & HdE & Hopt1).
  { apply invariant_dijkstra_init. }
  { by apply predecesseurs_dijkstra_init. }
  { apply HQ. by apply sommetExiste_trouver. }
  { pose proof (longueur_Q_init g numOrigine). lia. }
  cbn [fst].
  assert (∀ v, is_Some (trouver v (m_arcs g)) →
               predecesseur_cout (m_arcs g) numOrigine (dj_distances e1)
                 (dj_predecesseurs e1) v) as Hpc1.
  { intros v Hv.
    destruct (Hp1 v Hv)
      as [? | (u & vs & a & Hpu & HuE & Huv & Hva & Hle & Hlt')];
      [by left |].
    right. exists u, vs, a.
    pose proof (couts_non_negatifs_arc g u vs v a Hc0 Huv Hva).
    pose proof (HE u HuE). rewrite (vers_int_id a.1) by lia.
    split_and!; try done. lia. }
  destruct (bellman_boucle_couts g numOrigine (Z.to_nat (nbSommets g - 1))
              (couts_positifs_unsigned g Hc) Ho) as (Hb2 & Hzero2 & Hp2).
  pose proof (bellman_boucle_chemin g Hc0 (Z.to_nat (nbSommets g - 1))
                (bellman_init g numOrigine) (bellman_init_bornees g numOrigine)
                (or_introl eq_refl)) as Hopt2.
  assert (lire (bellman_init g numOrigine).1.1 numOrigine = 0) as Hinit.
  { unfold bellman_init. cbn [fst]. by rewrite lire_insert, decide_True. }
  cbn zeta in *.
  set (e2 := bellman_boucle _ _ _) in *.
  intros Hr1 Hr2.
  pose proof (HE numDest HdE) as Hdc.
  (* the path of dijkstra *)
  assert (chemin ≠ []) as Hne1.
  { intros ->. unfold reconstruire in Hr1.
    destruct (Z.eqb_spec (lire (dj_predecesseurs e1) numDest) (-1))
      as [Hpd | Hpd]; cbn [negb] in Hr1.
    - destruct (Hp1 numDest Hkd)
        as [[_ [? | ?]] | (u & vs & a & Hpu & _ & Huv & _)];
        [done | lia |].
      rewrite Hpu in Hpd. apply (Hord u); [by eapply trouver_present | done].
    - destruct (remonter _ _ _ _) as [r|] eqn:Hr; [| done].
      injection Hr1 as _ Hrev. rewrite remonter_eq in Hr.
      destruct (Z.eqb_spec (vers_int numDest) (-1)) as [Habs | _];
        [by destruct (Hord numDest Hkd) |].
      destruct fuel as [|fuel0]; [done |].
      apply remonter_prefixe in Hr as [s ->]. cbn [app rev] in Hrev.
      by apply app_eq_nil in Hrev as [_ ?]. }
  destruct (reconstruire_cout g numOrigine numDest (dj_distances e1)
              (dj_predecesseurs e1) fuel dist chemin Hu Hcu Hmax Hzero1 Hpc1
              Hd Hr1 Hne1)
    as (-> & _ & Hh1 & Hl1 & (c1 & Hc1 & Hle1) & Hdis1).
  destruct (Hdis1 Hc) as [_ Hlen1].
  pose proof (Hopt1 chemin c1 Hh1 Hl1 Hc1) as Hge1.
  assert (c1 = lire (dj_distances e1) numDest) as -> by lia.
  (* the distance of bellmanFord is at most the cost of that path *)
  pose proof (Hopt2 chemin numOrigine numDest _ Hh1 Hl1 Hc1) as Hle2.
  rewrite Hinit in Hle2. specialize (Hle2 ltac:(lia)). fold e2 in Hle2.
  (* the path of bellmanFord *)
  pose proof (reconstruire_distance _ _ _ _ _ _ Hr2) as Hd2.
  assert (chemin' ≠ []) as Hne2.
  { intros ->. unfold reconstruire in Hr2.
    destruct (Z.eqb_spec (lire e2.1.2 numDest) (-1)) as [Hpd | Hpd];
      cbn [negb] in Hr2.
    - destruct (Hp2 numDest Hkd)
        as [[_ [? | ?]] | (u & vs & a & Hpu & Huv & _)];
        [done | lia |].
      rewrite Hpu in Hpd. apply (Hord u); [by eapply trouver_present | done].
    - destruct (remonter _ _ _ _) as [r|] eqn:Hr; [| done].
      injection Hr2 as _ Hrev. rewrite remonter_eq in Hr.
      destruct (Z.eqb_spec (vers_int numDest) (-1)) as [Habs | _];
        [by destruct (Hord numDest Hkd) |].
      destruct fuel' as [|fuel0]; [done |].
      apply remonter_prefixe in Hr as [s ->]. cbn [app rev] in Hrev.
      by apply app_eq_nil in Hrev as [_ ?]. }
  destruct (reconstruire_cout g numOrigine numDest e2.1.1 e2.1.2 fuel' dist'
              chemin' Hu Hcu Hmax Hzero2 Hp2 Hd Hr2 Hne2)
    as (_ & _ & Hh2 & Hl2 & (c2 & Hc2 & Hle3) & _).
  pose proof (Hopt1 chemin' c2 Hh2 Hl2 Hc2) as Hge2.
  split_and!; [lia | done |]. rewrite Hc2. f_equal. lia.
Qed.

Lemma dijkstra_bellmanFord_accord_temoin :
  4 = 4 ∧
  cout_chemin reseau_exemple [1; 2; 3; 4] = Some 4 ∧
  cout_chemin reseau_exemple [1; 2; 3; 4] = Some 4.
Proof.
  apply (dijkstra_bellmanFord_accord reseau_exemple 1 4 5 5 4 4
           [1; 2; 3; 4] [1; 2; 3; 4] [1; 3; 4] 6);
    [| apply cles_uniques_exemple | reflexivity | cbn; lia
     | apply couts_positifs_exemple | | reflexivity | done
     | reflexivity | reflexivity | reflexivity | reflexivity | reflexivity].
  - unfold reseau_exemple. cbn [m_arcs fmap list_fmap fst].
    repeat (apply Forall_cons; split; [unfold est_unsigned; lia |]).
    constructor.
  - unfold sans_debordement, reseau_exemple. cbn [m_arcs].
    repeat (apply Forall_cons; split;
            [repeat (apply Forall_cons; split;
                     [cbn [fst snd]; unfold INT_MAX; lia |]);
             constructor |]).
    constructor.
Defined.

(** ** bellmanFord on a destination that cannot be reached *)

(** X24.  In a network with costs between 1 and INT_MAX whose tables hold
    each key once, when no path of stored arcs goes from [numOrigine] to
    another vertex [numDest], [bellmanFord] returns INT_MAX and the empty
    path, as its header comment says. *)
Theorem bellmanFord_inatteignable (g : Reseau) (numOrigine numDest : Z)
    (fuel : nat) :
  Forall est_unsigned (m_arcs g).*1 → cles_uniques g →
  sommetExiste g 4294967295 = false →
  couts_positifs g →
  sommetExiste g numOrigine = true → sommetExiste g numDest = true →
  numOrigine ≠ numDest →
  (∀ p c, head p = Some numOrigine → last p = Some numDest →
          cout_chemin g p ≠ Some c) →
  (bellmanFord fuel g numOrigine numDest).1 = Retour (INT_MAX, []).
Proof.
  intros Hu Hcu Hmax Hc Ho Hd Hne Hsans.
  unfold bellmanFord. rewrite Ho, Hd. cbn [negb orb fst].
  destruct (bellman_boucle_couts g numOrigine (Z.to_nat (nbSommets g - 1))
              (couts_positifs_unsigned g Hc) Ho) as (Hb & Hzero & Hp).
  cbn zeta in *. set (e := bellman_boucle _ _ _) in *.
  assert (is_Some (trouver numDest (m_arcs g))) as Hkd
    by (by apply sommetExiste_trouver).
  destruct (Hp numDest Hkd)
    as [[Hpd [? | Hdist]] | (u & vs & a & Hpu & Huv & Hva & _)]; [done | |].
  - unfold reconstruire. rewrite Hpd, Hdist. reflexivity.
  - exfalso.
    assert (vers_int u ≠ -1) as Hou.
    { apply vers_int_ordinaire.
      - apply (proj1 (Forall_forall _ _) Hu), trouver_cles.
        by eapply trouver_present.
      - intros ->.
        assert (sommetExiste g 4294967295 = true); [| congruence].
        apply sommetExiste_trouver. by eapply trouver_present. }
    set (n := Z.to_nat (lire e.1.1 numDest + 1)).
    destruct (remonter_decroit g numOrigine e.1.1 e.1.2 Hc Hu Hb Hp n numDest
                []) as [r Hr]; [done | pose proof (Hb numDest); lia |].
    assert (reconstruire (S n) e.1.1 e.1.2 numDest
            = Retour (lire e.1.1 numDest, rev r)) as Hrec.
    { unfold reconstruire. rewrite Hpu.
      destruct (Z.eqb_spec (vers_int u) (-1)); [done |]. cbn [negb].
      by rewrite Hr. }
    assert (rev r ≠ []) as Hnv.
    { rewrite remonter_eq in Hr.
      destruct (Z.eqb_spec (vers_int numDest) (-1)) as [Habs | _].
      - exfalso. apply (vers_int_ordinaire numDest); [| | done].
        + by apply (proj1 (Forall_forall _ _) Hu), trouver_cles.
        + intros ->. congruence.
      - apply remonter_prefixe in Hr as [s ->]. cbn [app rev].
        intros H. by apply app_eq_nil in H as [_ ?]. }
    destruct (reconstruire_cout g numOrigine numDest e.1.1 e.1.2 (S n)
                (lire e.1.1 numDest) (rev r) Hu Hcu Hmax Hzero Hp Hd Hrec Hnv)
      as (_ & _ & Hh & Hl & (c & Hcout & _) & _).
    by apply (Hsans (rev r) c).
Qed.

Lemma bellmanFord_inatteignable_temoin :
  (bellmanFord 0 reseau_exemple 4 1).1 = Retour (INT_MAX, []).
Proof.
  apply (bellmanFord_inatteignable reseau_exemple 4 1 0);
    [| apply cles_uniques_exemple | reflexivity | apply couts_positifs_exemple
     | reflexivity | reflexivity | done |].
  - unfold reseau_exemple. cbn [m_arcs fmap list_fmap fst].
    repeat (apply Forall_cons; split; [unfold est_unsigned; lia |]).
    constructor.
  - intros p c Hh Hl.
    destruct p as [|a [|b l]]; [done | |].
    + injection Hh as ->. by injection Hl.
    + injection Hh as ->. vm_compute. by destruct (Z.eqb b 4).
Defined.

(** ** The distance does not depend on the enumeration order *)

Lemma Forall2_element_droite {A B} (R : A → B → Prop) (l : list A)
    (k : list B) (y : B) :
  Forall2 R l k → y ∈ k → ∃ x, x ∈ l ∧ R x y.
Proof.
  induction 1 as [|x y' l k Hxy _ IH]; [by intros ?%elem_of_nil |].
  intros [-> | Hy]%elem_of_cons.
  - exists x. split; [apply list_elem_of_here | done].
  - destruct (IH Hy) as (x' & Hx' & HR). exists x'.
    split; [by apply list_elem_of_further | done].
Qed.

Lemma Forall2_element_gauche {A B} (R : A → B → Prop) (l : list A)
    (k : list B) (x : A) :
  Forall2 R l k → x ∈ l → ∃ y, y ∈ k ∧ R x y.
Proof.
  induction 1 as [|x' y l k Hxy _ IH]; [by intros ?%elem_of_nil |].
  intros [-> | Hx]%elem_of_cons.
  - exists y. split; [apply list_elem_of_here | done].
  - destruct (IH Hx) as (y' & Hy' & HR). exists y'.
    split; [by apply list_elem_of_further | done].
Qed.

Lemma reordonne_cles g g' :
  reordonne g g' → (m_arcs g').*1 ≡ₚ (m_arcs g).*1.
Proof.
  intros (_ & _ & m & HF & Hm). rewrite <- Hm.
  assert (∀ l k : list (Z * liste_arcs),
            Forall2 (λ kv kv', kv'.1 = kv.1 ∧ kv.2 ≡ₚ kv'.2) l k →
            k.*1 = l.*1) as Haux.
  { induction 1 as [|kv kv' l k [Hk _] _ IH]; [done |].
    rewrite !fmap_cons. by f_equal. }
  by rewrite (Haux _ _ HF).
Qed.

Lemma reordonne_element g g' u l' :
  reordonne g g' → (u, l') ∈ m_arcs g' →
  ∃ l, (u, l) ∈ m_arcs g ∧ l ≡ₚ l'.
Proof.
  intros (_ & _ & m & HF & Hm) Hin. rewrite <- Hm in Hin.
  destruct (Forall2_element_droite _ _ _ _ HF Hin) as ([u0 l] & Hl & Hu & Hp).
  cbn [fst snd] in *. subst u0. by exists l.
Qed.

Lemma reordonne_element_inv g g' u l :
  reordonne g g' → (u, l) ∈ m_arcs g →
  ∃ l', (u, l') ∈ m_arcs g' ∧ l ≡ₚ l'.
Proof.
  intros (_ & _ & m & HF & Hm) Hin.
  destruct (Forall2_element_gauche _ _ _ _ HF Hin) as ([u0 l'] & Hl & Hu & Hp).
  cbn [fst snd] in *. subst u0. exists l'. by rewrite <- Hm.
Qed.

Lemma reordonne_longueur g g' :
  reordonne g g' → length (m_arcs g') = length (m_arcs g).
Proof.
  intros H%reordonne_cles. apply Permutation_length in H.
  by rewrite !length_fmap in H.
Qed.

Lemma reordonne_sommetExiste g g' k :
  reordonne g g' → sommetExiste g' k = sommetExiste g k.
Proof.
  intros H%reordonne_cles.
  destruct (sommetExiste g k) eqn:E.
  - apply sommetExiste_cles. rewrite H. by apply sommetExiste_cles.
  - destruct (sommetExiste g' k) eqn:E'; [| done].
    apply sommetExiste_cles in E'. rewrite H in E'.
    apply sommetExiste_cles in E'. congruence.
Qed.

Lemma reordonne_cles_uniques g g' :
  reordonne g g' → cles_uniques g → cles_uniques g'.
Proof.
  intros Hr [Hk Hf]. split.
  - by rewrite (reordonne_cles g g' Hr).
  - apply Forall_forall. intros [u l'] Hin.
    destruct (reordonne_element g g' u l' Hr Hin) as (l & Hl & Hp).
    cbn [snd]. rewrite <- Hp.
    apply (proj1 (Forall_forall _ _) Hf (u, l) Hl).
Qed.

(** A property of the stored arcs holds in one order when it holds in
    another. *)
Lemma reordonne_Forall (P : Z * (Z * Z) → Prop) g g' :
  reordonne g g' →
  Forall (λ kv : Z * liste_arcs, Forall P kv.2) (m_arcs g) →
  Forall (λ kv : Z * liste_arcs, Forall P kv.2) (m_arcs g').
Proof.
  intros Hr Hf. apply Forall_forall. intros [u l'] Hin.
  destruct (reordonne_element g g' u l' Hr Hin) as (l & Hl & Hp).
  cbn [snd]. rewrite <- Hp.
  apply (proj1 (Forall_forall _ _) Hf (u, l) Hl).
Qed.

Lemma trouver_permutation {V} (k : Z) (l l' : list (Z * V)) :
  NoDup l.*1 → l ≡ₚ l' → trouver k l' = trouver k l.
Proof.
  intros Hnd Hp.
  assert (NoDup l'.*1) as Hnd' by (by rewrite <- Hp).
  destruct (trouver k l) as [v|] eqn:E.
  - apply trouver_unique; [done |]. rewrite <- Hp. by apply trouver_element.
  - destruct (trouver k l') as [v|] eqn:E'; [| done].
    apply trouver_element in E'. rewrite <- Hp in E'.
    apply (trouver_unique _ _ _ Hnd) in E'. congruence.
Qed.

Lemma reordonne_arc_stocke g g' u v :
  reordonne g g' → cles_uniques g →
  trouver u (m_arcs g') ≫= trouver v = trouver u (m_arcs g) ≫= trouver v.
Proof.
  intros Hr Hcu. pose proof (reordonne_cles_uniques g g' Hr Hcu) as Hcu'.
  destruct (trouver u (m_arcs g)) as [l|] eqn:E.
  - destruct (reordonne_element_inv g g' u l Hr (trouver_element _ _ _ E))
      as (l' & Hl' & Hp).
    rewrite (trouver_unique _ _ _ (proj1 Hcu') Hl'). cbn [mbind option_bind].
    apply trouver_permutation; [| done].
    apply (adjacence_unique g u l Hcu E).
  - destruct (trouver u (m_arcs g')) as [l'|] eqn:E'; [| done].
    destruct (reordonne_element g g' u l' Hr (trouver_element _ _ _ E'))
      as (l & Hl & _).
    apply (trouver_unique _ _ _ (proj1 Hcu)) in Hl. congruence.
Qed.

Lemma reordonne_cout_chemin g g' p :
  reordonne g g' → cles_uniques g → cout_chemin g' p = cout_chemin g p.
Proof.
  intros Hr Hcu. induction p as [|a p IH]; [done |].
  destruct p as [|b l]; [done |].
  change (cout_chemin g' (a :: b :: l))
    with (c ← trouver a (m_arcs g') ≫= trouver b;
          r ← cout_chemin g' (b :: l); Some (vers_int c.1 + r)).
  change (cout_chemin g (a :: b :: l))
    with (c ← trouver a (m_arcs g) ≫= trouver b;
          r ← cout_chemin g (b :: l); Some (vers_int c.1 + r)).
  by rewrite IH, (reordonne_arc_stocke g g' a b Hr Hcu).
Qed.

(** Under the conditions of the shortest path, what [dijkstra] returns: a
    distance that is the cost of the path returned, from the origin to the
    destination, and at most the cost of every such path. *)
Lemma dijkstra_distance_minimale g o d fuel dist chemin p c :
  Forall est_unsigned (m_arcs g).*1 → cles_uniques g →
  sommetExiste g 4294967295 = false →
  Z.of_nat (length (m_arcs g)) <= nbSommets g →
  couts_non_negatifs g → sans_debordement g c → c < INT_MAX →
  o ≠ d →
  head p = Some o → last p = Some d → cout_chemin g p = Some c →
  (dijkstra fuel g o d).1 = Retour (dist, chemin) →
  head chemin = Some o ∧ last chemin = Some d ∧
  cout_chemin g chemin = Some dist ∧
  ∀ q c', head q = Some o → last q = Some d → cout_chemin g q = Some c' →
          dist <= c'.
Proof.
  intros Hu Hcu Hmax Hn Hc Hm Hlt Hne Hhead Hlast Hcout.
  assert (∀ x, is_Some (trouver x (m_arcs g)) → vers_int x ≠ -1) as Hord.
  { intros x Hx%trouver_cles. apply vers_int_ordinaire.
    - by apply (proj1 (Forall_forall _ _) Hu).
    - intros ->. apply sommetExiste_cles in Hx. congruence. }
  unfold dijkstra.
  destruct (negb (sommetExiste g o) || negb (sommetExiste g d)) eqn:Hex;
    [done |].
  apply orb_false_iff in Hex as [Ho%negb_false_iff Hd%negb_false_iff].
  assert (is_Some (trouver d (m_arcs g))) as Hkd
    by (by apply sommetExiste_trouver).
  destruct (dijkstra_init_chaine g o) as (_ & HQ & _). cbn zeta in *.
  pose proof (cout_chemin_positif g p c Hc Hcout) as Hcpos.
  destruct (dijkstra_boucle_exact g o d p c Hc Hm Hhead Hlast Hcout
              (Z.to_nat (nbSommets g)) (dijkstra_init g o) [])
    as (e1 & E' & -> & (Hzero1 & Hpos1 & HE & Hp1) & HdE & Hopt1).
  { apply invariant_dijkstra_init. }
  { by apply predecesseurs_dijkstra_init. }
  { apply HQ. by apply sommetExiste_trouver. }
  { pose proof (longueur_Q_init g o). lia. }
  cbn [fst]. intros Hr1.
  assert (∀ v, is_Some (trouver v (m_arcs g)) →
               predecesseur_cout (m_arcs g) o (dj_distances e1)
                 (dj_predecesseurs e1) v) as Hpc1.
  { intros v Hv.
    destruct (Hp1 v Hv)
      as [? | (u & vs & a & Hpu & HuE & Huv & Hva & Hle & Hlt')];
      [by left |].
    right. exists u, vs, a.
    pose proof (couts_non_negatifs_arc g u vs v a Hc Huv Hva).
    pose proof (HE u HuE). rewrite (vers_int_id a.1) by lia.
    split_and!; try done. lia. }
  pose proof (HE d HdE) as Hdc.
  assert (chemin ≠ []) as Hne1.
  { intros ->. unfold reconstruire in Hr1.
    destruct (Z.eqb_spec (lire (dj_predecesseurs e1) d) (-1))
      as [Hpd | Hpd]; cbn [negb] in Hr1.
    - destruct (Hp1 d Hkd)
        as [[_ [? | ?]] | (u & vs & a & Hpu & _ & Huv & _)];
        [done | lia |].
      rewrite Hpu in Hpd. apply (Hord u); [by eapply trouver_present | done].
    - destruct (remonter _ _ _ _) as [r|] eqn:Hr; [| done].
      injection Hr1 as _ Hrev. rewrite remonter_eq in Hr.
      destruct (Z.eqb_spec (vers_int d) (-1)) as [Habs | _];
        [by destruct (Hord d Hkd) |].
      destruct fuel as [|fuel0]; [done |].
      apply remonter_prefixe in Hr as [s ->]. cbn [app rev] in Hrev.
      by apply app_eq_nil in Hrev as [_ ?]. }
  destruct (reconstruire_cout g o d (dj_distances e1) (dj_predecesseurs e1)
              fuel dist chemin Hu Hcu Hmax Hzero1 Hpc1 Hd Hr1 Hne1)
    as (-> & _ & Hh1 & Hl1 & (c1 & Hc1 & Hle1) & _).
  pose proof (Hopt1 chemin c1 Hh1 Hl1 Hc1) as Hge1.
  split_and!; try done. rewrite Hc1. f_equal. lia.
Qed.

(** X25.  Under the conditions of the shortest path (a path from
    [numOrigine] to another vertex [numDest] of cost [c] below INT_MAX, no
    stored cost going over INT_MAX when added to [c], costs of 0 or more,
    tables that hold each key once), the distance that [dijkstra] returns
    does not depend on the order in which the hash containers are
    enumerated. *)
Theorem dijkstra_distance_sans_ordre (g g' : Reseau) (numOrigine numDest : Z)
    (fuel fuel' : nat) (dist dist' : Z) (chemin chemin' : list Z)
    (p : list Z) (c : Z) :
  Forall est_unsigned (m_arcs g).*1 → cles_uniques g →
  sommetExiste g 4294967295 = false →
  Z.of_nat (length (m_arcs g)) <= nbSommets g →
  couts_non_negatifs g → sans_debordement g c → c < INT_MAX →
  numOrigine ≠ numDest →
  head p = Some numOrigine → last p = Some numDest →
  cout_chemin g p = Some c →
  reordonne g g' →
  (dijkstra fuel g numOrigine numDest).1 = Retour (dist, chemin) →
  (dijkstra fuel' g' numOrigine numDest).1 = Retour (dist', chemin') →
  dist = dist'.
Proof.
  intros Hu Hcu Hmax Hn Hc Hm Hlt Hne Hhead Hlast Hcout Hr Hd1 Hd2.
  destruct (dijkstra_distance_minimale g numOrigine numDest fuel dist chemin
              p c Hu Hcu Hmax Hn Hc Hm Hlt Hne Hhead Hlast Hcout Hd1)
    as (Hh1 & Hl1 & Hc1 & Hmin1).
  destruct (dijkstra_distance_minimale g' numOrigine numDest fuel' dist'
              chemin' p c) as (Hh2 & Hl2 & Hc2 & Hmin2); try done.
  - by rewrite (reordonne_cles g g' Hr).
  - by apply (reordonne_cles_uniques g).
  - by rewrite (reordonne_sommetExiste g g').
  - rewrite (reordonne_longueur g g' Hr). destruct Hr as (-> & _). done.
  - by apply (reordonne_Forall _ g).
  - by apply (reordonne_Forall _ g).
  - by rewrite (reordonne_cout_chemin g g').
  - rewrite (reordonne_cout_chemin g g') in Hc2 by done.
    rewrite <- (reordonne_cout_chemin g g') in Hc1 by done.
    pose proof (Hmin1 chemin' dist' Hh2 Hl2 Hc2).
    pose proof (Hmin2 chemin dist Hh1 Hl1 Hc1). lia.
Qed.

Lemma dijkstra_distance_sans_ordre_temoin : 4 = 4.
Proof.
  apply (dijkstra_distance_sans_ordre reseau_exemple
           (mkReseau 4 4
              [(4, []); (3, [(4, (1, 0))]); (2, [(3, (2, 0))]);
               (1, [(3, (5, 0)); (2, (1, 0))])])
           1 4 5 5 4 4 [1; 2; 3; 4] [1; 2; 3; 4] [1; 3; 4] 6);
    [| apply cles_uniques_exemple | reflexivity | cbn; lia
     | apply couts_non_negatifs_exemple | | reflexivity | done
     | reflexivity | reflexivity | reflexivity | | reflexivity | reflexivity].
  - unfold reseau_exemple. cbn [m_arcs fmap list_fmap fst].
    repeat (apply Forall_cons; split; [unfold est_unsigned; lia |]).
    constructor.
  - unfold sans_debordement, reseau_exemple. cbn [m_arcs].
    repeat (apply Forall_cons; split;
            [repeat (apply Forall_cons; split;
                     [cbn [fst snd]; unfold INT_MAX; lia |]);
             constructor |]).
    constructor.
  - split; [done |]. split; [done |].
    exists [(1, [(3, (5, 0)); (2, (1, 0))]); (2, [(3, (2, 0))]);
            (3, [(4, (1, 0))]); (4, [])].
    split.
    + unfold reseau_exemple. cbn [m_arcs].
      repeat (apply Forall2_cons; split; [split; [done |] |]);
        cbn [fst snd]; try done; try apply Forall2_nil.
      apply perm_swap.
    + cbn [m_arcs].
      change [(1, [(3, (5, 0)); (2, (1, 0))]); (2, [(3, (2, 0))]);
              (3, [(4, (1, 0))]); (4, [])]
        with (rev [(4, ([] : liste_arcs)); (3, [(4, (1, 0))]);
                   (2, [(3, (2, 0))]); (1, [(3, (5, 0)); (2, (1, 0))])]).
      symmetry. apply Permutation_rev.
Defined.

(** ** The queries agree *)

(** X26.  [getCoutArc] and [getTypeArc] return a value exactly when
    [arcExiste] answers true, and end with a [std::logic_error] in every
    other case; [arcExiste] answers or ends with a [std::logic_error]: no
    query reads through an iterator that [find] left at the end. *)
Theorem requetes_coherentes (g : Reseau) (numOrigine numDest : Z) :
  ((∃ c, getCoutArc g numOrigine numDest = Retour c) ↔
   arcExiste g numOrigine numDest = Retour true) ∧
  ((∃ t, getTypeArc g numOrigine numDest = Retour t) ↔
   arcExiste g numOrigine numDest = Retour true) ∧
  (arcExiste g numOrigine numDest ≠ Retour true →
   leve_logic_error (getCoutArc g numOrigine numDest) ∧
   leve_logic_error (getTypeArc g numOrigine numDest)) ∧
  ((∃ b, arcExiste g numOrigine numDest = Retour b) ∨
   leve_logic_error (arcExiste g numOrigine numDest)).
Proof.
  rewrite getCoutArc_forme, getTypeArc_forme, arcExiste_forme.
  destruct (negb (sommetExiste g numOrigine && sommetExiste g numDest)).
  - split_and!.
    + split; [by intros [? ?] | done].
    + split; [by intros [? ?] | done].
    + intros _. split; by eexists.
    + right. by eexists.
  - destruct (arc_stocke g numOrigine numDest) as [a|].
    + split_and!.
      * split; [done | by eexists].
      * split; [done | by eexists].
      * done.
      * left. by eexists.
    + split_and!.
      * split; [by intros [? ?] | done].
      * split; [by intros [? ?] | done].
      * intros _. split; by eexists.
      * left. by eexists.
Qed.
